(** * Article reconciliation scripts: a shallow embedding and its properties

    The development follows the four scripts of the repository:

    - [sort_artic_2.py]: normalisation of part numbers ([clean_art],
      [is_valid_art]), variant generation ([process_articul]) and the
      nomenclature extractor ([extract_from_nomenclature]);
    - [search_3.py]: the catalog dictionaries ([load_catalog]), the lookup
      ([find_vtrac]) and the per-record matcher ([process_row]);
    - [end_4.py]: identifier propagation ([process_vtrac_matching],
      [apply_vtrac_matches]) and the prefix consensus ([find_common_vtrac]).

    Python strings are sequences of Unicode code points; they are modelled
    as lists of code points so that [len], slicing and [startswith] count
    characters exactly as Python does. *)

From Stdlib Require Import String Ascii List NArith Arith Bool Lia.
From Stdlib Require Import Sorted Permutation.
Import ListNotations.

Set Implicit Arguments.

(** ** Python strings *)

Module Py.

Definition pychar := N.
Definition pystr := list pychar.

(** ASCII literals, for readable examples. *)
Definition str (s : string) : pystr :=
  map N_of_ascii (list_ascii_of_string s).

Definition pystr_eq_dec : forall a b : pystr, {a = b} + {a <> b} :=
  list_eq_dec N.eq_dec.

Definition pystr_eqb (a b : pystr) : bool :=
  if pystr_eq_dec a b then true else false.

(** A spreadsheet cell as pandas hands it over: missing ([NaN]/[None],
    for which [pd.isna] holds) or a value whose [str()] is the given
    text. *)
Definition cell := option pystr.

Definition isna (c : cell) : bool :=
  match c with None => true | Some _ => false end.

Definition notna (c : cell) : bool := negb (isna c).

(** Code points used by the scripts. *)
Definition SPACE : pychar := 32%N.
Definition DASH : pychar := 45%N.
Definition SLASH : pychar := 47%N.
Definition LPAREN : pychar := 40%N.
Definition RPAREN : pychar := 41%N.
Definition SEMI : pychar := 59%N.
Definition DOLLAR : pychar := 36%N.
Definition DOT : pychar := 46%N.

(** [Py_UNICODE_ISSPACE]: the characters removed by [str.strip()] and
    matched by [\s] in a [str] pattern. *)
Definition is_space (c : pychar) : bool :=
  ((9 <=? c) && (c <=? 13) || (28 <=? c) && (c <=? 32)
   || (c =? 0x85) || (c =? 0xA0) || (c =? 0x1680)
   || (0x2000 <=? c) && (c <=? 0x200A)
   || (c =? 0x2028) || (c =? 0x2029) || (c =? 0x202F)
   || (c =? 0x205F) || (c =? 0x3000))%N.

(** Dropping a leading or trailing run of characters. *)
Fixpoint lstrip_by (p : pychar -> bool) (s : pystr) : pystr :=
  match s with
  | [] => []
  | c :: s' => if p c then lstrip_by p s' else s
  end.

Definition rstrip_by (p : pychar -> bool) (s : pystr) : pystr :=
  rev (lstrip_by p (rev s)).

(** [s.strip()] *)
Definition strip (s : pystr) : pystr :=
  rstrip_by is_space (lstrip_by is_space s).

(** [s.replace(a, b)] for a one-character [a]. *)
Definition replace (a : pychar) (b : pystr) (s : pystr) : pystr :=
  flat_map (fun c => if (c =? a)%N then b else [c]) s.

(** [s.startswith(p)] *)
Fixpoint startswith (s p : pystr) {struct p} : bool :=
  match p, s with
  | [], _ => true
  | _ :: _, [] => false
  | a :: p', c :: s' => (c =? a)%N && startswith s' p'
  end.

(** [c in s] for a one-character [c]. *)
Definition contains (c : pychar) (s : pystr) : bool :=
  existsb (fun d => (d =? c)%N) s.

(** Cutting at every character of a class: [re.split(r'[...]', s)], and
    [s.split(sep)] for a one-character [sep].  There is always at least
    one piece. *)
Fixpoint split_by (p : pychar -> bool) (s : pystr) : list pystr :=
  match s with
  | [] => [[]]
  | c :: s' =>
      if p c then [] :: split_by p s'
      else match split_by p s' with
           | [] => [[c]]
           | q :: qs => (c :: q) :: qs
           end
  end.

Definition split (sep : pychar) (s : pystr) : list pystr :=
  split_by (fun c => (c =? sep)%N) s.

(** [s.split(sep, n)]: at most [n] cuts, the rest is left whole. *)
Fixpoint split_max (sep : pychar) (n : nat) (s : pystr) : list pystr :=
  match n with
  | O => [s]
  | S n' =>
      match s with
      | [] => [[]]
      | c :: s' =>
          if (c =? sep)%N then [] :: split_max sep n' s'
          else match split_max sep n s' with
               | [] => [[c]]
               | p :: ps => (c :: p) :: ps
               end
      end
  end.

(** [sep.join(parts)] *)
Fixpoint join (sep : pystr) (parts : list pystr) : pystr :=
  match parts with
  | [] => []
  | [p] => p
  | p :: ps => p ++ sep ++ join sep ps
  end.

(** [s.rsplit(sep, 1)[0]]: the text before the last [sep], or all of
    [s] when there is none. *)
Definition rsplit1_head (sep : pychar) (s : pystr) : pystr :=
  match lstrip_by (fun c => negb (c =? sep)%N) (rev s) with
  | [] => s
  | _ :: r => rev r
  end.

(** [s[:n]] and [s[:-n]] *)
Definition take (n : nat) (s : pystr) : pystr := firstn n s.
Definition drop_last (n : nat) (s : pystr) : pystr :=
  firstn (length s - n) s.

(** The longest prefix made of characters of a class. *)
Fixpoint takewhile (p : pychar -> bool) (s : pystr) : pystr :=
  match s with
  | [] => []
  | c :: s' => if p c then c :: takewhile p s' else []
  end.

(** [re.findall] for a pattern with one group: the text is scanned from
    left to right; [try_match] tells, for the text starting at the current
    position, whether the pattern matches there and then gives the group
    and the length of the match.  After a match the scan resumes right
    behind it ([skip] counts the characters of the match still to pass),
    so that matches never overlap.  Every pattern used here matches at
    least one character. *)
Fixpoint findall_from (try_match : pystr -> option (pystr * nat))
    (skip : nat) (s : pystr) : list pystr :=
  match s with
  | [] => []
  | _ :: s' =>
      match skip with
      | S k => findall_from try_match k s'
      | O =>
          match try_match s with
          | Some (g, n) => g :: findall_from try_match (n - 1) s'
          | None => findall_from try_match 0 s'
          end
      end
  end.

Definition findall (try_match : pystr -> option (pystr * nat))
    (s : pystr) : list pystr :=
  findall_from try_match 0 s.

(** Python sets of strings.  The scripts only add members, test
    membership and turn the set into a list.  A set is represented by the
    list of its members in the order of their first insertion; this order
    is not the one in which Python iterates over the set or lists it, see
    [SetOrder] below. *)
Definition pyset := list pystr.

Definition set_mem (x : pystr) (s : pyset) : bool :=
  existsb (pystr_eqb x) s.

Definition set_add (x : pystr) (s : pyset) : pyset :=
  if set_mem x s then s else s ++ [x].

Definition set_update (xs : list pystr) (s : pyset) : pyset :=
  fold_left (fun acc x => set_add x acc) xs s.

(** [list(s)] for a set [s]: the members, each once, in an arrangement
    that depends on the hashes of the run and on the way the set was
    filled.  [end_4.py] lists one set for each line of the table it
    searches, so the arrangement is taken as a function of the index of
    the line and of the members; nothing is known of it but that it
    arranges the members. *)
Class SetOrder := {
  list_of_set : nat -> pyset -> list pystr;
  list_of_set_perm : forall idx s, Permutation (list_of_set idx s) s
}.

(** Two arrangements to evaluate with: the order of insertion and its
    reverse. *)
Definition insertion_order : SetOrder :=
  {| list_of_set := fun _ s => s;
     list_of_set_perm := fun _ s => Permutation_refl s |}.

Definition reversed_order : SetOrder :=
  {| list_of_set := fun _ s => rev s;
     list_of_set_perm := fun _ s => Permutation_sym (Permutation_rev s) |}.

(** Python dictionaries keep their keys in insertion order, and an
    assignment to a key that is present replaces the value in place. *)
Section Dict.
Variables K V : Type.
Variable keq : K -> K -> bool.

Definition dict := list (K * V).

Fixpoint dict_get (k : K) (d : dict) : option V :=
  match d with
  | [] => None
  | (k', v) :: d' => if keq k k' then Some v else dict_get k d'
  end.

Fixpoint dict_set (k : K) (v : V) (d : dict) : dict :=
  match d with
  | [] => [(k, v)]
  | (k', v') :: d' =>
      if keq k k' then (k', v) :: d' else (k', v') :: dict_set k v d'
  end.
End Dict.

(** Case mapping.  [str.upper()] maps every character on its own to its
    upper-case expansion (one or more characters; there is no context
    dependence).  The Unicode table itself belongs to the interpreter, so
    it is an interface here: the fields below are the facts about it that
    the scripts rely on. *)
Class CaseMap := {
  upper_char : pychar -> pystr;
  (** an upper-case expansion is made of characters that are their own
      upper case *)
  upper_char_fixed :
    forall c d, In d (upper_char c) -> upper_char d = [d];
  (** every ASCII character except the small letters is its own upper
      case; white space of any script has no case *)
  upper_char_ascii :
    forall c, (c < 128)%N -> ((c < 97) \/ (122 < c))%N -> upper_char c = [c];
  upper_char_space :
    forall c, is_space c = true -> upper_char c = [c];
  (** case mapping never erases a character and never produces an ASCII
      symbol or white space out of another character *)
  upper_char_nonempty : forall c, upper_char c <> [];
  upper_char_fresh :
    forall c d, In d (upper_char c) -> d <> c ->
                is_space d = false /\ ((65 <= d <= 90) \/ (128 <= d))%N
}.

Definition upper `{CaseMap} (s : pystr) : pystr := flat_map upper_char s.

(** [str.upper()] on ASCII, Latin-1 and the Cyrillic letters of U+0400
    to U+045F, as CPython has it; elsewhere the character is kept. *)
Definition cpython_upper_char (c : pychar) : pystr :=
  (if (97 <=? c) && (c <=? 122) then [c - 32]
   else if c =? 0xB5 then [0x39C]
   else if c =? 0xDF then [83; 83]
   else if (0xE0 <=? c) && (c <=? 0xFE) && negb (c =? 0xF7) then [c - 32]
   else if c =? 0xFF then [0x178]
   else if (0x430 <=? c) && (c <=? 0x44F) then [c - 32]
   else if (0x450 <=? c) && (c <=? 0x45F) then [c - 80]
   else if (c =? 0x1C84) || (c =? 0x1C85) then [0x422]
   else [c])%N.

End Py.

Import Py.

(** ** [sort_artic_2.py]: normaliser *)

Module SortArtic.

(** The character class [[-/\s]] of the pattern in [clean_art]. *)
Definition is_trail (c : pychar) : bool :=
  (c =? DASH)%N || (c =? SLASH)%N || is_space c.

(** [re.sub(r'[-/\s]+$', '', art)]: the one match that can reach [$] is
    the maximal run of class characters that ends the string (a final
    newline is itself in the class), so the substitution removes that
    run. *)
Definition re_sub_trailing (art : pystr) : pystr := rstrip_by is_trail art.

(** [clean_art]:
    [re.sub(r'[-/\s]+$', '', art).replace(' ', '').upper()] *)
Definition clean_art `{CaseMap} (art : pystr) : pystr :=
  upper (replace SPACE [] (re_sub_trailing art)).

(** [is_valid_art]: [len(art) >= 4 and ' ' not in art] *)
Definition is_valid_art (art : pystr) : bool :=
  (4 <=? length art) && negb (contains SPACE art).

(** *** Variant generator *)

(** [variants.add(x)] under a condition. *)
Definition add_if (b : bool) (x : pystr) (variants : pyset) : pyset :=
  if b then set_add x variants else variants.

(** The hyphen block of [process_articul]. *)
Definition hyphen_variants `{CaseMap} (articul : pystr) (variants : pyset)
  : pyset :=
  let part_before_last_dash := rsplit1_head DASH articul in
  let variants :=
    if is_valid_art part_before_last_dash then
      let variants := set_add (clean_art part_before_last_dash) variants in
      if 7 <=? length part_before_last_dash then
        let truncated := clean_art (drop_last 2 part_before_last_dash) in
        add_if (is_valid_art truncated) truncated variants
      else variants
    else variants in
  let parts := split_max DASH 2 articul in
  if 2 <=? length parts then
    let first_two := join [DASH] (firstn 2 parts) in
    let variants :=
      add_if (is_valid_art first_two) (clean_art first_two) variants in
    if 3 <=? length parts then
      let third_part := nth 2 parts [] in
      add_if (is_valid_art third_part) (clean_art third_part) variants
    else variants
  else variants.

(** The slash block of [process_articul]. *)
Definition slash_variants `{CaseMap} (articul : pystr) (variants : pyset)
  : pyset :=
  let replaced_with_dash := clean_art (replace SLASH [DASH] articul) in
  let variants :=
    add_if (is_valid_art replaced_with_dash) replaced_with_dash variants in
  let replaced_with_space :=
    clean_art (replace SLASH [SPACE; SLASH; SPACE] articul) in
  let variants :=
    add_if (is_valid_art replaced_with_space) replaced_with_space variants in
  let replaced_with_hyphen :=
    clean_art (replace SLASH [SPACE; DASH; SPACE] articul) in
  let variants :=
    add_if (is_valid_art replaced_with_hyphen) replaced_with_hyphen
      variants in
  fold_left
    (fun variants part =>
       let cleaned := clean_art part in
       add_if (is_valid_art cleaned) cleaned variants)
    (split SLASH articul) variants.

(** [process_articul(articul, original_art)].  The list returned stands
    for [list(valid_variants)]: it holds the members in the order of
    their insertion, which is not the order Python gives; [process_row]
    sorts what it collects, and what is stated of this list speaks of
    its members only. *)
Definition process_articul `{CaseMap} (articul : cell)
    (original_art : pystr) : list pystr :=
  match articul with
  | None => []
  | Some raw =>
      let articul := upper (strip raw) in
      let articul := clean_art articul in
      let variants : pyset := [] in
      let variants :=
        add_if (negb (pystr_eqb articul original_art)) articul variants in
      let variants :=
        if contains DASH articul then hyphen_variants articul variants
        else variants in
      let variants :=
        if contains SLASH articul then slash_variants articul variants
        else variants in
      filter is_valid_art variants
  end.

(** *** Nomenclature extractor *)

(** [r'\(([^)]*?)\)']: from an opening parenthesis to the first closing
    one behind it; the group is the text in between. *)
Definition bracket_match (s : pystr) : option (pystr * nat) :=
  match s with
  | c :: rest =>
      if (c =? LPAREN)%N then
        let body := takewhile (fun d => negb (d =? RPAREN)%N) rest in
        match skipn (length body) rest with
        | [] => None
        | _ :: _ => Some (body, length body + 2)
        end
      else None
  | [] => None
  end.

(** The class [[A-Z0-9-]]. *)
Definition is_art_char (c : pychar) : bool :=
  ((65 <=? c) && (c <=? 90) || (48 <=? c) && (c <=? 57) || (c =? DASH))%N.

(** [re.search(r'([A-Z0-9-]+)', s)]: the first run of class characters. *)
Definition search_art_run (s : pystr) : option pystr :=
  match lstrip_by (fun c => negb (is_art_char c)) s with
  | [] => None
  | r => Some (takewhile is_art_char r)
  end.

(** The letters of the marker under [re.IGNORECASE]: a character of the
    text matches a letter of the pattern when their lower cases agree, or
    when the two are listed as equivalent (the historic forms of Cyrillic
    te). *)
Definition is_marker_a (c : pychar) : bool := ((c =? 0x430) || (c =? 0x410))%N.
Definition is_marker_r (c : pychar) : bool := ((c =? 0x440) || (c =? 0x420))%N.
Definition is_marker_t (c : pychar) : bool :=
  ((c =? 0x442) || (c =? 0x422) || (c =? 0x1C84) || (c =? 0x1C85))%N.

(** The class of the group of [art_pattern]: inside brackets the dollar
    sign stands for itself, so the class excludes the semicolon and the
    dollar sign. *)
Definition is_art_group_char (c : pychar) : bool :=
  negb (c =? SEMI)%N && negb (c =? DOLLAR)%N.

(** [art_pattern], the three letters, an optional full stop, white space,
    then the group: every part is greedy and none has to give anything
    back, since the parts that follow may all be empty. *)
Definition art_match (s : pystr) : option (pystr * nat) :=
  match s with
  | a :: r :: t :: rest =>
      if is_marker_a a && is_marker_r r && is_marker_t t then
        let '(dot, rest) :=
          match rest with
          | c :: rest' => if (c =? DOT)%N then (1, rest') else (0, rest)
          | [] => (0, rest)
          end in
        let ws := takewhile is_space rest in
        let rest := skipn (length ws) rest in
        let group := takewhile is_art_group_char rest in
        Some (group, 3 + dot + length ws + length group)
      else None
  | _ => None
  end.

(** [articuls.append(art)] when [art] passes the two tests. *)
Definition keep (original_art : pystr) (art : pystr) (articuls : list pystr)
  : list pystr :=
  if is_valid_art art && negb (pystr_eqb art original_art)
  then articuls ++ [art] else articuls.

(** First loop of [extract_from_nomenclature]: the bracketed groups. *)
Definition extract_brackets `{CaseMap} (nomenclature : pystr)
    (original_art : pystr) (articuls : list pystr) : list pystr :=
  fold_left
    (fun articuls m =>
       fold_left
         (fun articuls part =>
            let cleaned_part := strip part in
            match search_art_run cleaned_part with
            | Some g => keep original_art (clean_art g) articuls
            | None => articuls
            end)
         (split_by (fun c => (c =? SLASH)%N || (c =? SEMI)%N) m)
         articuls)
    (findall bracket_match nomenclature) articuls.

(** [match.split('/')[0].split('(')[0].split(' ')[0]] *)
Definition first_token (m : pystr) : pystr :=
  hd [] (split SPACE (hd [] (split LPAREN (hd [] (split SLASH m))))).

(** Second loop of [extract_from_nomenclature]: the text behind the
    marker. *)
Definition extract_markers `{CaseMap} (nomenclature : pystr)
    (original_art : pystr) (articuls : list pystr) : list pystr :=
  fold_left
    (fun articuls m => keep original_art (clean_art (first_token m)) articuls)
    (findall art_match nomenclature) articuls.

(** [extract_from_nomenclature(nomenclature, original_art)] *)
Definition extract_from_nomenclature `{CaseMap} (nomenclature : cell)
    (original_art : pystr) : list pystr :=
  match nomenclature with
  | None => []
  | Some text =>
      let nomenclature := upper text in
      let articuls := extract_brackets nomenclature original_art [] in
      extract_markers nomenclature original_art articuls
  end.

(** *** The marker pass in the words of the specification *)

(** The text starts with the three letters of the marker. *)
Definition marker_at (s : pystr) : bool :=
  match s with
  | a :: r :: t :: _ => is_marker_a a && is_marker_r r && is_marker_t t
  | _ => false
  end.

(** The text behind the first occurrence of the marker, if there is
    one. *)
Fixpoint after_first_marker (s : pystr) : option pystr :=
  match s with
  | [] => None
  | _ :: s' => if marker_at s then Some (skipn 3 s) else after_first_marker s'
  end.

(** Passing the optional full stop and the white space behind the
    marker. *)
Definition drop_dot (s : pystr) : pystr :=
  match s with
  | c :: s' => if (c =? DOT)%N then s' else s
  | [] => []
  end.

Definition after_marker_gap (s : pystr) : pystr :=
  lstrip_by is_space (drop_dot s).

(** The portion before the first slash, opening parenthesis or space. *)
Definition is_token_char (c : pychar) : bool :=
  negb (c =? SLASH)%N && negb (c =? LPAREN)%N && negb (c =? SPACE)%N.

(** The text ends here or goes on with a semicolon. *)
Definition semi_or_end (tail : pystr) : Prop :=
  tail = [] \/ exists t, tail = SEMI :: t.

(** The captured texts of a piece: that of its first marker, if any. *)
Definition piece_group (piece : pystr) : list pystr :=
  match after_first_marker piece with
  | Some rest => [after_marker_gap rest]
  | None => []
  end.

(** What one piece of the text between semicolons contributes: the text
    behind its first marker runs to the end of the piece; its first token
    is normalised and kept when it is valid and differs from the
    original. *)
Definition marker_token `{CaseMap} (original_art : pystr) (piece : pystr)
  : list pystr :=
  match after_first_marker piece with
  | None => []
  | Some rest =>
      let art := clean_art (takewhile is_token_char (after_marker_gap rest)) in
      if is_valid_art art && negb (pystr_eqb art original_art)
      then [art] else []
  end.

(** What the sentence on the markers promises for an occurrence of the
    marker followed by [rest]: the text up to the next semicolon or the
    end, cut at the first slash, parenthesis or space, and normalised. *)
Definition promised_marker_token `{CaseMap} (rest : pystr) : pystr :=
  clean_art
    (takewhile is_token_char
       (takewhile (fun c => negb (c =? SEMI)%N) (after_marker_gap rest))).

(** The marker in small letters, as in the pattern, and in capitals. *)
Definition MARKER : pystr := [0x430; 0x440; 0x442]%N.
Definition MARKER_UPPER : pystr := [0x410; 0x420; 0x422]%N.

(** Two markers in one piece of text, and a text with a dollar sign. *)
Definition text_two_markers : pystr :=
  MARKER ++ str ".AB12 " ++ MARKER ++ str ".CD34".

Definition text_dollar : pystr := MARKER ++ str ".ABCD$EF".

Definition text_markers : pystr :=
  MARKER ++ str ". xy12z/3 (new); " ++ MARKER ++ str "QWER-7 left".

(** *** One record *)

(** The two columns [process_row] reads. *)
Record row := {
  row_articul : cell;
  row_nomenclature : cell
}.

(** Comparison of strings as Python does it, code point by code point. *)
Fixpoint str_leb (x y : pystr) : bool :=
  match x, y with
  | [], _ => true
  | _ :: _, [] => false
  | a :: x', b :: y' => (a <? b)%N || (a =? b)%N && str_leb x' y'
  end.

(** Order of the key [(-len(x), x)]: longer first, then by text. *)
Definition key_leb (x y : pystr) : bool :=
  (length y <? length x) || (length x =? length y) && str_leb x y.

Fixpoint insert_sorted (x : pystr) (l : list pystr) : list pystr :=
  match l with
  | [] => [x]
  | y :: l' => if key_leb x y then x :: l else y :: insert_sorted x l'
  end.

(** [sorted(l, key=lambda x: (-len(x), x))] *)
Definition sorted_by_key (l : list pystr) : list pystr :=
  fold_right insert_sorted [] l.

(** Truth value of a cell in [if articul:]: a missing value is a NaN,
    which is true; a text is true unless it is empty. *)
Definition truthy (c : cell) : bool :=
  match c with
  | None => true
  | Some s => negb (pystr_eqb s [])
  end.

(** [process_row(row)] *)
Definition process_row `{CaseMap} (r : row) : list pystr :=
  let articul := row_articul r in
  let nomenclature := row_nomenclature r in
  let original_art :=
    match articul with Some s => clean_art s | None => [] end in
  let all_articuls : pyset := [] in
  let all_articuls :=
    if truthy articul then
      fold_left
        (fun acc art =>
           add_if (negb (pystr_eqb art original_art)) art acc)
        (process_articul articul original_art) all_articuls
    else all_articuls in
  let all_articuls :=
    fold_left
      (fun acc art => add_if (negb (pystr_eqb art original_art)) art acc)
      (extract_from_nomenclature nomenclature original_art) all_articuls in
  sorted_by_key all_articuls.

(** *** Invariants of the collections *)

(** A set of variants: no member twice, every member in normal form. *)
Definition variants_ok `{CaseMap} (variants : pyset) : Prop :=
  NoDup variants /\ forall v, In v variants -> clean_art v = v.

(** A list of extracted part numbers: every member valid, in normal form
    and different from the original. *)
Definition articuls_ok `{CaseMap} (original_art : pystr)
    (articuls : list pystr) : Prop :=
  forall v, In v articuls ->
            is_valid_art v = true /\ clean_art v = v /\ v <> original_art.

(** The order of the key as a relation. *)
Definition key_le (x y : pystr) : Prop := key_leb x y = true.

End SortArtic.

(** ** [search_3.py]: catalog index and matcher *)

Module Search.

Definition sdict := dict pystr pystr.

(** The literal ['nan']. *)
Definition NAN_TEXT : pystr := str "nan".

(** One line of the catalog, columns read with [dtype=str]. *)
Record catalog_row := {
  cat_article : cell;
  cat_analog : cell;
  cat_vtrac : cell
}.

(** The two dictionaries of [VTRACFinder]. *)
Record finder := {
  article_dict : sdict;
  analog_dict : sdict
}.

(** [str(x).strip() if not pd.isna(x) else ''] *)
Definition cell_text (c : cell) : pystr :=
  match c with
  | Some s => strip s
  | None => []
  end.

(** [x and x not in ('', 'nan')] *)
Definition usable (x : pystr) : bool :=
  negb (pystr_eqb x []) &&
  negb (pystr_eqb x [] || pystr_eqb x NAN_TEXT).

(** Body of the loop of [load_catalog]. *)
Definition load_row (f : finder) (r : catalog_row) : finder :=
  let key_article := cell_text (cat_article r) in
  let vtrac := cell_text (cat_vtrac r) in
  let article_dict :=
    if usable key_article && usable vtrac
    then dict_set pystr_eqb key_article vtrac (article_dict f)
    else article_dict f in
  let key_analog := cell_text (cat_analog r) in
  let analog_dict :=
    if usable key_analog && usable vtrac
    then dict_set pystr_eqb key_analog vtrac (analog_dict f)
    else analog_dict f in
  {| article_dict := article_dict; analog_dict := analog_dict |}.

(** [__init__] followed by [load_catalog]: both dictionaries start
    empty. *)
Definition load_catalog (catalog : list catalog_row) : finder :=
  fold_left load_row catalog {| article_dict := []; analog_dict := [] |}.

(** [found_vtracs.append(v)] under a condition. *)
Definition append_if (b : bool) (v : pystr) (found : list pystr)
  : list pystr :=
  if b then found ++ [v] else found.

(** One of the two prefix loops of [find_vtrac]. *)
Definition prefix_step (d : sdict) (article : pystr) (found : list pystr)
  : list pystr :=
  fold_left
    (fun found kv =>
       let '(catalog_key, vtrac) := kv in
       if pystr_eqb catalog_key [] || pystr_eqb vtrac [] then found
       else
         let catalog_key := strip catalog_key in
         let vtrac := strip vtrac in
         append_if (startswith catalog_key article
                    && negb (set_mem vtrac found)
                    && negb (pystr_eqb vtrac [])) vtrac found)
    d found.

(** [find_vtrac(article)] *)
Definition find_vtrac (f : finder) (article : pystr) : list pystr :=
  let found_vtracs : list pystr := [] in
  if pystr_eqb article [] || pystr_eqb (strip article) [] then found_vtracs
  else
    let article := strip article in
    let found_vtracs :=
      match dict_get pystr_eqb article (article_dict f) with
      | Some exact_vtrac_article =>
          append_if (negb (pystr_eqb exact_vtrac_article [])
                     && negb (pystr_eqb (strip exact_vtrac_article) []))
            exact_vtrac_article found_vtracs
      | None => found_vtracs
      end in
    let found_vtracs :=
      match dict_get pystr_eqb article (analog_dict f) with
      | Some exact_vtrac_analog =>
          append_if (negb (pystr_eqb exact_vtrac_analog [])
                     && negb (pystr_eqb (strip exact_vtrac_analog) [])
                     && negb (set_mem exact_vtrac_analog found_vtracs))
            exact_vtrac_analog found_vtracs
      | None => found_vtracs
      end in
    let found_vtracs := prefix_step (article_dict f) article found_vtracs in
    prefix_step (analog_dict f) article found_vtracs.

(** [process_row(row)]: the row is given by its cells in the order of
    [Config.ADDITIONAL_ARTICLE_COLS]. *)
Definition process_row (f : finder) (r : list cell) : list pystr :=
  fold_left
    (fun found article =>
       match article with
       | None => found
       | Some a =>
           if pystr_eqb (strip a) [] then found
           else
             let article_key := strip a in
             fold_left
               (fun found vtrac =>
                  append_if (negb (pystr_eqb vtrac [])
                             && negb (set_mem vtrac found)) vtrac found)
               (find_vtrac f article_key) found
       end)
    r [].

(** *** The index in the words of the specification *)

(** What the specification asks of a stored key or identifier: trimmed,
    not empty, and not the text [nan]. *)
Definition stored_text (x : pystr) : Prop :=
  strip x = x /\ x <> [] /\ x <> NAN_TEXT.

(** The entry is entered in the primary mapping, respectively in the
    analog mapping; otherwise it is skipped there. *)
Definition writes_article (r : catalog_row) : bool :=
  usable (cell_text (cat_article r)) && usable (cell_text (cat_vtrac r)).

Definition writes_analog (r : catalog_row) : bool :=
  usable (cell_text (cat_analog r)) && usable (cell_text (cat_vtrac r)).

(** Every pair of both dictionaries is made of stored texts. *)
Definition finder_ok (f : finder) : Prop :=
  forall k v, In (k, v) (article_dict f) \/ In (k, v) (analog_dict f) ->
              stored_text k /\ stored_text v.

(** *** The scenarios of the specification *)

(** Two entries with the same part number, up to white space; the analog
    of the second reads nan and is not entered. *)
Definition catalog_dup : list catalog_row :=
  [ {| cat_article := Some (str " AB-100 ");
       cat_analog := None;
       cat_vtrac := Some (str "V1") |};
    {| cat_article := Some (str "AB-100");
       cat_analog := Some (str "nan");
       cat_vtrac := Some (str " V2") |} ].

(** The catalogs of the two scenarios. *)
Definition catalog_v1 : list catalog_row :=
  [ {| cat_article := Some (str "AB-100");
       cat_analog := Some (str "");
       cat_vtrac := Some (str "V1") |} ].

Definition catalog_v2 : list catalog_row :=
  [ {| cat_article := Some (str "AB-100-X");
       cat_analog := None;
       cat_vtrac := Some (str "V2") |} ].

(** A record with the given main part number and no additional ones. *)
Definition record_of (article : pystr) : list cell :=
  [Some article; None; None; None; None; None].

(** *** The matcher, step by step *)

(** The inner loop of [process_row]: the identifiers not seen so far are
    appended. *)
Definition merge_new (vtracs found : list pystr) : list pystr :=
  fold_left
    (fun found vtrac =>
       append_if (negb (pystr_eqb vtrac []) && negb (set_mem vtrac found))
         vtrac found)
    vtracs found.

(** The key under which a field is looked up, if the field is usable. *)
Definition field_key (article : cell) : option pystr :=
  match article with
  | None => None
  | Some a => if pystr_eqb (strip a) [] then None else Some (strip a)
  end.

(** The body of the outer loop of [process_row]. *)
Definition row_step (f : finder) (found : list pystr) (article : cell)
  : list pystr :=
  match field_key article with
  | Some article_key => merge_new (find_vtrac f article_key) found
  | None => found
  end.

(** The keys looked up for a record, in the order of its fields. *)
Definition searched_keys (r : list cell) : list pystr :=
  flat_map
    (fun article =>
       match field_key article with Some k => [k] | None => [] end)
    r.

(** A list of identifiers without repetition and without the empty
    text. *)
Definition vtracs_ok (found : list pystr) : Prop :=
  NoDup found /\ ~ In [] found.

(** *** The new columns *)

(** [Config.MAX_VTRAC_COLUMNS] *)
Definition MAX_VTRAC_COLUMNS : nat := 5.

(** [[r[i] if r and i < len(r) else None for r in results]] *)
Definition vtrac_column (i : nat) (results : list (list pystr)) : list cell :=
  map
    (fun r =>
       if negb (match r with [] => true | _ => false end) && (i <? length r)
       then Some (nth i r [])
       else None)
    results.

(** [process_dataframe]: every line of the table is resolved (the order in
    which the workers finish does not matter, each result is stored under
    the index of its line), then the columns [vtrac_1] to [vtrac_5] are
    built; the result lists them in this order. *)
Definition process_dataframe (f : finder) (table : list (list cell))
  : list (list cell) :=
  let results := map (process_row f) table in
  map (fun i => vtrac_column i results) (seq 0 MAX_VTRAC_COLUMNS).

(** The cells of line [j] in the new columns, from left to right. *)
Definition slots_of_line (columns : list (list cell)) (j : nat) : list cell :=
  map (fun column => nth j column None) columns.

End Search.

(** ** [end_4.py]: propagation of identifiers and prefix consensus *)

Module End4.

(** [len(CONFIG[VTRAC_COLS])], [CONFIG[MIN_PREFIX_LENGTH]] and the local
    [max_prefix_length]. *)
Definition N_VTRAC_COLS : nat := 5.
Definition MIN_PREFIX_LENGTH : nat := 6.
Definition max_prefix_length : nat := 8.

(** A line of the table: the cells of [ARTICUL_COLS], the cells of
    [VTRAC_COLS], and the cell of [NEW_COLUMN]. *)
Record row := {
  articul_cols : list cell;
  vtrac_cols : list cell;
  new_column : cell
}.

Definition dataframe := list row.

(** [[str(v) for v in cells if pd.notna(v)]] *)
Definition present (cells : list cell) : list pystr :=
  flat_map (fun c => match c with Some s => [s] | None => [] end) cells.

(** [cells.notna().any()] *)
Definition any_notna (cells : list cell) : bool := existsb notna cells.

(** [prepare_articul_mapping]: for every line with an identifier, each of
    its part numbers is mapped to the identifiers of the line. *)
Definition prepare_articul_mapping (df : dataframe) : dict pystr pyset :=
  fold_left
    (fun mapping r =>
       let articuls : pyset := set_update (present (articul_cols r)) [] in
       let vtracs := present (vtrac_cols r) in
       fold_left
         (fun mapping art =>
            let old :=
              match dict_get pystr_eqb art mapping with
              | Some vs => vs
              | None => []
              end in
            dict_set pystr_eqb art (set_update vtracs old) mapping)
         articuls mapping)
    (filter (fun r => any_notna (vtrac_cols r)) df) [].

(** The loop of [process_vtrac_matching] over the indices still to
    visit; it stops at the first index behind the table ([break]) and
    passes over the lines that have an identifier ([continue]).  The
    entry of a line is [list(found_vtracs)], the identifiers found in the
    arrangement of the run. *)
Fixpoint matching_loop {order : SetOrder} (df : dataframe)
    (mapping : dict pystr pyset)
    (idxs : list nat) (results : dict nat (list pystr))
  : dict nat (list pystr) :=
  match idxs with
  | [] => results
  | idx :: rest =>
      match nth_error df idx with
      | None => results
      | Some r =>
          if any_notna (vtrac_cols r) then matching_loop df mapping rest results
          else
            let current_articuls : pyset :=
              set_update (present (articul_cols r)) [] in
            let found_vtracs : pyset :=
              fold_left
                (fun found art =>
                   match dict_get pystr_eqb art mapping with
                   | Some vs => set_update vs found
                   | None => found
                   end)
                current_articuls [] in
            let results :=
              match found_vtracs with
              | [] => results
              | _ :: _ =>
                  dict_set Nat.eqb idx (list_of_set idx found_vtracs) results
              end in
            matching_loop df mapping rest results
      end
  end.

(** [process_vtrac_matching(start_idx, end_idx)] *)
Definition process_vtrac_matching {order : SetOrder} (df : dataframe)
    (mapping : dict pystr pyset) (start_idx end_idx : nat)
  : dict nat (list pystr) :=
  matching_loop df mapping (seq start_idx (end_idx - start_idx)) [].

(** Assignment to one place of a list; the scripts only write inside the
    list. *)
Fixpoint set_at {A : Type} (i : nat) (x : A) (l : list A) {struct l}
  : list A :=
  match l, i with
  | [], _ => []
  | _ :: l', O => x :: l'
  | y :: l', S i' => y :: set_at i' x l'
  end.

(** [for i, vtrac in enumerate(vtracs): df.at[idx, VTRAC_COLS[i]] = vtrac],
    on the cells of the line. *)
Fixpoint write_vtracs (i : nat) (vtracs : list pystr) (cells : list cell)
  : list cell :=
  match vtracs with
  | [] => cells
  | v :: vs => write_vtracs (S i) vs (set_at i (Some v) cells)
  end.

(** [apply_vtrac_matches(matches)]; the lock only serialises the calls.
    The indices of [matches] come from [process_vtrac_matching] and lie
    inside the table.  For an index outside the table pandas would add a
    line; the program never writes there and the model does not follow
    it: such an entry is passed over, and what is stated of arbitrary
    entries assumes their indices inside the table. *)
Definition apply_vtrac_matches (df : dataframe)
    (matches : dict nat (list pystr)) : dataframe :=
  fold_left
    (fun df kv =>
       let '(idx, vtracs) := kv in
       match nth_error df idx with
       | Some r =>
           set_at idx
             {| articul_cols := articul_cols r;
                vtrac_cols :=
                  write_vtracs 0 (firstn N_VTRAC_COLS vtracs) (vtrac_cols r);
                new_column := new_column r |} df
       | None => df
       end)
    matches df.

(** [range(hi, lo - 1, -1)] *)
Definition range_down (hi lo : nat) : list nat :=
  rev (seq lo (S hi - lo)).

(** [prefix_groups]: the texts of length at least [prefix_length],
    gathered under their first [prefix_length] characters. *)
Definition prefix_groups (prefix_length : nat) (str_values : list pystr)
  : dict pystr (list pystr) :=
  fold_left
    (fun groups s =>
       if prefix_length <=? length s then
         let prefix := take prefix_length s in
         let old :=
           match dict_get pystr_eqb prefix groups with
           | Some g => g
           | None => []
           end in
         dict_set pystr_eqb prefix (old ++ [s]) groups
       else groups)
    str_values [].

(** [max(groups, key=len, default=[])]: the first of the longest. *)
Definition max_by_len (groups : list (list pystr)) : list pystr :=
  match groups with
  | [] => []
  | g :: gs =>
      fold_left (fun best h => if length best <? length h then h else best)
        gs g
  end.

(** The loop of [find_common_vtrac] over the prefix lengths. *)
Fixpoint consensus_loop (lengths : list nat) (str_values : list pystr)
  : option pystr :=
  match lengths with
  | [] => None
  | prefix_length :: rest =>
      let groups := prefix_groups prefix_length str_values in
      let largest_group := max_by_len (map snd groups) in
      if 1 <? length largest_group
      then Some (take prefix_length (hd [] largest_group))
      else consensus_loop rest str_values
  end.

(** [find_common_vtrac(vtrac_values)] *)
Definition find_common_vtrac (vtrac_values : list cell) : option pystr :=
  if match vtrac_values with [] => true | _ => false end
     || forallb isna vtrac_values
  then None
  else
    let str_values := present vtrac_values in
    if length str_values <? 2 then
      match str_values with
      | s :: _ => Some s
      | [] => None
      end
    else
      consensus_loop (range_down max_prefix_length MIN_PREFIX_LENGTH)
        str_values.

(** The same round in the words of the specification: the group of a
    prefix is made of the identifiers that are long enough and start with
    it. *)
Definition in_group (prefix_length : nat) (prefix : pystr) (s : pystr)
  : bool :=
  (prefix_length <=? length s) && pystr_eqb (take prefix_length s) prefix.

Definition group_of (prefix_length : nat) (prefix : pystr)
    (str_values : list pystr) : list pystr :=
  filter (in_group prefix_length prefix) str_values.

(** The group stored under a prefix, empty when there is none. *)
Definition lookup_group (p : pystr) (groups : dict pystr (list pystr))
  : list pystr :=
  match dict_get pystr_eqb p groups with
  | Some g => g
  | None => []
  end.

(** The dictionary built by a round holds, under each prefix, exactly the
    group of that prefix, and holds no empty group. *)
Definition groups_inv (L : nat) (groups : dict pystr (list pystr))
    (done : list pystr) : Prop :=
  NoDup (map fst groups)
  /\ (forall p, lookup_group p groups = group_of L p done)
  /\ (forall p g, In (p, g) groups -> g <> []).

(** One round of the loop of [find_common_vtrac]. *)
Definition round (prefix_length : nat) (str_values : list pystr)
  : option pystr :=
  let largest_group :=
    max_by_len (map snd (prefix_groups prefix_length str_values)) in
  if 1 <? length largest_group
  then Some (take prefix_length (hd [] largest_group))
  else None.

(** Task 1 of [process] when the ranges are worked off one after the
    other: each range is searched and its matches are written back. *)
Definition task1 {order : SetOrder} (mapping : dict pystr pyset)
    (ranges : list (nat * nat)) (df : dataframe) : dataframe :=
  fold_left
    (fun df se =>
       apply_vtrac_matches df
         (process_vtrac_matching df mapping (fst se) (snd se)))
    ranges df.

(** *** Sample inputs *)

(** A table of two lines sharing the part number AB-1: the first has the
    identifier V1, the second has none yet. *)
Definition df_sample : dataframe :=
  [ {| articul_cols := [Some (str "AB-1"); None; None; None; None];
       vtrac_cols := [Some (str "V1"); None; None; None; None];
       new_column := None |};
    {| articul_cols := [Some (str "AB-1"); None; None; None; None];
       vtrac_cols := [None; None; None; None; None];
       new_column := None |} ].

(** One identifier among missing cells. *)
Definition cells_single : list cell := [None; Some (str "X"); None].

(** The two identifiers of the specification's scenario. *)
Definition cells_pair : list cell :=
  [Some (str "AB123456"); Some (str "AB123457")].

(** *** Task 2 and the ranges of the workers *)

(** The loop of [process_common_vtrac]; a consensus is entered when it is
    true as a condition, that is when it is not the empty text. *)
Fixpoint common_loop (df : dataframe) (idxs : list nat)
    (results : dict nat pystr) : dict nat pystr :=
  match idxs with
  | [] => results
  | idx :: rest =>
      match nth_error df idx with
      | None => results
      | Some r =>
          let vtrac_values := vtrac_cols r in
          let results :=
            match find_common_vtrac vtrac_values with
            | Some common_vtrac =>
                if negb (pystr_eqb common_vtrac [])
                then dict_set Nat.eqb idx common_vtrac results
                else results
            | None => results
            end in
          common_loop df rest results
      end
  end.

(** [process_common_vtrac(start_idx, end_idx)] *)
Definition process_common_vtrac (df : dataframe) (start_idx end_idx : nat)
  : dict nat pystr :=
  common_loop df (seq start_idx (end_idx - start_idx)) [].

(** [apply_common_vtrac(common_vtracs)]; as for [apply_vtrac_matches],
    the indices come from a search over the table, and an entry for an
    index outside the table, for which pandas would add a line, is passed
    over. *)
Definition apply_common_vtrac (df : dataframe) (common_vtracs : dict nat pystr)
  : dataframe :=
  fold_left
    (fun df kv =>
       let '(idx, common_vtrac) := kv in
       match nth_error df idx with
       | Some r =>
           set_at idx
             {| articul_cols := articul_cols r;
                vtrac_cols := vtrac_cols r;
                new_column := Some common_vtrac |} df
       | None => df
       end)
    common_vtracs df.

(** [CONFIG[WORKERS]] *)
Definition WORKERS : nat := 10.

(** [range(0, stop, step)] for a positive step: the multiples of the step
    below [stop]. *)
Definition range_step (stop step : nat) : list nat :=
  map (fun k => k * step) (seq 0 ((stop + step - 1) / step)).

(** The ranges submitted by [run_parallel_processing] for a table of [n]
    lines. *)
Definition chunk_ranges (n : nat) : list (nat * nat) :=
  let chunk_size := Nat.max 1 (n / WORKERS) in
  map (fun i => (i, Nat.min (i + chunk_size) n)) (range_step n chunk_size).

(** Task 2 of [process] when the ranges are worked off one after the
    other. *)
Definition task2 (ranges : list (nat * nat)) (df : dataframe) : dataframe :=
  fold_left
    (fun df se =>
       apply_common_vtrac df (process_common_vtrac df (fst se) (snd se)))
    ranges df.

(** [process], between loading and saving, with the ranges of each task
    worked off in the order of their submission. *)
Definition process {order : SetOrder} (df : dataframe) : dataframe :=
  let mapping := prepare_articul_mapping df in
  let df := task1 mapping (chunk_ranges (length df)) df in
  task2 (chunk_ranges (length df)) df.

(** The identifiers found for a line in [process_vtrac_matching], as a
    set. *)
Definition found_vtracs_of (mapping : dict pystr pyset) (r : row) : pyset :=
  fold_left
    (fun found art =>
       match dict_get pystr_eqb art mapping with
       | Some vs => set_update vs found
       | None => found
       end)
    (set_update (present (articul_cols r)) []) [].

(** What [process_vtrac_matching] enters for the line of index [idx]:
    nothing when the line has an identifier or nothing is found, else the
    list of what is found. *)
Definition row_entry {order : SetOrder} (mapping : dict pystr pyset)
    (idx : nat) (r : row) : option (list pystr) :=
  if any_notna (vtrac_cols r) then None
  else match found_vtracs_of mapping r with
       | [] => None
       | vs => Some (list_of_set idx vs)
       end.

(** What [apply_vtrac_matches] makes of a line with the entry [vtracs]. *)
Definition fill_row (vtracs : list pystr) (r : row) : row :=
  {| articul_cols := articul_cols r;
     vtrac_cols := write_vtracs 0 (firstn N_VTRAC_COLS vtracs) (vtrac_cols r);
     new_column := new_column r |}.

(** Task 1 on the line of index [idx]. *)
Definition row_update {order : SetOrder} (mapping : dict pystr pyset)
    (idx : nat) (r : row) : row :=
  match row_entry mapping idx r with
  | Some vtracs => fill_row vtracs r
  | None => r
  end.

(** A list with the indices of its members, [enumerate(l)]. *)
Definition indexed {A : Type} (l : list A) : list (nat * A) :=
  combine (seq 0 (length l)) l.

(** The number of cells that are not missing, in the words of the
    specification: the identifiers present in a list of cells. *)
Fixpoint count_present (cells : list cell) : nat :=
  match cells with
  | [] => 0
  | None :: cells' => count_present cells'
  | Some _ :: cells' => S (count_present cells')
  end.

(** A table of three lines sharing the part number AB-1: two of them have
    an identifier, the third has none yet. *)
Definition df_shared : dataframe :=
  [ {| articul_cols := [Some (str "AB-1"); None; None; None; None];
       vtrac_cols := [Some (str "V1"); None; None; None; None];
       new_column := None |};
    {| articul_cols := [Some (str "AB-1"); None; None; None; None];
       vtrac_cols := [Some (str "V2"); None; None; None; None];
       new_column := None |};
    {| articul_cols := [Some (str "AB-1"); None; None; None; None];
       vtrac_cols := [None; None; None; None; None];
       new_column := None |} ].

(** What [process_common_vtrac] enters for a line. *)
Definition common_entry (r : row) : option pystr :=
  match find_common_vtrac (vtrac_cols r) with
  | Some common_vtrac =>
      if negb (pystr_eqb common_vtrac []) then Some common_vtrac else None
  | None => None
  end.

(** Task 2 on one line. *)
Definition common_update (r : row) : row :=
  match common_entry r with
  | Some common_vtrac =>
      {| articul_cols := articul_cols r;
         vtrac_cols := vtrac_cols r;
         new_column := Some common_vtrac |}
  | None => r
  end.

(** The index lies in the range, respectively in one of the ranges. *)
Definition in_range (se : nat * nat) (idx : nat) : bool :=
  (fst se <=? idx) && (idx <? snd se).

Definition covered (ranges : list (nat * nat)) (idx : nat) : bool :=
  existsb (fun se => in_range se idx) ranges.

(** The identifiers held for a part number, none when it is unknown. *)
Definition mapped (mapping : dict pystr pyset) (art : pystr) : pyset :=
  match dict_get pystr_eqb art mapping with
  | Some vs => vs
  | None => []
  end.

End End4.

(** ** [sort_artic_2.py]: the added columns *)

Module SortMain.
Import Py SortArtic.

(** [enumerate(l)] *)
Definition enumerate {A : Type} (l : list A) : list (nat * A) :=
  combine (seq 0 (length l)) l.

(** [max(len(arts) for arts in results) if results else 0] *)
Definition max_articuls (results : list (list pystr)) : nat :=
  match results with
  | [] => 0
  | arts :: rest =>
      fold_left (fun m arts => Nat.max m (length arts)) rest (length arts)
  end.

(** [df.at[idx, column] = art] on the added columns, the table taken line
    by line and the columns by their position; the loops of [main] only
    write to lines and columns that exist. *)
Definition set_cell (idx i : nat) (art : pystr) (df : list (list pystr))
  : list (list pystr) :=
  match nth_error df idx with
  | Some line => End4.set_at idx (End4.set_at i art line) df
  | None => df
  end.

(** The columns that [main] adds, for the results of the lines: each
    column is created holding the empty text, then every result is
    written to the cells of its line. *)
Definition added_columns (results : list (list pystr))
  : list (list pystr) :=
  let max_articuls := max_articuls results in
  let df := map (fun _ => repeat ([] : pystr) max_articuls) results in
  fold_left
    (fun df ia =>
       let '(idx, arts) := ia in
       fold_left
         (fun df ja => let '(i, art) := ja in set_cell idx i art df)
         (enumerate arts) df)
    (enumerate results) df.

(** [main], from the records read to the added columns of the table
    written; [executor.map] gives the results in the order of the
    records. *)
Definition main `{CaseMap} (rows : list row) : list (list pystr) :=
  added_columns (map process_row rows).

(** The cells of a line that are not empty. *)
Definition filled (line : list pystr) : list pystr :=
  filter (fun c => negb (pystr_eqb c [])) line.

(** The inner loop of [main] on the cells of one line, the columns
    counted from [k]. *)
Definition write_cells (k : nat) (arts : list pystr) (line : list pystr)
  : list pystr :=
  fold_left (fun line ja => End4.set_at (fst ja) (snd ja) line)
    (combine (seq k (length arts)) arts) line.

End SortMain.

(** * Properties *)

Unset Implicit Arguments.

(** ** The case table of CPython on the scripts' alphabets *)

Module CPython.

Ltac bool_hyps :=
  repeat match goal with
    | H : (_ && _) = true |- _ => apply andb_true_iff in H; destruct H
    | H : (_ && _) = false |- _ => apply andb_false_iff in H
    | H : (_ || _) = true |- _ => apply orb_true_iff in H
    | H : (_ || _) = false |- _ => apply orb_false_iff in H; destruct H
    | H : negb _ = true |- _ => apply negb_true_iff in H
    | H : negb _ = false |- _ => apply negb_false_iff in H
    | H : (_ <=? _)%N = true |- _ => apply N.leb_le in H
    | H : (_ <=? _)%N = false |- _ => apply N.leb_gt in H
    | H : (_ =? _)%N = true |- _ => apply N.eqb_eq in H
    | H : (_ =? _)%N = false |- _ => apply N.eqb_neq in H
    | H : _ \/ _ |- _ => destruct H
    | H : _ /\ _ |- _ => destruct H
    end.

Ltac split_ifs :=
  repeat match goal with
    | |- context [if ?b then _ else _] =>
        let E := fresh "E" in destruct b eqn:E
    | H : context [if ?b then _ else _] |- _ =>
        let E := fresh "E" in destruct b eqn:E
    end.

Lemma cpython_upper_char_fixed c d :
  In d (cpython_upper_char c) -> cpython_upper_char d = [d].
Proof.
  unfold cpython_upper_char at 1.
  intros Hin.
  assert (Hd : ((d < 97 \/ 122 < d)
               /\ d <> 0xB5 /\ d <> 0xDF /\ (d < 0xE0 \/ 0xFE < d \/ d = 0xF7)
               /\ d <> 0xFF /\ (d < 0x430 \/ 0x45F < d)
               /\ d <> 0x1C84 /\ d <> 0x1C85)%N).
  { split_ifs; simpl in Hin; bool_hyps; try contradiction; lia. }
  clear Hin. unfold cpython_upper_char.
  split_ifs; try reflexivity; bool_hyps; exfalso; lia.
Qed.

Lemma cpython_upper_char_ascii c :
  (c < 128)%N -> ((c < 97) \/ (122 < c))%N -> cpython_upper_char c = [c].
Proof.
  intros H1 H2. unfold cpython_upper_char.
  split_ifs; try reflexivity; bool_hyps; exfalso; lia.
Qed.

Lemma cpython_upper_char_space c :
  is_space c = true -> cpython_upper_char c = [c].
Proof.
  unfold is_space, cpython_upper_char. intros H.
  split_ifs; try reflexivity; bool_hyps; exfalso; lia.
Qed.

Lemma cpython_upper_char_nonempty c : cpython_upper_char c <> [].
Proof.
  unfold cpython_upper_char. split_ifs; discriminate.
Qed.

Lemma cpython_upper_char_fresh c d :
  In d (cpython_upper_char c) -> d <> c ->
  is_space d = false /\ ((65 <= d <= 90) \/ (128 <= d))%N.
Proof.
  unfold cpython_upper_char. intros Hin Hne.
  assert (Hd : ((65 <= d <= 90) \/ (0x39C = d) \/ (0xC0 <= d <= 0xDE)
                \/ 0x178 = d \/ (0x400 <= d <= 0x42F))%N).
  { split_ifs; simpl in Hin; bool_hyps; try contradiction; lia. }
  clear Hin. split; [|lia].
  unfold is_space.
  repeat match goal with
    | |- (_ || _) = false => apply orb_false_iff; split
    | |- (_ && _) = false => apply andb_false_iff
    end;
    rewrite ?N.eqb_neq, ?N.leb_gt; lia.
Qed.

#[export] Instance cpython_case : CaseMap := {|
  upper_char := cpython_upper_char;
  upper_char_fixed := cpython_upper_char_fixed;
  upper_char_ascii := cpython_upper_char_ascii;
  upper_char_space := cpython_upper_char_space;
  upper_char_nonempty := cpython_upper_char_nonempty;
  upper_char_fresh := cpython_upper_char_fresh
|}.

End CPython.

(** ** Facts about the string operations *)

Module PyFacts.

Lemma pystr_eqb_eq (a b : pystr) : pystr_eqb a b = true <-> a = b.
Proof.
  unfold pystr_eqb. destruct (pystr_eq_dec a b); split; congruence.
Qed.

Lemma pystr_eqb_neq (a b : pystr) : pystr_eqb a b = false <-> a <> b.
Proof.
  unfold pystr_eqb. destruct (pystr_eq_dec a b); split; congruence.
Qed.

Lemma pystr_eqb_refl (a : pystr) : pystr_eqb a a = true.
Proof. now apply pystr_eqb_eq. Qed.

Lemma pystr_eqb_nil (a : pystr) :
  pystr_eqb a [] = match a with [] => true | _ => false end.
Proof.
  destruct a; [apply pystr_eqb_refl | now apply pystr_eqb_neq].
Qed.

Lemma set_mem_In (x : pystr) (s : pyset) : set_mem x s = true <-> In x s.
Proof.
  unfold set_mem. rewrite existsb_exists. split.
  - intros (y & Hy & E). apply pystr_eqb_eq in E. now subst.
  - intros Hx. exists x. split; [assumption | apply pystr_eqb_refl].
Qed.

Lemma set_add_In (x y : pystr) (s : pyset) :
  In y (set_add x s) <-> y = x \/ In y s.
Proof.
  unfold set_add. destruct (set_mem x s) eqn:E.
  - apply set_mem_In in E. split; [auto | intros [-> | ?]; assumption].
  - rewrite in_app_iff. simpl. intuition congruence.
Qed.

(** *** Stripping *)

Lemma lstrip_by_head p s c r : lstrip_by p s = c :: r -> p c = false.
Proof.
  induction s as [|a s IH]; simpl; [discriminate|].
  destruct (p a) eqn:E; [assumption|]. now intros [= <- <-].
Qed.

Lemma lstrip_by_fixed p c r : p c = false -> lstrip_by p (c :: r) = c :: r.
Proof. intros E. simpl. now rewrite E. Qed.

Lemma lstrip_by_idem p s : lstrip_by p (lstrip_by p s) = lstrip_by p s.
Proof.
  destruct (lstrip_by p s) as [|c r] eqn:E; [reflexivity|].
  apply lstrip_by_fixed. eapply lstrip_by_head; eassumption.
Qed.

Lemma lstrip_by_suffix p s : exists pre, s = pre ++ lstrip_by p s
                                         /\ forallb p pre = true.
Proof.
  induction s as [|a s (pre & E & F)]; simpl.
  - now exists [].
  - destruct (p a) eqn:Ea.
    + exists (a :: pre). simpl. rewrite Ea, F. now rewrite <- E.
    + now exists [].
Qed.

(** The result of [rstrip_by] is empty or ends with a character outside
    the class. *)
Lemma rstrip_by_last p s :
  rstrip_by p s = [] \/
  exists r c, rstrip_by p s = r ++ [c] /\ p c = false.
Proof.
  unfold rstrip_by. destruct (lstrip_by p (rev s)) as [|c r] eqn:E.
  - now left.
  - right. exists (rev r), c. split; [reflexivity|].
    eapply lstrip_by_head; eassumption.
Qed.

Lemma rstrip_by_fixed p r c : p c = false -> rstrip_by p (r ++ [c]) = r ++ [c].
Proof.
  intros E. unfold rstrip_by. rewrite rev_app_distr. simpl.
  rewrite E. simpl. now rewrite rev_involutive.
Qed.

Lemma rstrip_by_nil p : rstrip_by p [] = [].
Proof. reflexivity. Qed.

Lemma rstrip_by_idem p s : rstrip_by p (rstrip_by p s) = rstrip_by p s.
Proof.
  destruct (rstrip_by_last p s) as [E | (r & c & E & F)]; rewrite E.
  - reflexivity.
  - now apply rstrip_by_fixed.
Qed.

Lemma rstrip_by_prefix p s : exists suf, s = rstrip_by p s ++ suf
                                         /\ forallb p suf = true.
Proof.
  unfold rstrip_by.
  destruct (lstrip_by_suffix p (rev s)) as (pre & E & F).
  exists (rev pre). split.
  - rewrite <- rev_app_distr, <- E. now rewrite rev_involutive.
  - rewrite forallb_forall in *. intros x Hx. apply F. now apply in_rev.
Qed.

(** A stripped text neither starts nor ends with white space. *)
Definition trimmed (s : pystr) : Prop := strip s = s.

Lemma rstrip_by_keeps_head p a t c r :
  rstrip_by p (a :: t) = c :: r -> c = a.
Proof.
  intros E. destruct (rstrip_by_prefix p (a :: t)) as (suf & E1 & _).
  rewrite E in E1. simpl in E1. now injection E1 as -> _.
Qed.

Lemma strip_head s c r : strip s = c :: r -> is_space c = false.
Proof.
  unfold strip. intros E.
  destruct (lstrip_by is_space s) as [|a t] eqn:El.
  - discriminate.
  - apply rstrip_by_keeps_head in E. subst c.
    eapply lstrip_by_head; eassumption.
Qed.

Lemma strip_idem s : strip (strip s) = strip s.
Proof.
  destruct (strip s) as [|c r] eqn:E; [reflexivity|].
  unfold strip. rewrite lstrip_by_fixed by (eapply strip_head; eassumption).
  rewrite <- E. unfold strip. apply rstrip_by_idem.
Qed.

Lemma strip_trimmed s : trimmed (strip s).
Proof. apply strip_idem. Qed.

End PyFacts.

(** ** Dictionaries *)

Module DictFacts.

Section WithKey.
Variables K V : Type.
Variable keq : K -> K -> bool.
Hypothesis keq_spec : forall a b, keq a b = true <-> a = b.

Lemma keq_refl k : keq k k = true.
Proof. now apply keq_spec. Qed.

Lemma keq_neq a b : a <> b -> keq a b = false.
Proof.
  intros Hne. destruct (keq a b) eqn:E; [|reflexivity].
  apply keq_spec in E. contradiction.
Qed.

Lemma dict_get_set_same k v (d : dict K V) :
  dict_get keq k (dict_set keq k v d) = Some v.
Proof.
  induction d as [|(k', v') d IH]; simpl.
  - now rewrite keq_refl.
  - destruct (keq k k') eqn:E; simpl; rewrite E; [reflexivity | exact IH].
Qed.

Lemma dict_get_set_other k k' v (d : dict K V) :
  k' <> k -> dict_get keq k' (dict_set keq k v d) = dict_get keq k' d.
Proof.
  intros Hne. induction d as [|(k0, v0) d IH]; simpl.
  - now rewrite keq_neq.
  - destruct (keq k k0) eqn:E; simpl.
    + apply keq_spec in E. subst k0. now rewrite keq_neq.
    + destruct (keq k' k0); [reflexivity | exact IH].
Qed.

Lemma dict_get_In k v (d : dict K V) :
  dict_get keq k d = Some v -> In (k, v) d.
Proof.
  induction d as [|(k0, v0) d IH]; simpl; [discriminate|].
  destruct (keq k k0) eqn:E.
  - apply keq_spec in E. subst k0. intros [= ->]. now left.
  - intros H. right. now apply IH.
Qed.

Lemma dict_get_None k (d : dict K V) :
  dict_get keq k d = None -> forall v, ~ In (k, v) d.
Proof.
  induction d as [|(k0, v0) d IH]; simpl; [tauto|].
  destruct (keq k k0) eqn:E; [discriminate|].
  intros H v [[= -> ->] | Hin].
  - rewrite keq_refl in E. discriminate.
  - now apply (IH H v).
Qed.

Lemma In_dict_set k v k' v' (d : dict K V) :
  In (k', v') (dict_set keq k v d) ->
  (k' = k /\ v' = v) \/ In (k', v') d.
Proof.
  induction d as [|(k0, v0) d IH]; simpl.
  - intros [[= -> ->] | []]. now left.
  - destruct (keq k k0) eqn:E; simpl.
    + apply keq_spec in E. subst k0.
      intros [[= -> ->] | Hin]; [now left | right; now right].
    + intros [Heq | Hin]; [right; now left|].
      apply IH in Hin as [? | ?]; [now left | right; now right].
Qed.

Lemma dict_set_keys k v (d : dict K V) :
  NoDup (map fst d) -> NoDup (map fst (dict_set keq k v d)).
Proof.
  induction d as [|(k0, v0) d IH]; simpl; intros Hnd.
  - constructor; [tauto | constructor].
  - inversion Hnd as [|? ? Hnot Hnd']; subst.
    destruct (keq k k0) eqn:E; simpl.
    + now constructor.
    + constructor; [|now apply IH].
      intros Hin. apply in_map_iff in Hin as ((k1, v1) & Hk & Hin).
      simpl in Hk. subst k1.
      apply In_dict_set in Hin as [(-> & _) | Hin].
      * rewrite keq_refl in E. discriminate.
      * apply Hnot. apply in_map_iff. now exists (k0, v1).
Qed.

Lemma In_dict_get k v (d : dict K V) :
  NoDup (map fst d) -> In (k, v) d -> dict_get keq k d = Some v.
Proof.
  induction d as [|(k0, v0) d IH]; simpl; [tauto|].
  intros Hnd [[= -> ->] | Hin].
  - now rewrite keq_refl.
  - inversion Hnd as [|? ? Hnot Hnd']; subst.
    rewrite keq_neq; [now apply IH|].
    intros ->. apply Hnot. apply in_map_iff. now exists (k0, v).
Qed.
End WithKey.

End DictFacts.

(** ** The normaliser of [sort_artic_2.py] *)

Module SortArticSpec.
Import PyFacts SortArtic.

Section Upper.
Context `{CM : CaseMap}.

Lemma upper_app a b : upper (a ++ b) = upper a ++ upper b.
Proof. unfold upper. apply flat_map_app. Qed.

Lemma in_upper d s :
  In d (upper s) <-> exists c, In c s /\ In d (upper_char c).
Proof. unfold upper. apply in_flat_map. Qed.

Lemma upper_fixed_list l :
  (forall d, In d l -> upper_char d = [d]) -> upper l = l.
Proof.
  induction l as [|a l IH]; intros F; [reflexivity|].
  unfold upper in *. simpl. rewrite (F a) by now left.
  simpl. f_equal. apply IH. intros d Hd. apply F. now right.
Qed.

Lemma upper_idem s : upper (upper s) = upper s.
Proof.
  apply upper_fixed_list. intros d Hd.
  apply in_upper in Hd as (c & _ & Hd).
  eapply upper_char_fixed; eassumption.
Qed.

Lemma is_trail_cases c :
  is_trail c = true <-> c = DASH \/ c = SLASH \/ is_space c = true.
Proof.
  unfold is_trail. rewrite !orb_true_iff, !N.eqb_eq. tauto.
Qed.

Lemma upper_char_keeps_trail c d :
  In d (upper_char c) -> is_trail c = false -> is_trail d = false.
Proof.
  intros Hd Hc. destruct (N.eq_dec d c) as [-> | Hne]; [assumption|].
  destruct (upper_char_fresh Hd Hne) as (Hs & Hr).
  destruct (is_trail d) eqn:E; [|reflexivity].
  apply is_trail_cases in E. unfold DASH, SLASH in E.
  destruct E as [-> | [-> | E]]; [lia | lia | congruence].
Qed.

Lemma upper_char_keeps_nonspace c d :
  In d (upper_char c) -> c <> SPACE -> d <> SPACE.
Proof.
  intros Hd Hc. destruct (N.eq_dec d c) as [-> | Hne]; [assumption|].
  destruct (upper_char_fresh Hd Hne) as (Hs & _).
  intros ->. discriminate Hs.
Qed.
End Upper.

Lemma replace_app a b x y : replace a b (x ++ y) = replace a b x ++ replace a b y.
Proof. unfold replace. apply flat_map_app. Qed.

Lemma in_replace_nil a c s : In c (replace a [] s) <-> In c s /\ c <> a.
Proof.
  unfold replace. rewrite in_flat_map. split.
  - intros (d & Hd & Hc). destruct (N.eqb_spec d a); simpl in Hc;
      [contradiction|]. destruct Hc as [<- | []]. now split.
  - intros (Hc & Hne). exists c. split; [assumption|].
    destruct (N.eqb_spec c a); [contradiction | now left].
Qed.

Lemma replace_absent a b s : ~ In a s -> replace a b s = s.
Proof.
  induction s as [|c s IH]; intros Hn; [reflexivity|].
  unfold replace in *. simpl.
  destruct (N.eqb_spec c a) as [-> | Hne].
  - exfalso. apply Hn. now left.
  - simpl. f_equal. apply IH. intros Hin. apply Hn. now right.
Qed.

Lemma contains_In c s : contains c s = true <-> In c s.
Proof.
  unfold contains. rewrite existsb_exists. split.
  - intros (d & Hd & E). apply N.eqb_eq in E. now subst.
  - intros H. exists c. split; [assumption | apply N.eqb_refl].
Qed.

Lemma clean_art_nil `{CaseMap} : clean_art [] = [].
Proof. reflexivity. Qed.

(** A normalised text holds no space and is empty or ends outside the
    class of [clean_art]. *)
Lemma clean_art_shape `{CaseMap} s :
  ~ In SPACE (clean_art s) /\
  (clean_art s = [] \/
   exists r d, clean_art s = r ++ [d] /\ is_trail d = false).
Proof.
  unfold clean_art, re_sub_trailing. split.
  - intros Hin. apply in_upper in Hin as (c & Hc & Hd).
    apply in_replace_nil in Hc as (_ & Hc).
    now apply (upper_char_keeps_nonspace _ _ Hd Hc).
  - destruct (rstrip_by_last is_trail s) as [-> | (r & c & -> & Hc)].
    + now left.
    + right. rewrite replace_app, upper_app.
      assert (Hsp : c <> SPACE) by (intros ->; discriminate Hc).
      assert (E : replace SPACE [] [c] = [c]).
      { apply replace_absent. intros [Hx | []]. congruence. }
      rewrite E. unfold upper at 2. simpl. rewrite app_nil_r.
      destruct (exists_last (@upper_char_nonempty _ c)) as (w & d & Ew).
      rewrite Ew. exists (upper (replace SPACE [] r) ++ w), d.
      split; [now rewrite app_assoc|].
      apply (upper_char_keeps_trail c); [|assumption].
      rewrite Ew. apply in_or_app. right. now left.
Qed.

Lemma clean_art_upper_fixed `{CaseMap} s : upper (clean_art s) = clean_art s.
Proof. unfold clean_art. apply upper_idem. Qed.

(** C9.  For every string [s], normalising twice gives the same text as
    normalising once: [clean_art (clean_art s) = clean_art s], whatever
    the case table of the interpreter. *)
Theorem clean_art_idempotent `{CaseMap} (s : pystr) :
  clean_art (clean_art s) = clean_art s.
Proof.
  destruct (clean_art_shape s) as (Hsp & Hlast).
  assert (E1 : re_sub_trailing (clean_art s) = clean_art s).
  { unfold re_sub_trailing.
    destruct Hlast as [-> | (r & d & -> & Hd)];
      [reflexivity | now apply rstrip_by_fixed]. }
  unfold clean_art at 1. rewrite E1.
  rewrite (replace_absent _ _ _ Hsp).
  apply clean_art_upper_fixed.
Qed.

(** *** Validity *)

(** C4, as the code has it.  [is_valid_art s] holds exactly when [s] has
    at least four characters and none of them is the space character
    U+0020; other white space is not looked at. *)
Theorem is_valid_art_iff (s : pystr) :
  is_valid_art s = true <-> 4 <= length s /\ ~ In SPACE s.
Proof.
  unfold is_valid_art.
  rewrite andb_true_iff, negb_true_iff, Nat.leb_le.
  rewrite <- contains_In. destruct (contains SPACE s); intuition congruence.
Qed.

(** C4 as stated fails: a text with a tabulation in it is accepted. *)
Lemma is_valid_art_accepts_tab :
  is_valid_art (str "AB" ++ [9%N] ++ str "CD") = true
  /\ is_space 9%N = true
  /\ ~ (forall s, is_valid_art s = true <->
                  4 <= length s /\ forall c, In c s -> is_space c = false).
Proof.
  split; [reflexivity|]. split; [reflexivity|].
  intros H. destruct (H (str "AB" ++ [9%N] ++ str "CD")) as (H1 & _).
  destruct (H1 eq_refl) as (_ & H2).
  specialize (H2 9%N). simpl in H2.
  assert (F : is_space 9%N = false) by (apply H2; tauto).
  discriminate F.
Qed.

(** *** Scanning for the marker *)

Lemma takewhile_all p x : forallb p x = true -> takewhile p x = x.
Proof.
  induction x as [|c x IH]; simpl; [reflexivity|].
  rewrite andb_true_iff. intros (-> & Hx). now rewrite IH.
Qed.

Lemma takewhile_app_stop p x tail :
  semi_or_end tail -> p SEMI = false ->
  takewhile p (x ++ tail) = takewhile p x.
Proof.
  intros Ht Hp. induction x as [|c x IH]; simpl.
  - destruct Ht as [-> | (t & ->)]; [reflexivity|]. simpl. now rewrite Hp.
  - now rewrite IH.
Qed.

Lemma lstrip_by_app_stop p x tail :
  semi_or_end tail -> p SEMI = false ->
  lstrip_by p (x ++ tail) = lstrip_by p x ++ tail.
Proof.
  intros Ht Hp. induction x as [|c x IH]; simpl.
  - destruct Ht as [-> | (t & ->)]; [reflexivity|]. simpl. now rewrite Hp.
  - now destruct (p c).
Qed.

Lemma skipn_takewhile p x : skipn (length (takewhile p x)) x = lstrip_by p x.
Proof.
  induction x as [|c x IH]; simpl; [reflexivity|].
  destruct (p c); simpl; [exact IH | reflexivity].
Qed.

Lemma length_takewhile_lstrip p x :
  length (takewhile p x) + length (lstrip_by p x) = length x.
Proof.
  induction x as [|c x IH]; simpl; [reflexivity|].
  destruct (p c); simpl; lia.
Qed.

Lemma lstrip_by_In p x c : In c (lstrip_by p x) -> In c x.
Proof.
  induction x as [|d x IH]; simpl; [tauto|].
  destruct (p d); simpl; tauto.
Qed.

Lemma drop_dot_In x c : In c (drop_dot x) -> In c x.
Proof.
  destruct x as [|d x]; simpl; [tauto|].
  destruct (d =? DOT)%N; simpl; tauto.
Qed.

Lemma drop_dot_app_stop x tail :
  semi_or_end tail -> drop_dot (x ++ tail) = drop_dot x ++ tail.
Proof.
  intros Ht. destruct x as [|c x]; simpl.
  - destruct Ht as [-> | (t & ->)]; reflexivity.
  - now destruct (c =? DOT)%N.
Qed.

Lemma length_drop_dot x : length (drop_dot x) <= length x.
Proof.
  destruct x as [|c x]; simpl; [lia|]. destruct (c =? DOT)%N; simpl; lia.
Qed.

(** [art_match] read off the pattern, part by part. *)
Lemma art_match_unfold s :
  art_match s =
  if marker_at s then
    let rest := skipn 3 s in
    let group := takewhile is_art_group_char (after_marker_gap rest) in
    Some (group,
          3 + (length rest - length (drop_dot rest))
          + length (takewhile is_space (drop_dot rest)) + length group)
  else None.
Proof.
  destruct s as [|a [|r [|t rest]]]; try reflexivity.
  unfold art_match, marker_at, after_marker_gap.
  destruct (is_marker_a a && is_marker_r r && is_marker_t t);
    [|reflexivity].
  simpl skipn. destruct rest as [|c rest]; [reflexivity|].
  unfold drop_dot. destruct (c =? DOT)%N.
  - rewrite skipn_takewhile. simpl length.
    replace (S (length rest) - length rest) with 1 by lia. reflexivity.
  - rewrite skipn_takewhile.
    replace (length (c :: rest) - length (c :: rest)) with 0 by lia.
    reflexivity.
Qed.

Lemma marker_at_app_stop piece tail :
  semi_or_end tail -> marker_at (piece ++ tail) = marker_at piece.
Proof.
  intros Ht. destruct piece as [|a [|r [|t rest]]]; simpl; try reflexivity;
    destruct Ht as [-> | (u & ->)]; simpl; try reflexivity.
  - now destruct u as [|? [|? ?]].
  - destruct u; [reflexivity|]. now rewrite andb_false_r.
  - now rewrite andb_false_r.
Qed.

Lemma marker_at_length s : marker_at s = true -> 3 <= length s.
Proof.
  destruct s as [|a [|r [|t rest]]]; simpl; try discriminate. lia.
Qed.

(** Within a piece that is free of semicolons and dollar signs, a match
    at the start of the piece takes the whole piece, and its group is the
    text behind the marker, the full stop and the white space. *)
Lemma art_match_piece piece tail :
  forallb is_art_group_char piece = true ->
  semi_or_end tail ->
  marker_at piece = true ->
  art_match (piece ++ tail)
  = Some (after_marker_gap (skipn 3 piece), length piece).
Proof.
  intros Hfree Ht Hm. rewrite art_match_unfold.
  rewrite (marker_at_app_stop _ _ Ht), Hm.
  pose proof (marker_at_length _ Hm) as Hlen.
  assert (Es : skipn 3 (piece ++ tail) = skipn 3 piece ++ tail).
  { rewrite skipn_app. replace (3 - length piece) with 0 by lia.
    reflexivity. }
  cbv zeta. rewrite Es. unfold after_marker_gap.
  rewrite (drop_dot_app_stop _ _ Ht).
  rewrite (lstrip_by_app_stop is_space _ _ Ht eq_refl).
  rewrite (takewhile_app_stop is_space _ _ Ht eq_refl).
  rewrite (takewhile_app_stop is_art_group_char _ _ Ht eq_refl).
  set (rest := skipn 3 piece) in *.
  assert (Hall : forallb is_art_group_char
                   (lstrip_by is_space (drop_dot rest)) = true).
  { apply forallb_forall. intros c Hc.
    rewrite forallb_forall in Hfree. apply Hfree.
    apply lstrip_by_In, drop_dot_In in Hc.
    unfold rest in Hc.
    rewrite <- (firstn_skipn 3 piece). apply in_or_app. now right. }
  rewrite (takewhile_all _ _ Hall). f_equal. f_equal.
  rewrite !length_app.
  pose proof (length_takewhile_lstrip is_space (drop_dot rest)).
  pose proof (length_drop_dot rest).
  assert (length rest = length piece - 3) by (unfold rest; apply length_skipn).
  lia.
Qed.

(** Behind a match the scan resumes at the end of the match. *)
Lemma findall_from_skip tm x tail :
  findall_from tm (length x) (x ++ tail) = findall_from tm 0 tail.
Proof.
  induction x as [|c x IH]; simpl; [|exact IH].
  destruct tail; reflexivity.
Qed.

Lemma after_first_marker_cons c piece :
  after_first_marker (c :: piece) =
  if marker_at (c :: piece) then Some (skipn 3 (c :: piece))
  else after_first_marker piece.
Proof. reflexivity. Qed.

(** The scan of a piece finds the first marker of the piece and goes on
    behind the piece. *)
Lemma findall_piece piece tail :
  forallb is_art_group_char piece = true ->
  semi_or_end tail ->
  findall_from art_match 0 (piece ++ tail)
  = piece_group piece ++ findall_from art_match 0 (tl tail).
Proof.
  intros Hfree Ht. induction piece as [|c piece IH].
  - simpl. destruct Ht as [-> | (t & ->)]; [reflexivity|].
    change (findall_from art_match 0 (SEMI :: t))
      with (match art_match (SEMI :: t) with
            | Some (g, n) => g :: findall_from art_match (n - 1) t
            | None => findall_from art_match 0 t
            end).
    rewrite art_match_unfold.
    replace (marker_at (SEMI :: t)) with false; [reflexivity|].
    now destruct t as [|? [|? ?]].
  - change (findall_from art_match 0 ((c :: piece) ++ tail))
      with (match art_match ((c :: piece) ++ tail) with
            | Some (g, n) =>
                g :: findall_from art_match (n - 1) (piece ++ tail)
            | None => findall_from art_match 0 (piece ++ tail)
            end).
    unfold piece_group. rewrite after_first_marker_cons.
    destruct (marker_at (c :: piece)) eqn:Em.
    + rewrite (art_match_piece _ _ Hfree Ht Em).
      replace (length (c :: piece) - 1) with (length piece)
        by (simpl; lia).
      rewrite findall_from_skip.
      destruct Ht as [-> | (t & ->)]; [reflexivity|].
      simpl tl. simpl app. f_equal.
      change (findall_from art_match 0 (SEMI :: t))
        with (match art_match (SEMI :: t) with
              | Some (g, n) => g :: findall_from art_match (n - 1) t
              | None => findall_from art_match 0 t
              end).
      rewrite art_match_unfold.
      replace (marker_at (SEMI :: t)) with false; [reflexivity|].
      now destruct t as [|? [|? ?]].
    + rewrite art_match_unfold, (marker_at_app_stop _ _ Ht), Em.
      simpl in Hfree. apply andb_true_iff in Hfree as (_ & Hfree).
      apply (IH Hfree).
Qed.

(** *** Pieces between semicolons *)

Lemma split_by_nonempty p s : split_by p s <> [].
Proof.
  destruct s as [|c s]; simpl; [discriminate|].
  destruct (p c); [discriminate|]. destruct (split_by p s); discriminate.
Qed.

Lemma join_cons2 sep q q' qs :
  join sep (q :: q' :: qs) = q ++ sep ++ join sep (q' :: qs).
Proof. reflexivity. Qed.

Lemma split_by_cons p c s :
  split_by p (c :: s) =
  if p c then [] :: split_by p s
  else match split_by p s with
       | [] => [[c]]
       | q :: qs => (c :: q) :: qs
       end.
Proof. reflexivity. Qed.

Lemma split_join sep s : join [sep] (split sep s) = s.
Proof.
  unfold split. induction s as [|c s IH]; [reflexivity|].
  rewrite split_by_cons.
  pose proof (split_by_nonempty (fun d => (d =? sep)%N) s) as Hne.
  destruct (split_by (fun d => (d =? sep)%N) s) as [|q qs] eqn:E;
    [congruence|].
  destruct (N.eqb_spec c sep) as [-> | Hc].
  - rewrite join_cons2, IH. reflexivity.
  - destruct qs as [|q' qs].
    + simpl in *. now rewrite IH.
    + rewrite join_cons2. rewrite join_cons2 in IH.
      rewrite <- IH. reflexivity.
Qed.

Lemma split_by_pieces p s : forall q,
  In q (split_by p s) -> forall c, In c q -> p c = false /\ In c s.
Proof.
  induction s as [|a s IH]; intros q Hq c Hc; simpl in Hq.
  - destruct Hq as [<- | []]. destruct Hc.
  - destruct (p a) eqn:Ea.
    + destruct Hq as [<- | Hq]; [destruct Hc|].
      destruct (IH q Hq c Hc). split; [assumption | now right].
    + destruct (split_by p s) as [|q0 qs] eqn:E.
      * destruct Hq as [<- | []]. destruct Hc as [<- | []].
        split; [assumption | now left].
      * destruct Hq as [<- | Hq].
        -- destruct Hc as [<- | Hc]; [split; [assumption | now left]|].
           destruct (IH q0 (or_introl eq_refl) c Hc).
           split; [assumption | now right].
        -- destruct (IH q (or_intror Hq) c Hc).
           split; [assumption | now right].
Qed.

Lemma findall_join pieces :
  pieces <> [] ->
  (forall q, In q pieces -> forallb is_art_group_char q = true) ->
  findall_from art_match 0 (join [SEMI] pieces) = flat_map piece_group pieces.
Proof.
  induction pieces as [|q pieces IH]; intros Hne Hfree; [congruence|].
  destruct pieces as [|q' qs].
  - simpl join. rewrite <- (app_nil_r q) at 1.
    rewrite findall_piece; [reflexivity | | now left].
    apply Hfree. now left.
  - rewrite join_cons2.
    rewrite findall_piece;
      [|apply Hfree; now left | right; eexists; reflexivity].
    cbn [tl app].
    change (flat_map piece_group (q :: q' :: qs))
      with (piece_group q ++ flat_map piece_group (q' :: qs)).
    f_equal. apply IH; [discriminate|].
    intros q0 Hq0. apply Hfree. now right.
Qed.

(** In a text without dollar sign, the matches of the marker are the
    first markers of the pieces between semicolons. *)
Lemma findall_art_match_pieces text :
  ~ In DOLLAR text ->
  findall art_match text = flat_map piece_group (split SEMI text).
Proof.
  intros Hd. unfold findall.
  rewrite <- (split_join SEMI text) at 1.
  apply findall_join; [apply split_by_nonempty|].
  intros q Hq. apply forallb_forall. intros c Hc.
  destruct (split_by_pieces _ _ _ Hq c Hc) as (Hsemi & Hin).
  unfold is_art_group_char. simpl in Hsemi. rewrite Hsemi. simpl.
  apply negb_true_iff, N.eqb_neq. intros ->. contradiction.
Qed.

(** *** Tokens *)

Lemma takewhile_ext p q s :
  (forall c, p c = q c) -> takewhile p s = takewhile q s.
Proof.
  intros E. induction s as [|c s IH]; simpl; [reflexivity|].
  now rewrite E, IH.
Qed.

Lemma takewhile_takewhile p q s :
  takewhile p (takewhile q s) = takewhile (fun c => q c && p c) s.
Proof.
  induction s as [|c s IH]; simpl; [reflexivity|].
  destruct (q c); simpl; [|reflexivity].
  destruct (p c); [now rewrite IH | reflexivity].
Qed.

Lemma hd_split sep s :
  hd [] (split sep s) = takewhile (fun c => negb (c =? sep)%N) s.
Proof.
  unfold split. induction s as [|c s IH]; simpl; [reflexivity|].
  destruct (c =? sep)%N; simpl; [reflexivity|].
  destruct (split_by (fun d => (d =? sep)%N) s) as [|q qs] eqn:E.
  - now elim (split_by_nonempty _ _ E).
  - simpl in *. now rewrite IH.
Qed.

(** The three cuts of the source leave the portion before the first
    slash, parenthesis or space. *)
Lemma first_token_takewhile m : first_token m = takewhile is_token_char m.
Proof.
  unfold first_token. rewrite !hd_split, !takewhile_takewhile.
  apply takewhile_ext. intros c. unfold is_token_char.
  now rewrite andb_assoc.
Qed.

Lemma fold_keep original (f : pystr -> pystr) ms : forall articuls,
  fold_left (fun articuls m => keep original (f m) articuls) ms articuls
  = articuls
    ++ flat_map
         (fun m =>
            if is_valid_art (f m) && negb (pystr_eqb (f m) original)
            then [f m] else [])
         ms.
Proof.
  induction ms as [|m ms IH]; intros articuls; simpl.
  - now rewrite app_nil_r.
  - rewrite IH. unfold keep.
    destruct (is_valid_art (f m) && negb (pystr_eqb (f m) original)).
    + now rewrite <- app_assoc.
    + reflexivity.
Qed.

Lemma flat_map_flat_map {A B C : Type} (f : B -> list C) (g : A -> list B) l :
  flat_map f (flat_map g l) = flat_map (fun x => flat_map f (g x)) l.
Proof.
  induction l as [|x l IH]; simpl; [reflexivity|].
  now rewrite flat_map_app, IH.
Qed.

Lemma upper_keeps_dollar `{CaseMap} raw : In DOLLAR (upper raw) -> In DOLLAR raw.
Proof.
  intros Hin. apply in_upper in Hin as (c & Hc & Hd).
  destruct (N.eq_dec DOLLAR c) as [<- | Hne]; [assumption|].
  destruct (upper_char_fresh Hd Hne) as (_ & Hr).
  unfold DOLLAR in Hr. lia.
Qed.

(** C5, as the code has it, for texts without a dollar sign.  The
    upper-cased text falls into the pieces between its semicolons.  In
    every piece the first occurrence of the marker (the three letters in
    either case) is taken; the text behind it, after an optional full stop
    and white space, is captured up to the end of the piece, that is up to
    the next semicolon or the end of the text; a further marker in the
    same piece lies inside the captured text and is not taken.  Of every
    captured text the portion before the first slash, opening parenthesis
    or space is normalised, and it is appended to the result exactly when
    it is valid and differs from the original value.  These tokens follow
    the tokens of the bracketed groups, piece by piece. *)
Theorem extract_markers_by_piece `{CaseMap} (raw original_art : pystr) :
  ~ In DOLLAR raw ->
  extract_from_nomenclature (Some raw) original_art
  = extract_brackets (upper raw) original_art []
    ++ flat_map (marker_token original_art) (split SEMI (upper raw)).
Proof.
  intros Hd. unfold extract_from_nomenclature, extract_markers.
  rewrite (fold_keep original_art (fun m => clean_art (first_token m))).
  f_equal.
  rewrite findall_art_match_pieces
    by (intros Hin; apply Hd; now apply upper_keeps_dollar).
  rewrite flat_map_flat_map. apply flat_map_ext. intros piece.
  unfold piece_group, marker_token.
  destruct (after_first_marker piece) as [rest|]; [|reflexivity].
  simpl. rewrite first_token_takewhile. now rewrite app_nil_r.
Qed.

(** *** Variant generator *)

#[local] Existing Instance CPython.cpython_case.

(** The normaliser on a sample: spaces go, the trailing run of hyphens,
    slashes and white space goes, letters become capitals (the sharp s
    becomes two letters). *)
Example clean_art_sample :
  clean_art (str " ab-1 00 -/ ") = str "AB-100"
  /\ clean_art (str "stra" ++ [0xDF%N] ++ str "e-") = str "STRASSE"
  /\ clean_art (clean_art (str " ab-1 00 -/ ")) = str "AB-100".
Proof. repeat split; reflexivity. Qed.

Lemma clean_art_idempotent_witness :
  clean_art (clean_art (str " ab-1 00 -/ ")) = clean_art (str " ab-1 00 -/ ").
Proof.
  apply (clean_art_idempotent (str " ab-1 00 -/ ")).
Defined.

Lemma extract_markers_by_piece_witness :
  ~ In DOLLAR text_markers
  /\ extract_from_nomenclature (Some text_markers) []
     = extract_brackets (upper text_markers) [] []
       ++ flat_map (marker_token []) (split SEMI (upper text_markers)).
Proof.
  assert (Hd : ~ In DOLLAR text_markers).
  { intros Hin. apply contains_In in Hin. discriminate Hin. }
  split; [exact Hd|].
  apply (extract_markers_by_piece text_markers [] Hd).
Defined.

Example extract_markers_sample :
  extract_from_nomenclature (Some text_markers) []
  = [str "XY12Z"; str "QWER-7"].
Proof. reflexivity. Qed.

(** C5 as stated fails: the second marker of the text lies inside the
    text captured for the first one and is not matched on its own, so the
    token that the sentence promises for it is valid, differs from the
    original, and yet is not in the result. *)
Lemma extract_skips_marker_inside_capture :
  upper text_two_markers
  = (MARKER_UPPER ++ str ".AB12 ") ++ MARKER_UPPER ++ str ".CD34"
  /\ marker_at (MARKER_UPPER ++ str ".CD34") = true
  /\ promised_marker_token (str ".CD34") = str "CD34"
  /\ is_valid_art (str "CD34") = true
  /\ extract_from_nomenclature (Some text_two_markers) [] = [str "AB12"]
  /\ ~ (forall raw original_art pre m rest,
          upper raw = pre ++ m ++ rest ->
          length m = 3 ->
          marker_at (m ++ rest) = true ->
          is_valid_art (promised_marker_token rest) = true ->
          promised_marker_token rest <> original_art ->
          In (promised_marker_token rest)
             (extract_from_nomenclature (Some raw) original_art)).
Proof.
  split; [reflexivity|]. split; [reflexivity|]. split; [reflexivity|].
  split; [reflexivity|]. split; [reflexivity|].
  intros Hclaim.
  specialize (Hclaim text_two_markers [] (MARKER_UPPER ++ str ".AB12 ")
                MARKER_UPPER (str ".CD34")
                eq_refl eq_refl eq_refl eq_refl).
  assert (Hin : In (str "CD34") [str "AB12"]).
  { apply Hclaim. discriminate. }
  destruct Hin as [Hin | []]. discriminate Hin.
Qed.

(** The text with a dollar sign is outside the statement above: the class
    of the group also excludes the dollar sign, and the captured text
    ends there. *)
Example extract_stops_at_dollar :
  extract_from_nomenclature (Some text_dollar) [] = [str "ABCD"]
  /\ promised_marker_token (str ".ABCD$EF") = str "ABCD$EF".
Proof. split; reflexivity. Qed.

(** C2.  The variant generator is meant to leave the original value out
    (the first [add] is guarded by [articul != original_art]), but the
    later blocks add their strings unguarded.  For the part number AB-100,
    whose normal form is itself, the rejoined first two hyphen parts are
    the whole text again, and the result contains the original; the same
    happens for AB/100 through the rewrite of the slash into a spaced
    slash, which normalisation turns back into the original. *)
Theorem process_articul_returns_original :
  let hyphen := str "AB-100" in
  let slash := str "AB/100" in
  (clean_art hyphen = hyphen /\
   In hyphen (process_articul (Some hyphen) (clean_art hyphen)))
  /\
  (clean_art slash = slash /\
   In slash (process_articul (Some slash) (clean_art slash))).
Proof.
  vm_compute. tauto.
Qed.

Lemma add_if_In b x y (s : pyset) :
  In y (add_if b x s) <-> (b = true /\ y = x) \/ In y s.
Proof.
  unfold add_if. destruct b.
  - rewrite set_add_In. intuition congruence.
  - intuition congruence.
Qed.

Lemma In_insert_sorted x y l : In y (insert_sorted x l) <-> y = x \/ In y l.
Proof.
  induction l as [|z l IH]; simpl.
  - intuition congruence.
  - destruct (key_leb x z); simpl; rewrite ?IH; intuition congruence.
Qed.

Lemma In_sorted_by_key y l : In y (sorted_by_key l) <-> In y l.
Proof.
  induction l as [|x l IH]; simpl; [tauto|].
  rewrite In_insert_sorted, IH. intuition congruence.
Qed.

Lemma fold_add_unless_In original (arts : list pystr) (acc : pyset) y :
  In y (fold_left
          (fun acc art => add_if (negb (pystr_eqb art original)) art acc)
          arts acc) ->
  (y <> original /\ In y arts) \/ In y acc.
Proof.
  revert acc. induction arts as [|a arts IH]; intros acc; simpl; [auto|].
  intros Hy. apply IH in Hy as [(Hne & Hin) | Hy]; [left; auto|].
  apply add_if_In in Hy as [(Hb & ->) | Hy]; [|auto].
  left. apply negb_true_iff, pystr_eqb_neq in Hb. auto.
Qed.

(** The caller filters once more, and so no record ever lists its own
    normalised part number among the additional ones. *)
Lemma process_row_omits_original `{CaseMap} (r : row) :
  ~ In (match row_articul r with Some s => clean_art s | None => [] end)
       (process_row r).
Proof.
  unfold process_row. rewrite In_sorted_by_key. intros Hin.
  apply fold_add_unless_In in Hin as [(Hne & _) | Hin]; [congruence|].
  destruct (truthy (row_articul r)).
  - apply fold_add_unless_In in Hin as [(Hne & _) | []]. congruence.
  - destruct Hin.
Qed.

End SortArticSpec.

(** ** The catalog index and the matcher of [search_3.py] *)

Module SearchSpec.
Import PyFacts DictFacts Search.

(** *** The catalog index *)

Lemma usable_iff x : usable x = true <-> x <> [] /\ x <> NAN_TEXT.
Proof.
  unfold usable.
  rewrite andb_true_iff, !negb_true_iff, orb_false_iff, !pystr_eqb_neq.
  tauto.
Qed.

Lemma cell_text_trimmed c : strip (cell_text c) = cell_text c.
Proof. destruct c; [apply strip_idem | reflexivity]. Qed.

Lemma usable_stored c : usable (cell_text c) = true -> stored_text (cell_text c).
Proof.
  intros H. apply usable_iff in H. split; [apply cell_text_trimmed | exact H].
Qed.

Lemma load_row_ok f r : finder_ok f -> finder_ok (load_row f r).
Proof.
  intros Hok k v. unfold load_row. simpl. intros [Hin | Hin].
  - destruct (usable (cell_text (cat_article r))
              && usable (cell_text (cat_vtrac r))) eqn:E.
    + apply (In_dict_set _ _ _ pystr_eqb_eq) in Hin as [(-> & ->) | Hin].
      * apply andb_true_iff in E as (E1 & E2).
        split; now apply usable_stored.
      * apply Hok. now left.
    + apply Hok. now left.
  - destruct (usable (cell_text (cat_analog r))
              && usable (cell_text (cat_vtrac r))) eqn:E.
    + apply (In_dict_set _ _ _ pystr_eqb_eq) in Hin as [(-> & ->) | Hin].
      * apply andb_true_iff in E as (E1 & E2).
        split; now apply usable_stored.
      * apply Hok. now right.
    + apply Hok. now right.
Qed.

Lemma fold_load_row_ok catalog : forall f,
  finder_ok f -> finder_ok (fold_left load_row catalog f).
Proof.
  induction catalog as [|r catalog IH]; intros f Hok; simpl; [assumption|].
  apply IH. now apply load_row_ok.
Qed.

Lemma load_catalog_ok catalog : finder_ok (load_catalog catalog).
Proof.
  apply fold_load_row_ok. intros k v [[] | []].
Qed.

Lemma load_catalog_app pre post :
  load_catalog (pre ++ post) = fold_left load_row post (load_catalog pre).
Proof. unfold load_catalog. apply fold_left_app. Qed.

(** A skipped entry leaves the mapping as it is. *)
Lemma load_row_skips_article f r :
  writes_article r = false -> article_dict (load_row f r) = article_dict f.
Proof. unfold writes_article, load_row. simpl. now intros ->. Qed.

Lemma load_row_skips_analog f r :
  writes_analog r = false -> analog_dict (load_row f r) = analog_dict f.
Proof. unfold writes_analog, load_row. simpl. now intros ->. Qed.

Lemma load_row_writes_article f r :
  writes_article r = true ->
  article_dict (load_row f r) =
  dict_set pystr_eqb (cell_text (cat_article r)) (cell_text (cat_vtrac r))
    (article_dict f).
Proof. unfold writes_article, load_row. simpl. now intros ->. Qed.

Lemma load_row_writes_analog f r :
  writes_analog r = true ->
  analog_dict (load_row f r) =
  dict_set pystr_eqb (cell_text (cat_analog r)) (cell_text (cat_vtrac r))
    (analog_dict f).
Proof. unfold writes_analog, load_row. simpl. now intros ->. Qed.

(** The entries that follow do not touch a key they do not write. *)
Lemma later_rows_keep_article k v post : forall f,
  dict_get pystr_eqb k (article_dict f) = Some v ->
  (forall r, In r post -> writes_article r = true ->
             cell_text (cat_article r) <> k) ->
  dict_get pystr_eqb k (article_dict (fold_left load_row post f)) = Some v.
Proof.
  induction post as [|r post IH]; intros f Hget Hlater; simpl; [assumption|].
  apply IH; [|intros r' Hr'; apply Hlater; now right].
  destruct (writes_article r) eqn:E.
  - rewrite (load_row_writes_article _ _ E).
    rewrite (dict_get_set_other _ _ _ pystr_eqb_eq); [assumption|].
    intros ->. now apply (Hlater r (or_introl eq_refl) E).
  - now rewrite (load_row_skips_article _ _ E).
Qed.

Lemma later_rows_keep_analog k v post : forall f,
  dict_get pystr_eqb k (analog_dict f) = Some v ->
  (forall r, In r post -> writes_analog r = true ->
             cell_text (cat_analog r) <> k) ->
  dict_get pystr_eqb k (analog_dict (fold_left load_row post f)) = Some v.
Proof.
  induction post as [|r post IH]; intros f Hget Hlater; simpl; [assumption|].
  apply IH; [|intros r' Hr'; apply Hlater; now right].
  destruct (writes_analog r) eqn:E.
  - rewrite (load_row_writes_analog _ _ E).
    rewrite (dict_get_set_other _ _ _ pystr_eqb_eq); [assumption|].
    intros ->. now apply (Hlater r (or_introl eq_refl) E).
  - now rewrite (load_row_skips_analog _ _ E).
Qed.

(** C7.  After [load_catalog], for any sequence of entries: every key and
    every identifier held by the primary and the analog mapping is
    trimmed, not empty and different from [nan]; an entry whose key or
    identifier is blank, missing or [nan] leaves the mapping untouched;
    and of the entries that are entered under the same key the last one
    decides the identifier found under that key. *)
Theorem load_catalog_index (catalog : list catalog_row) :
  (forall k v,
      In (k, v) (article_dict (load_catalog catalog))
      \/ In (k, v) (analog_dict (load_catalog catalog)) ->
      stored_text k /\ stored_text v)
  /\ (forall f r,
        (writes_article r = false ->
         article_dict (load_row f r) = article_dict f)
        /\ (writes_analog r = false ->
            analog_dict (load_row f r) = analog_dict f))
  /\ (forall pre r post,
        catalog = pre ++ r :: post ->
        writes_article r = true ->
        (forall r', In r' post -> writes_article r' = true ->
                    cell_text (cat_article r') <> cell_text (cat_article r)) ->
        dict_get pystr_eqb (cell_text (cat_article r))
          (article_dict (load_catalog catalog))
        = Some (cell_text (cat_vtrac r)))
  /\ (forall pre r post,
        catalog = pre ++ r :: post ->
        writes_analog r = true ->
        (forall r', In r' post -> writes_analog r' = true ->
                    cell_text (cat_analog r') <> cell_text (cat_analog r)) ->
        dict_get pystr_eqb (cell_text (cat_analog r))
          (analog_dict (load_catalog catalog))
        = Some (cell_text (cat_vtrac r))).
Proof.
  split; [apply load_catalog_ok|].
  split; [intros f r; split;
          [apply load_row_skips_article | apply load_row_skips_analog]|].
  split.
  - intros pre r post -> Hw Hlater.
    rewrite load_catalog_app. simpl.
    apply later_rows_keep_article; [|assumption].
    rewrite (load_row_writes_article _ _ Hw).
    apply (dict_get_set_same _ _ _ pystr_eqb_eq).
  - intros pre r post -> Hw Hlater.
    rewrite load_catalog_app. simpl.
    apply later_rows_keep_analog; [|assumption].
    rewrite (load_row_writes_analog _ _ Hw).
    apply (dict_get_set_same _ _ _ pystr_eqb_eq).
Qed.

Lemma load_catalog_index_witness :
  In (str "AB-100", str "V2") (article_dict (load_catalog catalog_dup))
  /\ stored_text (str "AB-100") /\ stored_text (str "V2")
  /\ dict_get pystr_eqb (str "AB-100")
       (article_dict (load_catalog catalog_dup)) = Some (str "V2")
  /\ analog_dict (load_catalog catalog_dup) = [].
Proof.
  destruct (load_catalog_index catalog_dup) as (Hok & _ & Hlast & _).
  assert (Hin : In (str "AB-100", str "V2")
                   (article_dict (load_catalog catalog_dup)))
    by (vm_compute; tauto).
  split; [exact Hin|].
  destruct (Hok _ _ (or_introl Hin)) as (Hk & Hv).
  split; [exact Hk|]. split; [exact Hv|]. split; [|reflexivity].
  apply (Hlast [nth 0 catalog_dup (Build_catalog_row None None None)]
               (nth 1 catalog_dup (Build_catalog_row None None None)) []).
  - reflexivity.
  - reflexivity.
  - intros r' [].
Defined.

(** *** The prefix look-up *)

Lemma startswith_iff s p : startswith s p = true <-> exists t, s = p ++ t.
Proof.
  revert s. induction p as [|a p IH]; intros s; simpl.
  - split; [intros _; now exists s | reflexivity].
  - destruct s as [|c s].
    + split; [discriminate | intros (t & [=])].
    + rewrite andb_true_iff, N.eqb_eq, IH. split.
      * intros (-> & t & ->). now exists t.
      * intros (t & [= -> ->]). split; [reflexivity | now exists t].
Qed.

(** A trimmed key that starts with a non-blank query also starts with the
    trimmed query. *)
Lemma startswith_strip k article :
  strip k = k -> strip article <> [] ->
  startswith k article = true -> startswith k (strip article) = true.
Proof.
  intros Hk Ha Hs. apply startswith_iff in Hs as (t & Hs).
  apply startswith_iff.
  destruct article as [|c rest]; [now elim Ha|].
  assert (Hc : is_space c = false).
  { rewrite Hs in Hk. simpl in Hk. now apply strip_head in Hk. }
  unfold strip. rewrite (lstrip_by_fixed _ _ _ Hc).
  destruct (rstrip_by_prefix is_space (c :: rest)) as (suf & E & _).
  exists (suf ++ t). rewrite app_assoc, <- E. exact Hs.
Qed.

Lemma append_if_In b v x found :
  In x (append_if b v found) <-> (b = true /\ x = v) \/ In x found.
Proof.
  unfold append_if. destruct b.
  - rewrite in_app_iff. simpl. intuition congruence.
  - intuition congruence.
Qed.

(** The prefix loops only add to the list. *)
Lemma prefix_step_mono d article x : forall found,
  In x found -> In x (prefix_step d article found).
Proof.
  unfold prefix_step.
  induction d as [|(k, v) d IH]; intros found Hx; simpl; [assumption|].
  apply IH.
  destruct (pystr_eqb k [] || pystr_eqb v []); [assumption|].
  apply append_if_In. now right.
Qed.

(** An entry whose key starts with the query has its identifier in the
    list after the loop. *)
Lemma prefix_step_hit d article k v : forall found,
  In (k, v) d -> stored_text k -> stored_text v ->
  startswith k article = true ->
  In v (prefix_step d article found).
Proof.
  intros found Hin (Hk & Hk0 & _) (Hv & Hv0 & _) Hs. revert found Hin.
  induction d as [|(k', v') d IH]; intros found Hin; [destruct Hin|].
  destruct Hin as [[= -> ->] | Hin]; [|now apply IH].
  unfold prefix_step. simpl. apply prefix_step_mono.
  apply pystr_eqb_neq in Hk0, Hv0. rewrite Hk0, Hv0. simpl.
  rewrite Hk, Hv, Hs, Hv0. simpl.
  destruct (set_mem v found) eqn:E; simpl.
  - now apply set_mem_In.
  - apply in_or_app. right. now left.
Qed.

(** C8 as stated fails for the empty query: every key starts with the
    empty text, yet the look-up returns at once with nothing. *)
Lemma find_vtrac_blank_query :
  In (str "AB-100-X", str "V2") (article_dict (load_catalog catalog_v2))
  /\ startswith (str "AB-100-X") [] = true
  /\ find_vtrac (load_catalog catalog_v2) [] = []
  /\ ~ In (str "V2") (find_vtrac (load_catalog catalog_v2) []).
Proof.
  vm_compute. tauto.
Qed.

(** A text of white space only is no prefix of a trimmed key. *)
Lemma blank_is_no_prefix k article :
  strip k = k -> article <> [] -> strip article = [] ->
  startswith k article = false.
Proof.
  intros Hk Ha Hblank.
  destruct (startswith k article) eqn:Hs; [|reflexivity].
  apply startswith_iff in Hs as (t & Hs).
  destruct article as [|c rest]; [now elim Ha|].
  assert (Hc : is_space c = false).
  { rewrite Hs in Hk. simpl in Hk. now apply strip_head in Hk. }
  unfold strip in Hblank. rewrite (lstrip_by_fixed _ _ _ Hc) in Hblank.
  destruct (rstrip_by_prefix is_space (c :: rest)) as (suf & E & Hall).
  rewrite Hblank in E. simpl in E. subst suf.
  simpl in Hall. rewrite Hc in Hall. discriminate Hall.
Qed.

(** C8, as the code has it.  For every query that is not the empty text
    and every entry of the primary or of the analog mapping whose key
    starts with the query, the identifier of the entry is in the list
    returned by [find_vtrac].  With the catalog entry (AB-100-X, V2) and
    the record field AB-100 the candidate list holds V2. *)
Theorem find_vtrac_prefix_match :
  (forall (catalog : list catalog_row) (article k v : pystr),
      article <> [] ->
      In (k, v) (article_dict (load_catalog catalog))
      \/ In (k, v) (analog_dict (load_catalog catalog)) ->
      startswith k article = true ->
      In v (find_vtrac (load_catalog catalog) article))
  /\ In (str "V2")
       (process_row (load_catalog catalog_v2) (record_of (str "AB-100"))).
Proof.
  split; [|vm_compute; tauto].
  intros catalog article k v Ha Hin Hs.
  destruct (load_catalog_ok catalog k v Hin) as (Hk & Hv).
  assert (Hnb : strip article <> []).
  { intros Hblank.
    rewrite (blank_is_no_prefix k article (proj1 Hk) Ha Hblank) in Hs.
    discriminate Hs. }
  assert (Hs' : startswith k (strip article) = true)
    by (apply startswith_strip; [apply Hk | assumption | assumption]).
  unfold find_vtrac.
  assert (E1 : pystr_eqb article [] = false) by now apply pystr_eqb_neq.
  assert (E2 : pystr_eqb (strip article) [] = false)
    by now apply pystr_eqb_neq.
  rewrite E1, E2. simpl.
  destruct Hin as [Hin | Hin].
  - apply prefix_step_mono. now apply (prefix_step_hit _ _ k v).
  - now apply (prefix_step_hit _ _ k v).
Qed.

Lemma find_vtrac_prefix_match_witness :
  str "AB-100" <> []
  /\ In (str "AB-100-X", str "V2") (article_dict (load_catalog catalog_v2))
  /\ startswith (str "AB-100-X") (str "AB-100") = true
  /\ In (str "V2") (find_vtrac (load_catalog catalog_v2) (str "AB-100")).
Proof.
  assert (H1 : str "AB-100" <> []) by (vm_compute; discriminate).
  assert (H2 : In (str "AB-100-X", str "V2")
                  (article_dict (load_catalog catalog_v2)))
    by (vm_compute; tauto).
  split; [exact H1|]. split; [exact H2|]. split; [reflexivity|].
  apply (proj1 find_vtrac_prefix_match catalog_v2 (str "AB-100")
           (str "AB-100-X") (str "V2") H1 (or_introl H2) eq_refl).
Defined.

(** C3 as stated fails: the matcher only trims the field, it does not
    change the case of the letters, and the lower-case field finds
    nothing in the catalog. *)
Lemma process_row_lower_case_no_match :
  strip (str "ab-100") = str "ab-100"
  /\ dict_get pystr_eqb (str "ab-100")
       (article_dict (load_catalog catalog_v1)) = None
  /\ process_row (load_catalog catalog_v1) (record_of (str "ab-100")) = []
  /\ process_row (load_catalog catalog_v1) (record_of (str "ab-100"))
     <> [str "V1"].
Proof.
  vm_compute. repeat split; congruence.
Qed.

(** C3, as the code has it.  With the catalog holding the single entry
    (AB-100, no analog, V1), a record whose part-number field reads
    AB-100 in upper case, with or without white space around it, is
    trimmed to AB-100, the exact look-up finds V1, and the candidate list
    is exactly V1. *)
Theorem process_row_exact_match (field : pystr) :
  strip field = str "AB-100" ->
  dict_get pystr_eqb (strip field)
    (article_dict (load_catalog catalog_v1)) = Some (str "V1")
  /\ process_row (load_catalog catalog_v1) (record_of field) = [str "V1"].
Proof.
  intros E. split.
  - rewrite E. reflexivity.
  - unfold process_row, record_of. simpl fold_left. rewrite E.
    vm_compute. reflexivity.
Qed.

Lemma process_row_exact_match_witness :
  strip (str " AB-100 ") = str "AB-100"
  /\ dict_get pystr_eqb (strip (str " AB-100 "))
       (article_dict (load_catalog catalog_v1)) = Some (str "V1")
  /\ process_row (load_catalog catalog_v1) (record_of (str " AB-100 "))
     = [str "V1"].
Proof.
  split; [reflexivity|].
  apply (process_row_exact_match (str " AB-100 ")). reflexivity.
Defined.

End SearchSpec.

(** ** Prefix consensus and propagation of [end_4.py] *)

Module End4Spec.
Import PyFacts DictFacts End4.

Lemma present_length_le cells : length (present cells) <= length cells.
Proof.
  induction cells as [|[s|] cells IH]; simpl; lia.
Qed.

Lemma present_nil_iff cells : present cells = [] <-> forallb isna cells = true.
Proof.
  induction cells as [|[s|] cells IH]; simpl.
  - tauto.
  - split; discriminate.
  - exact IH.
Qed.

Lemma count_present_none cells :
  count_present cells = 0 -> Forall (fun c => c = None) cells.
Proof.
  induction cells as [|[s|] cells IH]; simpl; intros H.
  - constructor.
  - discriminate.
  - constructor; [reflexivity | now apply IH].
Qed.

Lemma count_present_one cells :
  count_present cells = 1 ->
  exists before s after,
    cells = before ++ Some s :: after
    /\ Forall (fun c => c = None) before
    /\ Forall (fun c => c = None) after.
Proof.
  induction cells as [|[s|] cells IH]; simpl; intros H.
  - discriminate.
  - exists [], s, cells. repeat split; [constructor|].
    apply count_present_none. lia.
  - destruct (IH H) as (before & s & after & -> & Hb & Ha).
    exists (None :: before), s, after. repeat split; [|assumption].
    now constructor.
Qed.

Lemma all_missing_isna cells :
  Forall (fun c => c = None) cells -> forallb isna cells = true.
Proof.
  induction 1 as [|c cells Hc _ IH]; [reflexivity|].
  subst c. exact IH.
Qed.

Lemma find_common_vtrac_all_missing cells :
  Forall (fun c => c = None) cells -> find_common_vtrac cells = None.
Proof.
  intros H. unfold find_common_vtrac.
  rewrite (all_missing_isna _ H). now rewrite orb_true_r.
Qed.

Lemma find_common_vtrac_one_present before s after :
  Forall (fun c => c = None) before ->
  Forall (fun c => c = None) after ->
  find_common_vtrac (before ++ Some s :: after) = Some s.
Proof.
  intros Hb Ha. unfold find_common_vtrac.
  assert (Hp : present (before ++ Some s :: after) = [s]).
  { unfold present. rewrite flat_map_app. simpl.
    fold (present before). fold (present after).
    assert (Eb : present before = [])
      by (apply present_nil_iff; now apply all_missing_isna).
    assert (Ea : present after = [])
      by (apply present_nil_iff; now apply all_missing_isna).
    now rewrite Eb, Ea. }
  assert (Hna : forallb isna (before ++ Some s :: after) = false).
  { rewrite forallb_app. simpl. now rewrite andb_false_r. }
  rewrite Hna, Hp. destruct before; reflexivity.
Qed.

(** C6.  With fewer than two identifiers present, that is with fewer than
    two cells that are not missing, [find_common_vtrac] gives nothing
    when none is present (the list is empty or all of its cells are
    missing) and gives the single present identifier, as it is, when
    there is exactly one, wherever it stands among the missing cells. *)
Theorem find_common_vtrac_fewer_than_two (vtrac_values : list cell) :
  count_present vtrac_values < 2 ->
  (Forall (fun c => c = None) vtrac_values
   /\ find_common_vtrac vtrac_values = None)
  \/ (exists before s after,
        vtrac_values = before ++ Some s :: after
        /\ Forall (fun c => c = None) before
        /\ Forall (fun c => c = None) after
        /\ find_common_vtrac vtrac_values = Some s).
Proof.
  intros Hlen.
  destruct (count_present vtrac_values) as [|[|n]] eqn:E; [| |lia].
  - left. apply count_present_none in E.
    split; [assumption | now apply find_common_vtrac_all_missing].
  - right. destruct (count_present_one _ E) as (before & s & after & Hv & Hb & Ha).
    exists before, s, after. repeat split; try assumption.
    rewrite Hv. now apply find_common_vtrac_one_present.
Qed.

Lemma find_common_vtrac_fewer_than_two_witness :
  count_present cells_single < 2
  /\ ((Forall (fun c => c = None) cells_single
       /\ find_common_vtrac cells_single = None)
      \/ (exists before s after,
            cells_single = before ++ Some s :: after
            /\ Forall (fun c => c = None) before
            /\ Forall (fun c => c = None) after
            /\ find_common_vtrac cells_single = Some s)).
Proof.
  split; [simpl; lia|].
  apply (find_common_vtrac_fewer_than_two cells_single).
  simpl. lia.
Defined.

(** An empty text is not a missing cell: a list holding only the empty
    text gives the empty text, not nothing, and the empty text next to a
    single identifier makes two, for which no consensus is found. *)
Example find_common_vtrac_empty_text_is_present :
  find_common_vtrac [Some []] = Some []
  /\ find_common_vtrac [Some []; Some (str "X")] = None.
Proof. split; reflexivity. Qed.

(** The scenarios of the specification for the short inputs. *)
Example find_common_vtrac_single :
  find_common_vtrac [Some (str "X")] = Some (str "X").
Proof. reflexivity. Qed.

Example find_common_vtrac_empty :
  find_common_vtrac [] = None /\ find_common_vtrac [None; None; None] = None.
Proof. split; reflexivity. Qed.

(** *** The rounds *)

Lemma in_group_prefix L p s : in_group L p s = true ->
  L <= length s /\ take L s = p /\ length p = L.
Proof.
  unfold in_group, take. rewrite andb_true_iff, Nat.leb_le, pystr_eqb_eq.
  intros (Hl & <-). repeat split; [assumption|].
  rewrite length_firstn. lia.
Qed.

Lemma group_of_app L p a b :
  group_of L p (a ++ b) = group_of L p a ++ group_of L p b.
Proof. unfold group_of. apply filter_app. Qed.

Lemma prefix_groups_step L groups done s :
  groups_inv L groups done ->
  groups_inv L
    (if L <=? length s then
       dict_set pystr_eqb (take L s)
         (lookup_group (take L s) groups ++ [s]) groups
     else groups)
    (done ++ [s]).
Proof.
  intros (Hnd & Hget & Hne).
  destruct (L <=? length s) eqn:El.
  - split; [now apply dict_set_keys; [apply pystr_eqb_eq|]|]. split.
    + intros p. rewrite group_of_app. unfold lookup_group.
      destruct (pystr_eq_dec p (take L s)) as [-> | Hp].
      * rewrite dict_get_set_same by apply pystr_eqb_eq.
        fold (lookup_group (take L s) groups). rewrite Hget. f_equal.
        unfold group_of. simpl. unfold in_group.
        now rewrite El, pystr_eqb_refl.
      * rewrite dict_get_set_other by (apply pystr_eqb_eq || assumption).
        fold (lookup_group p groups). rewrite Hget.
        unfold group_of at 3. simpl. unfold in_group.
        assert (E : pystr_eqb (take L s) p = false)
          by (apply pystr_eqb_neq; congruence).
        rewrite E, andb_false_r. now rewrite app_nil_r.
    + intros p g Hin.
      apply In_dict_set in Hin as [(_ & ->) | Hin];
        [|eapply Hne; eassumption | apply pystr_eqb_eq].
      now destruct (lookup_group (take L s) groups).
  - split; [assumption|]. split; [|assumption].
    intros p. rewrite group_of_app, Hget.
    unfold group_of at 3. simpl. unfold in_group. rewrite El. simpl.
    now rewrite app_nil_r.
Qed.

Lemma prefix_groups_fold L strs : forall groups done,
  groups_inv L groups done ->
  groups_inv L
    (fold_left
       (fun groups s =>
          if L <=? length s then
            let prefix := take L s in
            let old :=
              match dict_get pystr_eqb prefix groups with
              | Some g => g
              | None => []
              end in
            dict_set pystr_eqb prefix (old ++ [s]) groups
          else groups)
       strs groups)
    (done ++ strs).
Proof.
  induction strs as [|s strs IH]; intros groups done Hinv; simpl.
  - now rewrite app_nil_r.
  - replace (done ++ s :: strs) with ((done ++ [s]) ++ strs)
      by now rewrite <- app_assoc.
    apply IH. apply (prefix_groups_step L groups done s Hinv).
Qed.

Lemma prefix_groups_inv L strs : groups_inv L (prefix_groups L strs) strs.
Proof.
  apply (prefix_groups_fold L strs [] []).
  split; [constructor|]. split; [reflexivity | intros ? ? []].
Qed.

(** [max] keeps the first of the longest groups. *)
Lemma max_by_len_fold (gs : list (list pystr)) : forall best,
  let r := fold_left
             (fun best h => if length best <? length h then h else best)
             gs best in
  (r = best \/ In r gs) /\ length best <= length r
  /\ forall h, In h gs -> length h <= length r.
Proof.
  induction gs as [|g gs IH]; intros best; simpl.
  - repeat split; [now left | lia | tauto].
  - specialize (IH (if length best <? length g then g else best)).
    simpl in IH. destruct IH as (Hr & Hle & Hall).
    destruct (length best <? length g) eqn:E.
    + apply Nat.ltb_lt in E. repeat split.
      * destruct Hr as [-> | Hr]; right; [now left | now right].
      * lia.
      * intros h [<- | Hh]; [assumption | now apply Hall].
    + apply Nat.ltb_ge in E. repeat split.
      * destruct Hr as [-> | Hr]; [now left | right; now right].
      * assumption.
      * intros h [<- | Hh]; [lia | now apply Hall].
Qed.

Lemma max_by_len_spec (gs : list (list pystr)) :
  (gs = [] /\ max_by_len gs = [])
  \/ (In (max_by_len gs) gs
      /\ forall h, In h gs -> length h <= length (max_by_len gs)).
Proof.
  destruct gs as [|g gs]; [now left | right]. simpl.
  destruct (max_by_len_fold gs g) as (Hr & Hle & Hall). split.
  - destruct Hr as [-> | Hr]; [now left | now right].
  - intros h [<- | Hh]; [assumption | now apply Hall].
Qed.

(** What the largest group of a round is: the whole group of some
    prefix, at least as large as the group of any prefix. *)
Lemma largest_group_spec L strs :
  let best := max_by_len (map snd (prefix_groups L strs)) in
  (best = [] \/ exists p, best = group_of L p strs /\ best <> [])
  /\ forall q, length (group_of L q strs) <= length best.
Proof.
  intros best. destruct (prefix_groups_inv L strs) as (Hnd & Hget & Hne).
  pose proof (max_by_len_spec (map snd (prefix_groups L strs))) as Hm.
  fold best in Hm. destruct Hm as [(Hnil & Hbest) | (Hin & Hmax)].
  - split; [now left|]. intros q. rewrite <- Hget. unfold lookup_group.
    destruct (prefix_groups L strs); [|discriminate]. simpl. lia.
  - split.
    + right. apply in_map_iff in Hin as ((p, g) & Hg & Hin).
      simpl in Hg. subst g. exists p. split; [|eapply Hne; eassumption].
      rewrite <- Hget. unfold lookup_group.
      now rewrite (In_dict_get _ _ _ pystr_eqb_eq _ _ _ Hnd Hin).
    + intros q. rewrite <- Hget. unfold lookup_group.
      destruct (dict_get pystr_eqb q (prefix_groups L strs)) as [g|] eqn:E.
      * apply Hmax. apply in_map_iff. exists (q, g). split; [reflexivity|].
        eapply dict_get_In; [apply pystr_eqb_eq | eassumption].
      * simpl. lia.
Qed.

Lemma group_of_hd L p strs :
  group_of L p strs <> [] ->
  take L (hd [] (group_of L p strs)) = p /\ length p = L.
Proof.
  intros Hne. destruct (group_of L p strs) as [|s g] eqn:E; [congruence|].
  assert (Hin : In s (group_of L p strs)) by (rewrite E; now left).
  apply filter_In in Hin as (_ & Hin). simpl.
  now apply in_group_prefix in Hin as (_ & ? & ?).
Qed.

Lemma round_found L strs :
  (exists q, 2 <= length (group_of L q strs)) ->
  exists p, round L strs = Some p /\ length p = L
            /\ 2 <= length (group_of L p strs)
            /\ forall q, length (group_of L q strs)
                         <= length (group_of L p strs).
Proof.
  intros (q & Hq). unfold round.
  destruct (largest_group_spec L strs) as (Hbest & Hmax).
  set (best := max_by_len (map snd (prefix_groups L strs))) in *.
  assert (Hlen : 2 <= length best) by (specialize (Hmax q); lia).
  destruct Hbest as [Hnil | (p & Hp & Hne)].
  - rewrite Hnil in Hlen. simpl in Hlen. lia.
  - exists p. destruct (1 <? length best) eqn:E;
      [|apply Nat.ltb_ge in E; lia].
    rewrite Hp in *. destruct (group_of_hd L p strs Hne) as (Eh & El).
    rewrite Eh. auto.
Qed.

Lemma round_not_found L strs :
  (forall q, length (group_of L q strs) < 2) -> round L strs = None.
Proof.
  intros Hall. unfold round.
  destruct (largest_group_spec L strs) as (Hbest & _).
  set (best := max_by_len (map snd (prefix_groups L strs))) in *.
  destruct (1 <? length best) eqn:E; [|reflexivity].
  apply Nat.ltb_lt in E.
  destruct Hbest as [Hnil | (p & Hp & _)].
  - rewrite Hnil in E. simpl in E. lia.
  - specialize (Hall p). rewrite <- Hp in Hall. lia.
Qed.

Lemma consensus_loop_cons L rest strs :
  consensus_loop (L :: rest) strs =
  match round L strs with
  | Some p => Some p
  | None => consensus_loop rest strs
  end.
Proof.
  simpl. unfold round.
  now destruct (1 <? length (max_by_len (map snd (prefix_groups L strs)))).
Qed.

Lemma find_common_vtrac_many vtrac_values :
  2 <= length (present vtrac_values) ->
  find_common_vtrac vtrac_values =
  consensus_loop [8; 7; 6] (present vtrac_values).
Proof.
  intros Hlen. unfold find_common_vtrac.
  assert (Hna : forallb isna vtrac_values = false).
  { destruct (forallb isna vtrac_values) eqn:F; [|reflexivity].
    apply present_nil_iff in F. rewrite F in Hlen. simpl in Hlen. lia. }
  rewrite Hna.
  destruct vtrac_values as [|c cs]; [simpl in Hlen; lia|]. simpl orb.
  destruct (length (present (c :: cs)) <? 2) eqn:E;
    [apply Nat.ltb_lt in E; lia | reflexivity].
Qed.

(** C1.  With at least two identifiers present, the lengths 8, 7, 6 are
    tried in this order.  If no length above [L] has a prefix shared by
    two identifiers and some prefix of length [L] is shared by two, the
    result is a prefix of length [L] whose group (the identifiers of
    length at least [L] that start with it) has at least two members and
    is as large as any group of that length.  For the two identifiers
    AB123456 and AB123457 the result is AB12345. *)
Theorem find_common_vtrac_rounds :
  (forall (vtrac_values : list cell) (L : nat),
      2 <= length (present vtrac_values) ->
      In L [8; 7; 6] ->
      (forall L' q, L < L' <= 8 ->
                    length (group_of L' q (present vtrac_values)) < 2) ->
      (exists q, 2 <= length (group_of L q (present vtrac_values))) ->
      exists p,
        find_common_vtrac vtrac_values = Some p
        /\ length p = L
        /\ 2 <= length (group_of L p (present vtrac_values))
        /\ forall q, length (group_of L q (present vtrac_values))
                     <= length (group_of L p (present vtrac_values)))
  /\ find_common_vtrac cells_pair = Some (str "AB12345").
Proof.
  split; [|reflexivity].
  intros vtrac_values L Hlen HL Habove Hhere.
  rewrite (find_common_vtrac_many _ Hlen).
  set (strs := present vtrac_values) in *.
  assert (Hskip : forall L', L < L' <= 8 -> round L' strs = None).
  { intros L' HL'. apply round_not_found. intros q. now apply Habove. }
  destruct (round_found L strs Hhere) as (p & Hr & Hp).
  exists p. split; [|exact Hp].
  simpl in HL. destruct HL as [<- | [<- | [<- | []]]];
    rewrite !consensus_loop_cons.
  - now rewrite Hr.
  - rewrite (Hskip 8) by lia. now rewrite Hr.
  - rewrite (Hskip 8), (Hskip 7) by lia. now rewrite Hr.
Qed.

Lemma find_common_vtrac_rounds_witness :
  exists p,
    find_common_vtrac cells_pair = Some p
    /\ length p = 7
    /\ 2 <= length (group_of 7 p (present cells_pair))
    /\ forall q, length (group_of 7 q (present cells_pair))
                 <= length (group_of 7 p (present cells_pair)).
Proof.
  apply (proj1 find_common_vtrac_rounds cells_pair 7).
  - simpl. lia.
  - simpl. tauto.
  - intros L' q HL'. assert (L' = 8) as -> by lia.
    unfold group_of, in_group. simpl.
    repeat match goal with
      | |- context [pystr_eqb ?a q] =>
          let E := fresh "E" in destruct (pystr_eqb a q) eqn:E
      end; simpl; try lia.
    apply pystr_eqb_eq in E, E0. rewrite <- E0 in E. discriminate E.
  - exists (str "AB12345"). vm_compute. lia.
Defined.

(** When no length from 8 down to 6 has a prefix shared by two
    identifiers, there is no consensus. *)
Lemma find_common_vtrac_no_consensus (vtrac_values : list cell) :
  2 <= length (present vtrac_values) ->
  (forall L q, 6 <= L <= 8 ->
               length (group_of L q (present vtrac_values)) < 2) ->
  find_common_vtrac vtrac_values = None.
Proof.
  intros Hlen Hall. rewrite (find_common_vtrac_many _ Hlen).
  rewrite !consensus_loop_cons.
  rewrite !round_not_found; [reflexivity | | |];
    intros q; apply Hall; lia.
Qed.

(** *** Propagation *)

Lemma nat_eqb_spec a b : Nat.eqb a b = true <-> a = b.
Proof. apply Nat.eqb_eq. Qed.

(** A line that has an identifier gets no entry in the result of the
    search, whatever was found before. *)
Lemma matching_loop_skips {order : SetOrder} df mapping idx r :
  nth_error df idx = Some r ->
  any_notna (vtrac_cols r) = true ->
  forall idxs results,
    dict_get Nat.eqb idx results = None ->
    dict_get Nat.eqb idx (matching_loop df mapping idxs results) = None.
Proof.
  intros Hr Hany idxs.
  induction idxs as [|i idxs IH]; intros results Hres; simpl; [assumption|].
  destruct (nth_error df i) as [ri|] eqn:Ei; [|assumption].
  destruct (any_notna (vtrac_cols ri)) eqn:Eany; [now apply IH|].
  assert (Hne : idx <> i) by (intros ->; congruence).
  apply IH.
  match goal with
  | |- context [fold_left ?f ?l ?a] => destruct (fold_left f l a)
  end; [assumption|].
  now rewrite (dict_get_set_other _ _ _ nat_eqb_spec).
Qed.

Lemma nth_error_set_at {A : Type} (l : list A) i j x :
  j <> i -> nth_error (set_at i x l) j = nth_error l j.
Proof.
  revert i j. induction l as [|y l IH]; intros i j Hne; [reflexivity|].
  destruct i, j; simpl; try reflexivity; [congruence|].
  apply IH. congruence.
Qed.

(** Writing matches back leaves every line without an entry as it is. *)
Lemma apply_vtrac_matches_frame idx matches : forall df,
  dict_get Nat.eqb idx matches = None ->
  nth_error (apply_vtrac_matches df matches) idx = nth_error df idx.
Proof.
  unfold apply_vtrac_matches.
  induction matches as [|(i, vtracs) matches IH]; intros df Hget; simpl;
    [reflexivity|].
  simpl in Hget. destruct (Nat.eqb idx i) eqn:E; [discriminate|].
  apply Nat.eqb_neq in E. rewrite IH by assumption.
  destruct (nth_error df i); [|reflexivity].
  now apply nth_error_set_at.
Qed.

Lemma vtrac_matching_skip_frame {order : SetOrder} df mapping start_idx
    end_idx idx r :
  nth_error df idx = Some r ->
  any_notna (vtrac_cols r) = true ->
  nth_error
    (apply_vtrac_matches df
       (process_vtrac_matching df mapping start_idx end_idx)) idx = Some r.
Proof.
  intros Hr Hany. rewrite <- Hr.
  apply apply_vtrac_matches_frame. unfold process_vtrac_matching.
  now apply (matching_loop_skips df mapping idx r Hr Hany).
Qed.

(** C10.  A line that has at least one identifier is passed over by
    [process_vtrac_matching]: the matches hold no entry for it.  Writing
    these matches back with [apply_vtrac_matches], into the table they
    were computed from or into the table as other ranges have changed it
    meanwhile, leaves that line, and with it all its identifier slots,
    unchanged. *)
Theorem vtrac_matching_preserves_filled_rows {order : SetOrder}
    (df df' : dataframe) (mapping : dict pystr pyset)
    (start_idx end_idx idx : nat) (r : row) :
  nth_error df idx = Some r ->
  any_notna (vtrac_cols r) = true ->
  let matches := process_vtrac_matching df mapping start_idx end_idx in
  dict_get Nat.eqb idx matches = None
  /\ nth_error (apply_vtrac_matches df matches) idx = Some r
  /\ nth_error (apply_vtrac_matches df' matches) idx = nth_error df' idx.
Proof.
  intros Hr Hany matches.
  assert (Hskip : dict_get Nat.eqb idx matches = None).
  { unfold matches, process_vtrac_matching.
    now apply (matching_loop_skips df mapping idx r Hr Hany). }
  split; [assumption|]. split.
  - rewrite <- Hr. now apply apply_vtrac_matches_frame.
  - now apply apply_vtrac_matches_frame.
Qed.

Lemma vtrac_matching_preserves_filled_rows_witness :
  nth_error df_sample 0 = Some (nth 0 df_sample (Build_row [] [] None))
  /\ any_notna (vtrac_cols (nth 0 df_sample (Build_row [] [] None))) = true
  /\ dict_get Nat.eqb 0
       (process_vtrac_matching (order := insertion_order) df_sample
          (prepare_articul_mapping df_sample) 0 2) = None
  /\ nth_error
       (apply_vtrac_matches df_sample
          (process_vtrac_matching (order := insertion_order) df_sample
             (prepare_articul_mapping df_sample) 0 2)) 0
     = Some (nth 0 df_sample (Build_row [] [] None)).
Proof.
  split; [reflexivity|]. split; [reflexivity|].
  destruct (vtrac_matching_preserves_filled_rows
              (order := insertion_order) df_sample df_sample
              (prepare_articul_mapping df_sample) 0 2 0
              (nth 0 df_sample (Build_row [] [] None))
              eq_refl eq_refl) as (H1 & H2 & _).
  split; [exact H1 | exact H2].
Defined.

(** In the same run the second line, which had no identifier, receives
    V1 through the shared part number. *)
Example propagation_fills_empty_row :
  option_map vtrac_cols
    (nth_error
       (apply_vtrac_matches df_sample
          (process_vtrac_matching (order := insertion_order) df_sample
             (prepare_articul_mapping df_sample) 0 2)) 1)
  = Some [Some (str "V1"); None; None; None; None].
Proof. reflexivity. Qed.

(** The whole of task 1, the ranges taken in any order, keeps such a
    line. *)
Lemma task1_preserves_filled_rows {order : SetOrder} mapping ranges :
  forall df idx r,
  nth_error df idx = Some r ->
  any_notna (vtrac_cols r) = true ->
  nth_error (task1 mapping ranges df) idx = Some r.
Proof.
  unfold task1.
  induction ranges as [|(s, e) ranges IH]; intros df idx r Hr Hany; simpl;
    [assumption|].
  apply IH; [|assumption].
  now apply vtrac_matching_skip_frame.
Qed.

End End4Spec.

(** ** More on [sort_artic_2.py] *)

Module SortArticMore.
Import PyFacts SortArtic SortArticSpec.

(** *** The normal form *)

Lemma clean_art_again `{CaseMap} s : clean_art (clean_art s) = clean_art s.
Proof.
  destruct (clean_art_shape s) as (Hsp & Hlast).
  unfold clean_art at 1.
  replace (re_sub_trailing (clean_art s)) with (clean_art s).
  - rewrite (replace_absent _ _ _ Hsp). apply clean_art_upper_fixed.
  - unfold re_sub_trailing.
    destruct Hlast as [-> | (r & d & -> & Hd)];
      [reflexivity | symmetry; now apply rstrip_by_fixed].
Qed.

(** X1.  A normalised part number holds no space character and does not
    end with a hyphen, a slash or white space. *)
Theorem clean_art_no_space_no_trailing `{CaseMap} (s : pystr) :
  ~ In SPACE (clean_art s)
  /\ forall r d, clean_art s = r ++ [d] -> is_trail d = false.
Proof.
  destruct (clean_art_shape s) as (Hsp & Hlast). split; [assumption|].
  intros r d E. destruct Hlast as [E0 | (r0 & c & E0 & Hc)]; rewrite E0 in E.
  - now destruct r.
  - apply app_inj_tail in E as (_ & <-). assumption.
Qed.

(** X2.  After normalisation the validity test only asks for the length:
    a normalised text is valid exactly when it has at least four
    characters. *)
Theorem is_valid_art_clean_art `{CaseMap} (s : pystr) :
  is_valid_art (clean_art s) = (4 <=? length (clean_art s)).
Proof.
  unfold is_valid_art.
  destruct (clean_art_shape s) as (Hsp & _).
  destruct (contains SPACE (clean_art s)) eqn:E.
  - apply contains_In in E. contradiction.
  - now rewrite andb_true_r.
Qed.

(** *** The slash rewrites *)

Lemma replace_last a b r d :
  d <> a -> replace a b (r ++ [d]) = replace a b r ++ [d].
Proof.
  intros Hd. rewrite replace_app. unfold replace at 2. simpl.
  destruct (N.eqb_spec d a); [contradiction | reflexivity].
Qed.

Lemma unspace_spaced_rewrite mid a :
  mid <> SPACE -> ~ In SPACE a ->
  replace SPACE [] (replace SLASH [SPACE; mid; SPACE] a)
  = replace SLASH [mid] a.
Proof.
  intros Hmid. induction a as [|c a IH]; intros Hsp; [reflexivity|].
  change (c :: a) with ([c] ++ a). rewrite !replace_app.
  rewrite IH by (intros Hin; apply Hsp; now right). f_equal.
  assert (Hc : c <> SPACE) by (intros ->; apply Hsp; now left).
  unfold replace. simpl. destruct (N.eqb_spec c SLASH) as [-> | Hne]; simpl.
  - destruct (N.eqb_spec mid SPACE); [contradiction | reflexivity].
  - destruct (N.eqb_spec c SPACE); [contradiction | reflexivity].
Qed.

Lemma replace_slash_self a : replace SLASH [SLASH] a = a.
Proof.
  induction a as [|c a IH]; [reflexivity|].
  change (c :: a) with ([c] ++ a). rewrite replace_app, IH. f_equal.
  unfold replace. simpl. now destruct (N.eqb_spec c SLASH) as [-> | Hne].
Qed.

(** A rewrite of the slashes of a normalised text keeps its last
    character, so the pattern of [clean_art] finds nothing to remove. *)
Lemma re_sub_trailing_rewrite `{CaseMap} s b :
  re_sub_trailing (replace SLASH b (clean_art s)) = replace SLASH b (clean_art s).
Proof.
  destruct (clean_art_shape s) as (_ & [-> | (r & d & -> & Hd)]);
    [reflexivity|].
  assert (Hne : d <> SLASH) by (intros ->; discriminate Hd).
  rewrite (replace_last _ _ _ _ Hne). unfold re_sub_trailing.
  now apply rstrip_by_fixed.
Qed.

Lemma clean_art_of_rewrite `{CaseMap} s b :
  clean_art (replace SLASH b (clean_art s))
  = upper (replace SPACE [] (replace SLASH b (clean_art s))).
Proof. unfold clean_art at 1. now rewrite re_sub_trailing_rewrite. Qed.

(** X3.  Of the three rewrites of the slash in [process_articul], the one
    into a spaced slash always normalises back to the part number itself,
    and the one into a spaced hyphen gives the same text as the one into a
    plain hyphen; so the three of them add at most one new variant. *)
Theorem slash_rewrites_collapse `{CaseMap} (raw : pystr) :
  clean_art (replace SLASH [SPACE; SLASH; SPACE] (clean_art raw))
  = clean_art raw
  /\ clean_art (replace SLASH [SPACE; DASH; SPACE] (clean_art raw))
     = clean_art (replace SLASH [DASH] (clean_art raw)).
Proof.
  destruct (clean_art_shape raw) as (Hsp & _).
  rewrite !clean_art_of_rewrite. split.
  - rewrite (unspace_spaced_rewrite SLASH) by (discriminate || assumption).
    rewrite replace_slash_self. apply clean_art_upper_fixed.
  - rewrite (unspace_spaced_rewrite DASH) by (discriminate || assumption).
    f_equal. symmetry. apply replace_absent.
    unfold replace. rewrite in_flat_map. intros (c & Hc & Hin).
    destruct (N.eqb_spec c SLASH); simpl in Hin.
    + destruct Hin as [Hin | []]. discriminate Hin.
    + destruct Hin as [E | []]. rewrite E in Hc. contradiction.
Qed.

(** *** What the variant generator returns *)

Lemma set_add_NoDup x (s : pyset) : NoDup s -> NoDup (set_add x s).
Proof.
  intros Hnd. unfold set_add. destruct (set_mem x s) eqn:E; [assumption|].
  apply NoDup_app; [assumption | repeat constructor; tauto|].
  intros y Hy [<- | []].
  apply set_mem_In in Hy. congruence.
Qed.

Lemma variants_ok_add `{CaseMap} x variants :
  variants_ok variants -> clean_art x = x -> variants_ok (set_add x variants).
Proof.
  intros (Hnd & Hn) Hx. split; [now apply set_add_NoDup|].
  intros v Hv. apply set_add_In in Hv as [-> | Hv]; [assumption | now apply Hn].
Qed.

Lemma variants_ok_add_if `{CaseMap} b x variants :
  variants_ok variants -> clean_art x = x -> variants_ok (add_if b x variants).
Proof.
  intros Hok Hx. unfold add_if. destruct b; [now apply variants_ok_add | assumption].
Qed.

Lemma hyphen_variants_ok `{CaseMap} articul variants :
  variants_ok variants -> variants_ok (hyphen_variants articul variants).
Proof.
  intros Hok. unfold hyphen_variants.
  repeat match goal with
    | |- variants_ok (if ?b then _ else _) => destruct b
    | |- variants_ok (add_if _ _ _) =>
        apply variants_ok_add_if; [|apply clean_art_again]
    | |- variants_ok (set_add _ _) =>
        apply variants_ok_add; [|apply clean_art_again]
    | |- variants_ok (let _ := _ in _) => cbv zeta
    end; assumption.
Qed.

Lemma slash_variants_ok `{CaseMap} articul variants :
  variants_ok variants -> variants_ok (slash_variants articul variants).
Proof.
  intros Hok. unfold slash_variants.
  set (pieces := split SLASH articul). clearbody pieces.
  match goal with
  | |- variants_ok (fold_left _ _ ?start) =>
      assert (Hstart : variants_ok start)
        by (repeat (apply variants_ok_add_if; [|apply clean_art_again]);
            assumption);
      generalize dependent start
  end.
  induction pieces as [|q pieces IH]; intros start Hstart; simpl;
    [assumption|].
  apply IH. apply variants_ok_add_if; [assumption | apply clean_art_again].
Qed.

Lemma process_articul_ok `{CaseMap} (articul : cell) (original_art : pystr) :
  NoDup (process_articul articul original_art)
  /\ forall v, In v (process_articul articul original_art) ->
               is_valid_art v = true /\ clean_art v = v.
Proof.
  destruct articul as [raw|]; [|simpl; split; [constructor | intros ? []]].
  unfold process_articul. cbv zeta.
  match goal with
  | |- NoDup (filter _ ?V) /\ _ => assert (Hok : variants_ok V)
  end.
  { repeat match goal with
      | |- variants_ok (if ?b then _ else _) => destruct b
      | |- variants_ok (hyphen_variants _ _) => apply hyphen_variants_ok
      | |- variants_ok (slash_variants _ _) => apply slash_variants_ok
      | |- variants_ok (add_if _ _ _) =>
          apply variants_ok_add_if; [|apply clean_art_again]
      end; (split; [apply NoDup_nil | intros ? []]). }
  destruct Hok as (Hnd & Hn). split; [now apply NoDup_filter|].
  intros v Hv. apply filter_In in Hv as (Hv & Hvalid). split; [assumption|].
  now apply Hn.
Qed.

(** X4.  Whatever the part number and the original value, the list
    returned by [process_articul] holds no text twice, and every text in
    it is valid and already in normal form. *)
Theorem process_articul_variants `{CaseMap} (articul : cell)
    (original_art : pystr) :
  NoDup (process_articul articul original_art)
  /\ forall v, In v (process_articul articul original_art) ->
               is_valid_art v = true /\ clean_art v = v.
Proof. apply process_articul_ok. Qed.

(** *** What the extractor returns *)

Lemma articuls_ok_keep `{CaseMap} original_art s articuls :
  articuls_ok original_art articuls ->
  articuls_ok original_art (keep original_art (clean_art s) articuls).
Proof.
  intros Hok. unfold keep.
  destruct (is_valid_art (clean_art s)
            && negb (pystr_eqb (clean_art s) original_art)) eqn:E;
    [|assumption].
  apply andb_true_iff in E as (Hv & Hne).
  apply negb_true_iff, pystr_eqb_neq in Hne.
  intros v Hin. apply in_app_or in Hin as [Hin | [<- | []]];
    [now apply Hok|].
  repeat split; [assumption | apply clean_art_again | assumption].
Qed.

Lemma extract_brackets_ok `{CaseMap} text original_art articuls :
  articuls_ok original_art articuls ->
  articuls_ok original_art (extract_brackets text original_art articuls).
Proof.
  unfold extract_brackets. revert articuls.
  induction (findall bracket_match text) as [|m ms IH]; intros articuls Hok;
    simpl; [assumption|].
  apply IH. clear IH. revert articuls Hok.
  induction (split_by (fun c => (c =? SLASH)%N || (c =? SEMI)%N) m)
    as [|part parts IHp]; intros articuls Hok; simpl; [assumption|].
  apply IHp. destruct (search_art_run (strip part));
    [now apply articuls_ok_keep | assumption].
Qed.

Lemma extract_markers_ok `{CaseMap} text original_art articuls :
  articuls_ok original_art articuls ->
  articuls_ok original_art (extract_markers text original_art articuls).
Proof.
  unfold extract_markers. revert articuls.
  induction (findall art_match text) as [|m ms IH]; intros articuls Hok;
    simpl; [assumption|].
  apply IH. now apply articuls_ok_keep.
Qed.

Lemma extract_from_nomenclature_ok `{CaseMap} (nomenclature : cell)
    (original_art : pystr) :
  articuls_ok original_art
    (extract_from_nomenclature nomenclature original_art).
Proof.
  destruct nomenclature as [text|]; simpl; [|intros ? []].
  apply extract_markers_ok, extract_brackets_ok. intros ? [].
Qed.

(** X5.  Every part number that [extract_from_nomenclature] returns, from
    a bracketed group or from behind a marker, is valid, is in normal form
    and differs from the original value; a missing nomenclature gives
    nothing. *)
Theorem extract_from_nomenclature_results `{CaseMap} (nomenclature : cell)
    (original_art : pystr) :
  (forall v, In v (extract_from_nomenclature nomenclature original_art) ->
             is_valid_art v = true /\ clean_art v = v /\ v <> original_art)
  /\ (nomenclature = None ->
      extract_from_nomenclature nomenclature original_art = []).
Proof.
  split; [apply extract_from_nomenclature_ok | now intros ->].
Qed.

(** *** The additional part numbers of a record *)

Lemma str_leb_total x : forall y, str_leb x y = false -> str_leb y x = true.
Proof.
  induction x as [|a x IH]; intros [|b y]; simpl; try congruence.
  destruct (N.ltb_spec a b), (N.eqb_spec a b), (N.ltb_spec b a),
    (N.eqb_spec b a); simpl; intros Hxy; try lia; try congruence.
  now apply IH.
Qed.

Lemma str_leb_trans x : forall y z,
  str_leb x y = true -> str_leb y z = true -> str_leb x z = true.
Proof.
  induction x as [|a x IH]; intros [|b y] [|c z]; simpl; try congruence.
  destruct (N.ltb_spec a b), (N.eqb_spec a b), (N.ltb_spec b c),
    (N.eqb_spec b c), (N.ltb_spec a c), (N.eqb_spec a c);
    simpl; intros Hxy Hyz; try lia; try congruence.
  eapply IH; eassumption.
Qed.

Lemma key_le_total x y : ~ key_le x y -> key_le y x.
Proof.
  unfold key_le, key_leb. intros Hn.
  destruct (Nat.ltb_spec (length y) (length x)); simpl in Hn; [congruence|].
  destruct (Nat.ltb_spec (length x) (length y)); simpl; [reflexivity|].
  assert (E : length x = length y) by lia.
  rewrite E, Nat.eqb_refl in *. simpl in *.
  apply str_leb_total. now destruct (str_leb x y).
Qed.

Lemma key_le_trans x y z : key_le x y -> key_le y z -> key_le x z.
Proof.
  unfold key_le, key_leb.
  destruct (Nat.ltb_spec (length y) (length x)),
    (Nat.ltb_spec (length z) (length y)),
    (Nat.ltb_spec (length z) (length x)),
    (Nat.eqb_spec (length x) (length y)),
    (Nat.eqb_spec (length y) (length z)),
    (Nat.eqb_spec (length x) (length z));
    simpl; intros Hxy Hyz; try lia; try congruence.
  eapply str_leb_trans; eassumption.
Qed.

Lemma insert_sorted_sorted x l :
  StronglySorted key_le l -> StronglySorted key_le (insert_sorted x l).
Proof.
  induction l as [|y l IH]; intros Hs; simpl.
  - repeat constructor.
  - inversion Hs as [|? ? Hs' Hall]; subst.
    destruct (key_leb x y) eqn:E.
    + constructor; [assumption|]. constructor; [exact E|].
      eapply Forall_impl; [|exact Hall]. intros z Hz.
      now apply (key_le_trans x y z).
    + constructor; [now apply IH|].
      apply Forall_forall. intros z Hz.
      apply In_insert_sorted in Hz as [-> | Hz].
      * apply key_le_total. unfold key_le. congruence.
      * rewrite Forall_forall in Hall. now apply Hall.
Qed.

Lemma insert_sorted_NoDup x l :
  NoDup l -> ~ In x l -> NoDup (insert_sorted x l).
Proof.
  induction l as [|y l IH]; intros Hnd Hx; simpl.
  - repeat constructor. tauto.
  - destruct (key_leb x y); [now constructor|].
    inversion Hnd as [|? ? Hy Hnd']; subst.
    constructor.
    + rewrite In_insert_sorted. intros [-> | Hin]; [|contradiction].
      apply Hx. now left.
    + apply IH; [assumption|]. intros Hin. apply Hx. now right.
Qed.

Lemma sorted_by_key_sorted l : StronglySorted key_le (sorted_by_key l).
Proof.
  induction l as [|x l IH]; simpl; [constructor|].
  now apply insert_sorted_sorted.
Qed.

Lemma sorted_by_key_NoDup l : NoDup l -> NoDup (sorted_by_key l).
Proof.
  induction l as [|x l IH]; intros Hnd; simpl; [constructor|].
  inversion Hnd; subst.
  apply insert_sorted_NoDup; [now apply IH|]. now rewrite In_sorted_by_key.
Qed.

Lemma fold_add_unless_NoDup original arts : forall acc : pyset,
  NoDup acc ->
  NoDup (fold_left
           (fun acc art => add_if (negb (pystr_eqb art original)) art acc)
           arts acc).
Proof.
  induction arts as [|a arts IH]; intros acc Hnd; simpl; [assumption|].
  apply IH. unfold add_if.
  destruct (negb (pystr_eqb a original)); [now apply set_add_NoDup | assumption].
Qed.

Lemma fold_add_unless_iff original arts : forall (acc : pyset) y,
  In y (fold_left
          (fun acc art => add_if (negb (pystr_eqb art original)) art acc)
          arts acc)
  <-> (y <> original /\ In y arts) \/ In y acc.
Proof.
  induction arts as [|a arts IH]; intros acc y; simpl; [tauto|].
  rewrite IH, add_if_In, negb_true_iff, pystr_eqb_neq.
  split.
  - intros [(Hne & Hin) | [(Hne & ->) | Hin]]; auto.
  - intros [(Hne & [-> | Hin]) | Hin]; auto.
Qed.

Lemma process_articul_empty `{CaseMap} original_art :
  process_articul (Some []) original_art = [].
Proof.
  unfold process_articul. simpl.
  now destruct (negb (pystr_eqb (clean_art []) original_art)).
Qed.

Lemma process_row_ok `{CaseMap} (r : row) :
  let original_art :=
    match row_articul r with Some s => clean_art s | None => [] end in
  StronglySorted key_le (process_row r)
  /\ NoDup (process_row r)
  /\ forall v,
       In v (process_row r) <->
       v <> original_art
       /\ (In v (process_articul (row_articul r) original_art)
           \/ In v (extract_from_nomenclature (row_nomenclature r)
                      original_art)).
Proof.
  intros original_art. unfold process_row. fold original_art.
  split; [apply sorted_by_key_sorted|]. split.
  - apply sorted_by_key_NoDup, fold_add_unless_NoDup.
    destruct (truthy (row_articul r));
      [apply fold_add_unless_NoDup|]; constructor.
  - intros v. rewrite In_sorted_by_key, fold_add_unless_iff.
    assert (Hfirst :
      In v (if truthy (row_articul r)
            then fold_left
                   (fun acc art =>
                      add_if (negb (pystr_eqb art original_art)) art acc)
                   (process_articul (row_articul r) original_art) []
            else [])
      <-> v <> original_art
          /\ In v (process_articul (row_articul r) original_art)).
    { destruct (truthy (row_articul r)) eqn:Et.
      - rewrite fold_add_unless_iff. simpl. tauto.
      - destruct (row_articul r) as [s|]; [|discriminate Et].
        simpl in Et. apply negb_false_iff, pystr_eqb_eq in Et. subst s.
        rewrite process_articul_empty. simpl. tauto. }
    rewrite Hfirst. tauto.
Qed.

(** X6.  The additional part numbers of a record: [process_row] returns
    exactly the texts that [process_articul] or
    [extract_from_nomenclature] produce and that differ from the
    normalised main part number; each of them once, the longer before the
    shorter and texts of the same length in the order of their code
    points. *)
Theorem process_row_result `{CaseMap} (r : row) :
  let original_art :=
    match row_articul r with Some s => clean_art s | None => [] end in
  StronglySorted key_le (process_row r)
  /\ NoDup (process_row r)
  /\ forall v,
       In v (process_row r) <->
       v <> original_art
       /\ (In v (process_articul (row_articul r) original_art)
           \/ In v (extract_from_nomenclature (row_nomenclature r)
                      original_art)).
Proof. apply process_row_ok. Qed.

End SortArticMore.

(** ** More on [search_3.py] *)

Module SearchMore.
Import PyFacts DictFacts Search SearchSpec.

(** *** The look-up *)

(** X7.  [find_vtrac] only looks at the trimmed query: a query and its
    trimmed form give the same list, and a query that is empty or all
    white space gives the empty list. *)
Theorem find_vtrac_trims_query (f : finder) (article : pystr) :
  find_vtrac f article = find_vtrac f (strip article)
  /\ (strip article = [] -> find_vtrac f article = []).
Proof.
  unfold find_vtrac. rewrite strip_idem.
  destruct (pystr_eqb (strip article) []) eqn:E.
  - rewrite !orb_true_r. split; reflexivity.
  - rewrite !orb_false_r.
    destruct (pystr_eqb article []) eqn:Ea.
    + apply pystr_eqb_eq in Ea. subst article. discriminate E.
    + simpl. split; [reflexivity|]. intros Hs.
      rewrite Hs, pystr_eqb_refl in E. discriminate E.
Qed.

Lemma vtracs_ok_nil : vtracs_ok [].
Proof. split; [constructor | intros []]. Qed.

Lemma vtracs_ok_append b v found :
  vtracs_ok found ->
  (b = true -> v <> [] /\ ~ In v found) ->
  vtracs_ok (append_if b v found).
Proof.
  intros (Hnd & Hne) Hb. unfold append_if. destruct b; [|now split].
  destruct (Hb eq_refl) as (Hv & Hnew). split.
  - apply NoDup_app; [assumption | repeat constructor; tauto|].
    intros y Hy [<- | []]. contradiction.
  - intros Hin. apply in_app_or in Hin as [Hin | [Hin | []]];
      [contradiction | congruence].
Qed.

Lemma prefix_step_ok d article : forall found,
  vtracs_ok found -> vtracs_ok (prefix_step d article found).
Proof.
  unfold prefix_step.
  induction d as [|(k, v) d IH]; intros found Hok; simpl; [assumption|].
  apply IH. destruct (pystr_eqb k [] || pystr_eqb v []); [assumption|].
  apply vtracs_ok_append; [assumption|].
  intros Hb. apply andb_true_iff in Hb as (Hb & Hv).
  apply andb_true_iff in Hb as (_ & Hm).
  apply negb_true_iff in Hv, Hm. apply pystr_eqb_neq in Hv.
  split; [assumption|]. intros Hin. apply set_mem_In in Hin. congruence.
Qed.

Lemma find_vtrac_ok f article : vtracs_ok (find_vtrac f article).
Proof.
  unfold find_vtrac.
  destruct (pystr_eqb article [] || pystr_eqb (strip article) []);
    [apply vtracs_ok_nil|].
  cbv zeta. apply prefix_step_ok, prefix_step_ok.
  destruct (dict_get pystr_eqb (strip article) (analog_dict f)) as [w|].
  - apply vtracs_ok_append.
    + destruct (dict_get pystr_eqb (strip article) (article_dict f)) as [v|];
        [|apply vtracs_ok_nil].
      apply vtracs_ok_append; [apply vtracs_ok_nil|].
      intros Hb. apply andb_true_iff in Hb as (Hv & _).
      apply negb_true_iff, pystr_eqb_neq in Hv. split; [assumption | intros []].
    + intros Hb. apply andb_true_iff in Hb as (Hb & Hm).
      apply andb_true_iff in Hb as (Hw & _).
      apply negb_true_iff in Hw, Hm. apply pystr_eqb_neq in Hw.
      split; [assumption|]. intros Hin. apply set_mem_In in Hin. congruence.
  - destruct (dict_get pystr_eqb (strip article) (article_dict f)) as [v|];
      [|apply vtracs_ok_nil].
    apply vtracs_ok_append; [apply vtracs_ok_nil|].
    intros Hb. apply andb_true_iff in Hb as (Hv & _).
    apply negb_true_iff, pystr_eqb_neq in Hv. split; [assumption | intros []].
Qed.

(** X8.  Whatever the two dictionaries hold, the list returned by
    [find_vtrac] names no identifier twice and holds no empty text. *)
Theorem find_vtrac_no_repetition (f : finder) (article : pystr) :
  NoDup (find_vtrac f article) /\ ~ In [] (find_vtrac f article).
Proof. apply find_vtrac_ok. Qed.

Lemma startswith_refl k : startswith k k = true.
Proof. apply startswith_iff. exists []. now rewrite app_nil_r. Qed.

Lemma prefix_step_sound d article : forall found x,
  In x (prefix_step d article found) ->
  In x found
  \/ exists k v, In (k, v) d /\ x = strip v
                 /\ startswith (strip k) article = true.
Proof.
  unfold prefix_step.
  induction d as [|(k, v) d IH]; intros found x Hx; simpl in Hx; [now left|].
  apply IH in Hx as [Hx | (k' & v' & Hin & E & Hs)].
  - destruct (pystr_eqb k [] || pystr_eqb v []); [now left|].
    apply append_if_In in Hx as [(Hb & ->) | Hx]; [|now left].
    right. exists k, v. repeat split; [now left|].
    apply andb_true_iff in Hb as (Hb & _).
    now apply andb_true_iff in Hb as (Hb & _).
  - right. exists k', v'. repeat split; [now right | assumption..].
Qed.

Lemma prefix_step_extends d article : forall found,
  exists more, prefix_step d article found = found ++ more.
Proof.
  unfold prefix_step.
  induction d as [|(k, v) d IH]; intros found; simpl.
  - exists []. now rewrite app_nil_r.
  - match goal with
    | |- exists more, fold_left _ _ ?start = _ =>
        destruct (IH start) as (more & E);
        assert (Hs : exists one, start = found ++ one)
    end.
    { destruct (pystr_eqb k [] || pystr_eqb v []);
        [exists []; now rewrite app_nil_r|].
      unfold append_if.
      match goal with |- context [if ?b then _ else _] => destruct b end;
        [eexists; reflexivity | exists []; now rewrite app_nil_r]. }
    destruct Hs as (one & Hs). rewrite E, Hs. exists (one ++ more).
    now rewrite app_assoc.
Qed.

(** X9.  On the dictionaries built by [load_catalog], [find_vtrac]
    returns exactly the identifiers of the entries, primary or analog,
    whose key starts with the trimmed query, provided the trimmed query
    is not empty. *)
Theorem find_vtrac_exactly (catalog : list catalog_row) (article v : pystr) :
  In v (find_vtrac (load_catalog catalog) article)
  <-> strip article <> []
      /\ exists k,
           (In (k, v) (article_dict (load_catalog catalog))
            \/ In (k, v) (analog_dict (load_catalog catalog)))
           /\ startswith k (strip article) = true.
Proof.
  pose proof (load_catalog_ok catalog) as Hok.
  set (f := load_catalog catalog) in *.
  unfold find_vtrac.
  destruct (pystr_eqb (strip article) []) eqn:E.
  { rewrite orb_true_r. apply pystr_eqb_eq in E. split; [intros [] | tauto]. }
  assert (Ea : pystr_eqb article [] = false).
  { apply pystr_eqb_neq. intros ->. discriminate E. }
  rewrite Ea. simpl orb. cbv iota zeta. apply pystr_eqb_neq in E.
  set (key := strip article) in *. split.
  - intros Hin. split; [assumption|].
    apply prefix_step_sound in Hin as [Hin | (k & w & Hkw & -> & Hs)].
    2:{ destruct (Hok k w (or_intror Hkw)) as ((Hk & _) & (Hw & _)).
        rewrite Hk in Hs. rewrite Hw. exists k. auto. }
    apply prefix_step_sound in Hin as [Hin | (k & w & Hkw & -> & Hs)].
    2:{ destruct (Hok k w (or_introl Hkw)) as ((Hk & _) & (Hw & _)).
        rewrite Hk in Hs. rewrite Hw. exists k. auto. }
    exists key. split; [|apply startswith_refl].
    destruct (dict_get pystr_eqb key (analog_dict f)) as [w|] eqn:Ew.
    + apply append_if_In in Hin as [(_ & ->) | Hin].
      * right. eapply dict_get_In; [apply pystr_eqb_eq | eassumption].
      * destruct (dict_get pystr_eqb key (article_dict f)) as [u|] eqn:Eu;
          [|destruct Hin].
        apply append_if_In in Hin as [(_ & ->) | []].
        left. eapply dict_get_In; [apply pystr_eqb_eq | eassumption].
    + destruct (dict_get pystr_eqb key (article_dict f)) as [u|] eqn:Eu;
        [|destruct Hin].
      apply append_if_In in Hin as [(_ & ->) | []].
      left. eapply dict_get_In; [apply pystr_eqb_eq | eassumption].
  - intros (_ & k & Hin & Hs).
    destruct (Hok k v Hin) as (Hk & Hv).
    destruct Hin as [Hin | Hin].
    + apply prefix_step_mono. now apply (prefix_step_hit _ _ k v).
    + now apply (prefix_step_hit _ _ k v).
Qed.

(** X10.  An exact match comes first.  On the dictionaries built by
    [load_catalog], when the trimmed query is a key of the primary
    mapping, the list returned by [find_vtrac] starts with the identifier
    stored under it; when it is a key of the analog mapping only, the
    list starts with that identifier. *)
Theorem find_vtrac_exact_first (catalog : list catalog_row)
    (article : pystr) :
  (forall v,
      dict_get pystr_eqb (strip article)
        (article_dict (load_catalog catalog)) = Some v ->
      exists more, find_vtrac (load_catalog catalog) article = v :: more)
  /\ (forall w,
        dict_get pystr_eqb (strip article)
          (article_dict (load_catalog catalog)) = None ->
        dict_get pystr_eqb (strip article)
          (analog_dict (load_catalog catalog)) = Some w ->
        exists more, find_vtrac (load_catalog catalog) article = w :: more).
Proof.
  pose proof (load_catalog_ok catalog) as Hok.
  set (f := load_catalog catalog) in *.
  assert (Hstored : forall d u,
            (d = article_dict f \/ d = analog_dict f) ->
            dict_get pystr_eqb (strip article) d = Some u ->
            pystr_eqb article [] = false
            /\ pystr_eqb (strip article) [] = false
            /\ pystr_eqb u [] = false /\ pystr_eqb (strip u) [] = false).
  { intros d u Hd Hget.
    apply (dict_get_In _ _ _ pystr_eqb_eq) in Hget.
    assert (Hs : stored_text (strip article) /\ stored_text u).
    { apply Hok. destruct Hd as [-> | ->]; [now left | now right]. }
    destruct Hs as ((_ & Hk & _) & (Hu & Hu0 & _)).
    repeat split; apply pystr_eqb_neq; try assumption.
    - intros ->. now apply Hk.
    - now rewrite Hu. }
  split.
  - intros v Hget.
    destruct (Hstored _ v (or_introl eq_refl) Hget) as (E1 & E2 & E3 & E4).
    unfold find_vtrac. rewrite E1, E2, Hget, E3, E4. simpl orb. cbv iota zeta.
    simpl negb. simpl andb. unfold append_if at 2. cbv iota.
    match goal with
    | |- exists more, prefix_step _ _ (prefix_step _ _ ?start) = _ =>
        assert (Hs : exists one, start = [v] ++ one)
    end.
    { destruct (dict_get pystr_eqb (strip article) (analog_dict f));
        [|exists []; reflexivity].
      unfold append_if.
      match goal with |- context [if ?b then _ else _] => destruct b end;
        [eexists; reflexivity | exists []; reflexivity]. }
    destruct Hs as (one & ->).
    destruct (prefix_step_extends (article_dict f) (strip article)
                ([v] ++ one)) as (m1 & ->).
    destruct (prefix_step_extends (analog_dict f) (strip article)
                (([v] ++ one) ++ m1)) as (m2 & ->).
    eexists. simpl. reflexivity.
  - intros w Hnone Hget.
    destruct (Hstored _ w (or_intror eq_refl) Hget) as (E1 & E2 & E3 & E4).
    unfold find_vtrac. rewrite E1, E2, Hnone, Hget, E3, E4.
    simpl orb. cbv iota zeta. simpl.
    destruct (prefix_step_extends (article_dict f) (strip article) [w])
      as (m1 & ->).
    destruct (prefix_step_extends (analog_dict f) (strip article)
                ([w] ++ m1)) as (m2 & ->).
    eexists. simpl. reflexivity.
Qed.

Lemma find_vtrac_exact_first_witness :
  exists more,
    find_vtrac (load_catalog catalog_dup) (str " AB-100") = str "V2" :: more.
Proof.
  apply (proj1 (find_vtrac_exact_first catalog_dup (str " AB-100"))).
  reflexivity.
Defined.

(** *** The matcher *)

Lemma process_row_steps f r : process_row f r = fold_left (row_step f) r [].
Proof.
  unfold process_row. generalize (@nil pystr).
  induction r as [|c r IH]; intros found; simpl; [reflexivity|].
  rewrite IH. f_equal. unfold row_step, field_key, merge_new.
  destruct c as [a|]; [|reflexivity].
  now destruct (pystr_eqb (strip a) []).
Qed.

Lemma fold_row_step_keys f r : forall found,
  fold_left (row_step f) r found
  = fold_left (fun found k => merge_new (find_vtrac f k) found)
      (searched_keys r) found.
Proof.
  induction r as [|c r IH]; intros found; simpl; [reflexivity|].
  rewrite fold_left_app, IH. f_equal. unfold row_step.
  now destruct (field_key c).
Qed.

Lemma merge_new_In vtracs : forall found x,
  In x (merge_new vtracs found) <-> In x found \/ (In x vtracs /\ x <> []).
Proof.
  unfold merge_new.
  induction vtracs as [|v vtracs IH]; intros found x; simpl; [tauto|].
  rewrite IH, append_if_In. split.
  - intros [[(Hb & ->) | Hin] | (Hin & Hne)]; auto.
    apply andb_true_iff in Hb as (Hb & _).
    apply negb_true_iff, pystr_eqb_neq in Hb. auto.
  - intros [Hin | ([E0 | Hin] & Hne)]; auto. subst v.
    destruct (set_mem x found) eqn:E.
    + apply set_mem_In in E. auto.
    + left. left. split; [|reflexivity].
      apply pystr_eqb_neq in Hne. now rewrite Hne.
Qed.

Lemma merge_new_ok vtracs : forall found,
  vtracs_ok found -> vtracs_ok (merge_new vtracs found).
Proof.
  unfold merge_new.
  induction vtracs as [|v vtracs IH]; intros found Hok; simpl; [assumption|].
  apply IH, vtracs_ok_append; [assumption|].
  intros Hb. apply andb_true_iff in Hb as (Hv & Hm).
  apply negb_true_iff in Hv, Hm. apply pystr_eqb_neq in Hv.
  split; [assumption|]. intros Hin. apply set_mem_In in Hin. congruence.
Qed.

Lemma merge_new_extends vtracs : forall found,
  exists more, merge_new vtracs found = found ++ more.
Proof.
  unfold merge_new.
  induction vtracs as [|v vtracs IH]; intros found; simpl.
  - exists []. now rewrite app_nil_r.
  - destruct (IH (append_if (negb (pystr_eqb v [])
                             && negb (set_mem v found)) v found))
      as (more & ->).
    unfold append_if.
    destruct (negb (pystr_eqb v []) && negb (set_mem v found)).
    + exists ([v] ++ more). now rewrite app_assoc.
    + now exists more.
Qed.

(** Fresh identifiers, none of them empty or repeated, are all taken, in
    their order. *)
Lemma merge_new_fresh vtracs : forall found,
  vtracs_ok (found ++ vtracs) -> merge_new vtracs found = found ++ vtracs.
Proof.
  unfold merge_new.
  induction vtracs as [|v vtracs IH]; intros found Hok; simpl.
  - now rewrite app_nil_r.
  - destruct Hok as (Hnd & Hne).
    assert (Hv : v <> []).
    { intros ->. apply Hne. apply in_or_app. right. now left. }
    assert (Hnew : ~ In v found).
    { intros Hin. apply NoDup_remove_2 in Hnd. apply Hnd.
      apply in_or_app. now left. }
    apply pystr_eqb_neq in Hv. rewrite Hv. simpl.
    destruct (set_mem v found) eqn:E; [apply set_mem_In in E; contradiction|].
    simpl. rewrite IH; [now rewrite <- app_assoc|].
    rewrite <- app_assoc. now split.
Qed.

Lemma fold_merge_ok f keys : forall found,
  vtracs_ok found ->
  vtracs_ok (fold_left (fun found k => merge_new (find_vtrac f k) found)
               keys found).
Proof.
  induction keys as [|k keys IH]; intros found Hok; simpl; [assumption|].
  now apply IH, merge_new_ok.
Qed.

Lemma fold_merge_In f keys : forall found x,
  In x (fold_left (fun found k => merge_new (find_vtrac f k) found)
          keys found)
  <-> In x found \/ exists k, In k keys /\ In x (find_vtrac f k).
Proof.
  induction keys as [|k keys IH]; intros found x; simpl.
  - split; [auto | intros [? | (k & [] & _)]; assumption].
  - rewrite IH, merge_new_In. split.
    + intros [[Hin | (Hin & _)] | (k' & Hk & Hin)]; eauto.
    + intros [Hin | (k' & [<- | Hk] & Hin)]; eauto.
      left. right. split; [assumption|].
      intros ->. now apply (proj2 (find_vtrac_ok f k)).
Qed.

Lemma fold_merge_extends f keys : forall found,
  exists more,
    fold_left (fun found k => merge_new (find_vtrac f k) found) keys found
    = found ++ more.
Proof.
  induction keys as [|k keys IH]; intros found; simpl.
  - exists []. now rewrite app_nil_r.
  - destruct (merge_new_extends (find_vtrac f k) found) as (m1 & ->).
    destruct (IH (found ++ m1)) as (m2 & ->).
    exists (m1 ++ m2). now rewrite app_assoc.
Qed.

(** X11.  The candidate list of a record names no identifier twice and
    holds no empty text, and an identifier is in it exactly when
    [find_vtrac] returns it for one of the keys looked up, which are the
    trimmed, non-blank fields of the record. *)
Theorem process_row_candidates (f : finder) (r : list cell) :
  NoDup (process_row f r)
  /\ ~ In [] (process_row f r)
  /\ forall v,
       In v (process_row f r)
       <-> exists k, In k (searched_keys r) /\ In v (find_vtrac f k).
Proof.
  rewrite process_row_steps, fold_row_step_keys.
  destruct (fold_merge_ok f (searched_keys r) [] vtracs_ok_nil) as (Hnd & Hne).
  split; [assumption|]. split; [assumption|].
  intros v. rewrite fold_merge_In. simpl. tauto.
Qed.

Lemma field_key_of_key c k : field_key c = Some k -> field_key (Some k) = Some k.
Proof.
  unfold field_key. destruct c as [a|]; [|discriminate].
  destruct (pystr_eqb (strip a) []) eqn:E; [discriminate|].
  intros [= <-]. now rewrite strip_idem, E.
Qed.

Lemma searched_keys_app a b :
  searched_keys (a ++ b) = searched_keys a ++ searched_keys b.
Proof. unfold searched_keys. apply flat_map_app. Qed.

Lemma searched_keys_cons c r :
  searched_keys (c :: r)
  = match field_key c with Some k => [k] | None => [] end ++ searched_keys r.
Proof. reflexivity. Qed.

Lemma searched_keys_again r :
  searched_keys (map Some (searched_keys r)) = searched_keys r.
Proof.
  induction r as [|c r IH]; [reflexivity|].
  rewrite searched_keys_cons, map_app, searched_keys_app, IH. f_equal.
  destruct (field_key c) as [k|] eqn:E; [|reflexivity].
  simpl map. rewrite searched_keys_cons, (field_key_of_key _ _ E).
  reflexivity.
Qed.

(** X12.  Only the keys count, and they count in the order of the
    fields: a record gives the same candidate list as the record made of
    its trimmed, non-blank fields alone, and the list starts with all
    that [find_vtrac] returns for the first of these fields. *)
Theorem process_row_field_order (f : finder) (r : list cell) :
  process_row f r = process_row f (map Some (searched_keys r))
  /\ (forall k keys,
        searched_keys r = k :: keys ->
        exists more, process_row f r = find_vtrac f k ++ more)
  /\ (searched_keys r = [] -> process_row f r = []).
Proof.
  rewrite !process_row_steps, !fold_row_step_keys, searched_keys_again.
  split; [reflexivity|]. split.
  - intros k keys ->. simpl.
    rewrite (merge_new_fresh (find_vtrac f k) []) by apply find_vtrac_ok.
    apply fold_merge_extends.
  - now intros ->.
Qed.

Lemma process_row_field_order_witness :
  exists more,
    process_row (load_catalog catalog_v2) (record_of (str " AB-100 "))
    = find_vtrac (load_catalog catalog_v2) (str "AB-100") ++ more.
Proof.
  apply (proj1 (proj2 (process_row_field_order (load_catalog catalog_v2)
                         (record_of (str " AB-100 "))))
           (str "AB-100") []).
  reflexivity.
Defined.

(** *** The dictionaries *)

Lemma load_row_keys f r :
  NoDup (map fst (article_dict f)) /\ NoDup (map fst (analog_dict f)) ->
  NoDup (map fst (article_dict (load_row f r)))
  /\ NoDup (map fst (analog_dict (load_row f r))).
Proof.
  intros (H1 & H2). unfold load_row. simpl. split.
  - destruct (usable (cell_text (cat_article r))
              && usable (cell_text (cat_vtrac r)));
      [apply (dict_set_keys _ _ _ pystr_eqb_eq) |]; assumption.
  - destruct (usable (cell_text (cat_analog r))
              && usable (cell_text (cat_vtrac r)));
      [apply (dict_set_keys _ _ _ pystr_eqb_eq) |]; assumption.
Qed.

Lemma load_catalog_keys catalog :
  NoDup (map fst (article_dict (load_catalog catalog)))
  /\ NoDup (map fst (analog_dict (load_catalog catalog))).
Proof.
  unfold load_catalog.
  assert (H0 : NoDup (map fst (article_dict
                                 {| article_dict := []; analog_dict := [] |}))
               /\ NoDup (map fst (analog_dict
                                    {| article_dict := [];
                                       analog_dict := [] |})))
    by (split; constructor).
  revert H0. generalize {| article_dict := []; analog_dict := [] |}.
  induction catalog as [|r catalog IH]; intros f Hf; simpl; [assumption|].
  apply IH. now apply load_row_keys.
Qed.

(** X13.  Each mapping built by [load_catalog] holds every key once, so
    that a pair is in the mapping exactly when looking up its key gives
    its identifier. *)
Theorem load_catalog_keys_unique (catalog : list catalog_row) :
  NoDup (map fst (article_dict (load_catalog catalog)))
  /\ NoDup (map fst (analog_dict (load_catalog catalog)))
  /\ forall k v,
       (In (k, v) (article_dict (load_catalog catalog))
        <-> dict_get pystr_eqb k (article_dict (load_catalog catalog))
            = Some v)
       /\ (In (k, v) (analog_dict (load_catalog catalog))
           <-> dict_get pystr_eqb k (analog_dict (load_catalog catalog))
               = Some v).
Proof.
  destruct (load_catalog_keys catalog) as (H1 & H2).
  split; [assumption|]. split; [assumption|].
  intros k v. split; split;
    try apply (dict_get_In _ _ _ pystr_eqb_eq);
    apply (In_dict_get _ _ _ pystr_eqb_eq); assumption.
Qed.

(** *** The new columns *)

Lemma column_cell_nth_error i (r : list pystr) :
  (if negb (match r with [] => true | _ => false end) && (i <? length r)
   then Some (nth i r [])
   else None)
  = nth_error r i.
Proof.
  destruct (Nat.ltb_spec i (length r)) as [Hlt | Hge].
  - destruct r as [|x r]; [simpl in Hlt; lia|]. simpl negb. simpl andb.
    symmetry. now apply nth_error_nth'.
  - rewrite andb_false_r. symmetry. now apply nth_error_None.
Qed.

Lemma vtrac_column_nth i results j :
  nth j (vtrac_column i results) None = nth_error (nth j results []) i.
Proof.
  unfold vtrac_column. rewrite <- column_cell_nth_error.
  set (g := fun r : list pystr =>
              if negb (match r with [] => true | _ => false end)
                 && (i <? length r)
              then Some (nth i r []) else None).
  change (@None pystr) with (g []). apply map_nth.
Qed.

Lemma map_nth_error_seq (r : list pystr) : forall n,
  map (nth_error r) (seq 0 n)
  = map Some (firstn n r) ++ repeat None (n - length r).
Proof.
  induction r as [|x r IH]; intros n.
  - rewrite firstn_nil. simpl. rewrite Nat.sub_0_r.
    rewrite <- (length_seq n 0) at 2.
    induction (seq 0 n) as [|i l IHl]; [reflexivity|].
    simpl. rewrite IHl. now destruct i.
  - destruct n as [|n]; [reflexivity|].
    simpl. f_equal. rewrite <- seq_shift, map_map. simpl. apply IH.
Qed.

Lemma present_filled (l : list pystr) n :
  End4.present (map Some l ++ repeat None n) = l.
Proof.
  induction l as [|x l IH].
  - induction n as [|n IHn]; [reflexivity | exact IHn].
  - simpl. f_equal. exact IH.
Qed.

(** X14.  The columns [vtrac_1] to [vtrac_5] built by [process_dataframe]
    have one cell for each line of the table; the cells of a line are its
    first five candidates, in their order, followed by missing cells, and
    candidates beyond the fifth are dropped.  Read back as [end_4.py]
    reads the identifier slots, they give the first five candidates. *)
Theorem process_dataframe_slots (f : finder) (table : list (list cell))
    (j : nat) :
  length (process_dataframe f table) = 5
  /\ (forall column, In column (process_dataframe f table) ->
                     length column = length table)
  /\ slots_of_line (process_dataframe f table) j
     = map Some (firstn 5 (process_row f (nth j table [])))
       ++ repeat None (5 - length (process_row f (nth j table [])))
  /\ End4.present (slots_of_line (process_dataframe f table) j)
     = firstn 5 (process_row f (nth j table [])).
Proof.
  assert (Hslots :
    slots_of_line (process_dataframe f table) j
    = map Some (firstn 5 (process_row f (nth j table [])))
      ++ repeat None (5 - length (process_row f (nth j table [])))).
  { unfold slots_of_line, process_dataframe. rewrite map_map.
    rewrite (map_ext _ (nth_error (process_row f (nth j table [])))).
    - apply map_nth_error_seq.
    - intros i. rewrite vtrac_column_nth. f_equal.
      change (@nil pystr) with (process_row f []). apply map_nth. }
  split; [unfold process_dataframe; now rewrite length_map, length_seq|].
  split.
  - unfold process_dataframe. intros column Hin.
    apply in_map_iff in Hin as (i & <- & _).
    unfold vtrac_column. now rewrite !length_map.
  - split; [exact Hslots|]. rewrite Hslots. apply present_filled.
Qed.

End SearchMore.

(** ** More on [end_4.py] *)

Module End4More.
Import PyFacts DictFacts End4 End4Spec SortArticMore.

(** *** Sets *)

Lemma set_update_In xs : forall (s : pyset) x,
  In x (set_update xs s) <-> In x xs \/ In x s.
Proof.
  unfold set_update.
  induction xs as [|y xs IH]; intros s x; simpl; [tauto|].
  rewrite IH, set_add_In. intuition congruence.
Qed.

Lemma set_update_NoDup xs : forall s : pyset,
  NoDup s -> NoDup (set_update xs s).
Proof.
  unfold set_update.
  induction xs as [|y xs IH]; intros s Hs; simpl; [assumption|].
  now apply IH, set_add_NoDup.
Qed.

Lemma present_any_notna cells v : In v (present cells) -> any_notna cells = true.
Proof.
  induction cells as [|[s|] cells IH]; simpl; [tauto | reflexivity | exact IH].
Qed.

Lemma any_notna_false cells :
  any_notna cells = false -> cells = repeat None (length cells).
Proof.
  induction cells as [|[s|] cells IH]; simpl; [reflexivity | discriminate|].
  intros H. f_equal. now apply IH.
Qed.

(** *** The mapping from part numbers to identifiers *)

Lemma mapped_set_same mapping art vs :
  mapped (dict_set pystr_eqb art vs mapping) art = vs.
Proof.
  unfold mapped. now rewrite (dict_get_set_same _ _ _ pystr_eqb_eq).
Qed.

Lemma mapped_set_other mapping a art vs :
  art <> a -> mapped (dict_set pystr_eqb a vs mapping) art = mapped mapping art.
Proof.
  intros Hne. unfold mapped.
  now rewrite (dict_get_set_other _ _ _ pystr_eqb_eq).
Qed.

Lemma mapping_of_row vtracs arts : forall mapping art v,
  In v (mapped
          (fold_left
             (fun mapping art =>
                let old :=
                  match dict_get pystr_eqb art mapping with
                  | Some vs => vs
                  | None => []
                  end in
                dict_set pystr_eqb art (set_update vtracs old) mapping)
             arts mapping) art)
  <-> In v (mapped mapping art) \/ (In art arts /\ In v vtracs).
Proof.
  induction arts as [|a arts IH]; intros mapping art v; simpl; [tauto|].
  rewrite IH. fold (mapped mapping a).
  destruct (pystr_eq_dec art a) as [-> | Hne].
  - rewrite mapped_set_same, set_update_In. tauto.
  - rewrite (mapped_set_other _ _ _ _ Hne). intuition congruence.
Qed.

Lemma mapping_of_rows rows : forall mapping art v,
  In v (mapped
          (fold_left
             (fun mapping r =>
                let articuls : pyset :=
                  set_update (present (articul_cols r)) [] in
                let vtracs := present (vtrac_cols r) in
                fold_left
                  (fun mapping art =>
                     let old :=
                       match dict_get pystr_eqb art mapping with
                       | Some vs => vs
                       | None => []
                       end in
                     dict_set pystr_eqb art (set_update vtracs old) mapping)
                  articuls mapping)
             rows mapping) art)
  <-> In v (mapped mapping art)
      \/ exists r, In r rows /\ In art (present (articul_cols r))
                   /\ In v (present (vtrac_cols r)).
Proof.
  induction rows as [|r rows IH]; intros mapping art v; simpl.
  - split; [auto | intros [H | (r & [] & _)]; exact H].
  - rewrite IH. cbv zeta. rewrite mapping_of_row, set_update_In. split.
    + intros [[H | ([Ha | []] & Hv)] | (r' & Hr' & H)]; eauto 6.
    + intros [H | (r' & [<- | Hr'] & Ha & Hv)]; eauto 6.
Qed.

Lemma prepare_articul_mapping_rows (df : dataframe) (art v : pystr) :
  In v (mapped (prepare_articul_mapping df) art)
  <-> exists r, In r df /\ In art (present (articul_cols r))
                /\ In v (present (vtrac_cols r)).
Proof.
  unfold prepare_articul_mapping. rewrite mapping_of_rows. split.
  - intros [[] | (r & Hr & H)]. apply filter_In in Hr as (Hr & _). eauto.
  - intros (r & Hr & Ha & Hv). right. exists r. repeat split; try assumption.
    apply filter_In. split; [assumption|]. eapply present_any_notna; eassumption.
Qed.

(** X15.  The mapping built by [prepare_articul_mapping] holds the
    identifier [v] for the part number [art] exactly when some line of
    the table lists [art] among its part numbers and [v] among its
    identifiers. *)
Theorem prepare_articul_mapping_exactly (df : dataframe) (art v : pystr) :
  In v (mapped (prepare_articul_mapping df) art)
  <-> exists r, In r df /\ In art (present (articul_cols r))
                /\ In v (present (vtrac_cols r)).
Proof. apply prepare_articul_mapping_rows. Qed.

(** *** What is found for a line *)

Lemma found_fold (mapping : dict pystr pyset) arts : forall (found : pyset) v,
  In v (fold_left
          (fun found art =>
             match dict_get pystr_eqb art mapping with
             | Some vs => set_update vs found
             | None => found
             end)
          arts found)
  <-> In v found \/ exists art, In art arts /\ In v (mapped mapping art).
Proof.
  induction arts as [|a arts IH]; intros found v; simpl.
  - split; [auto | intros [H | (a & [] & _)]; exact H].
  - rewrite IH.
    assert (Hm : In v (match dict_get pystr_eqb a mapping with
                       | Some vs => set_update vs found
                       | None => found
                       end)
                 <-> In v found \/ In v (mapped mapping a)).
    { unfold mapped. destruct (dict_get pystr_eqb a mapping).
      - rewrite set_update_In. split; intros [H | H]; auto.
      - split; [auto | intros [H | []]; exact H]. }
    rewrite Hm. split.
    + intros [[H | H] | (a' & Ha' & H)]; eauto.
    + intros [H | (a' & [<- | Ha'] & H)]; eauto.
Qed.

Lemma found_fold_NoDup (mapping : dict pystr pyset) arts :
  forall found : pyset,
  NoDup found ->
  NoDup (fold_left
           (fun found art =>
              match dict_get pystr_eqb art mapping with
              | Some vs => set_update vs found
              | None => found
              end)
           arts found).
Proof.
  induction arts as [|a arts IH]; intros found Hnd; simpl; [assumption|].
  apply IH. destruct (dict_get pystr_eqb a mapping);
    [now apply set_update_NoDup | assumption].
Qed.

(** X16.  For a line of the table, the search of task 1 finds exactly
    the identifiers of the lines that share a part number with it, each
    once: [v] is found for the line [r] exactly when some line of the
    table has [v] among its identifiers and a part number in common with
    [r]. *)
Theorem found_vtracs_exactly (df : dataframe) (r : row) :
  NoDup (found_vtracs_of (prepare_articul_mapping df) r)
  /\ forall v,
       In v (found_vtracs_of (prepare_articul_mapping df) r)
       <-> exists art r',
             In art (present (articul_cols r))
             /\ In r' df /\ In art (present (articul_cols r'))
             /\ In v (present (vtrac_cols r')).
Proof.
  unfold found_vtracs_of. split; [apply found_fold_NoDup; constructor|].
  intros v. rewrite found_fold. split.
  - intros [[] | (art & Ha & Hv)].
    apply set_update_In in Ha as [Ha | []].
    apply prepare_articul_mapping_rows in Hv as (r' & H).
    exists art, r'. tauto.
  - intros (art & r' & Ha & Hr' & Ha' & Hv). right. exists art. split.
    + apply set_update_In. now left.
    + apply prepare_articul_mapping_rows. eauto.
Qed.

(** *** The entries of a search *)

Lemma row_entry_perm {order : SetOrder} (mapping : dict pystr pyset)
    idx r vtracs :
  row_entry mapping idx r = Some vtracs ->
  Permutation vtracs (found_vtracs_of mapping r).
Proof.
  unfold row_entry. destruct (any_notna (vtrac_cols r)); [discriminate|].
  destruct (found_vtracs_of mapping r) as [|v vs]; [discriminate|].
  intros [= <-]. apply list_of_set_perm.
Qed.

Lemma row_entry_nonempty {order : SetOrder} (mapping : dict pystr pyset)
    idx r :
  row_entry mapping idx r <> Some [].
Proof.
  intros H. pose proof (row_entry_perm _ _ _ _ H) as Hp.
  apply Permutation_nil in Hp.
  unfold row_entry in H. destruct (any_notna (vtrac_cols r)); [discriminate|].
  destruct (found_vtracs_of mapping r); [discriminate H | discriminate Hp].
Qed.

Lemma matching_loop_step {order : SetOrder} df (mapping : dict pystr pyset)
    idx rest results :
  matching_loop df mapping (idx :: rest) results
  = match nth_error df idx with
    | None => results
    | Some r =>
        matching_loop df mapping rest
          match row_entry mapping idx r with
          | Some vs => dict_set Nat.eqb idx vs results
          | None => results
          end
    end.
Proof.
  simpl. destruct (nth_error df idx) as [r|]; [|reflexivity].
  unfold row_entry. fold (found_vtracs_of mapping r).
  destruct (any_notna (vtrac_cols r)); [reflexivity|].
  now destruct (found_vtracs_of mapping r).
Qed.

Lemma matching_loop_seq {order : SetOrder} df (mapping : dict pystr pyset)
    n :
  forall start results idx,
  (forall i, start <= i -> dict_get Nat.eqb i results = None) ->
  dict_get Nat.eqb idx (matching_loop df mapping (seq start n) results)
  = if (start <=? idx) && (idx <? start + n)
    then match nth_error df idx with
         | Some r => row_entry mapping idx r
         | None => None
         end
    else dict_get Nat.eqb idx results.
Proof.
  induction n as [|n IH]; intros start results idx Hfree.
  - simpl. destruct (Nat.leb_spec start idx), (Nat.ltb_spec idx (start + 0));
      simpl; try reflexivity; lia.
  - change (seq start (S n)) with (start :: seq (S start) n).
    rewrite matching_loop_step.
    destruct (nth_error df start) as [r|] eqn:Er.
    + rewrite IH.
      * destruct (Nat.eq_dec idx start) as [-> | Hne].
        -- rewrite Er.
           replace (S start <=? start) with false
             by (symmetry; apply Nat.leb_gt; lia).
           replace (start <=? start) with true
             by (symmetry; apply Nat.leb_le; lia).
           replace (start <? start + S n) with true
             by (symmetry; apply Nat.ltb_lt; lia).
           simpl. destruct (row_entry mapping start r).
           ++ apply (dict_get_set_same _ _ _ nat_eqb_spec).
           ++ apply Hfree. lia.
        -- assert (E : dict_get Nat.eqb idx
                         match row_entry mapping start r with
                         | Some vs => dict_set Nat.eqb start vs results
                         | None => results
                         end = dict_get Nat.eqb idx results).
           { destruct (row_entry mapping start r); [|reflexivity].
             now apply (dict_get_set_other _ _ _ nat_eqb_spec). }
           rewrite E.
           destruct (Nat.leb_spec (S start) idx), (Nat.leb_spec start idx),
             (Nat.ltb_spec idx (S start + n)),
             (Nat.ltb_spec idx (start + S n)); simpl; try reflexivity; lia.
      * intros i Hi. destruct (row_entry mapping start r); [|apply Hfree; lia].
        rewrite (dict_get_set_other _ _ _ nat_eqb_spec) by lia.
        apply Hfree. lia.
    + destruct (Nat.leb_spec start idx), (Nat.ltb_spec idx (start + S n));
        simpl; try reflexivity.
      assert (Hn : nth_error df idx = None).
      { apply nth_error_None. apply nth_error_None in Er. lia. }
      rewrite Hn. now apply Hfree.
Qed.

Lemma process_vtrac_matching_get {order : SetOrder} df
    (mapping : dict pystr pyset) start_idx end_idx idx :
  dict_get Nat.eqb idx (process_vtrac_matching df mapping start_idx end_idx)
  = if in_range (start_idx, end_idx) idx
    then match nth_error df idx with
         | Some r => row_entry mapping idx r
         | None => None
         end
    else None.
Proof.
  unfold process_vtrac_matching. rewrite matching_loop_seq by reflexivity.
  unfold in_range. simpl.
  destruct (Nat.leb_spec start_idx idx),
    (Nat.ltb_spec idx (start_idx + (end_idx - start_idx))),
    (Nat.ltb_spec idx end_idx); simpl; try reflexivity; lia.
Qed.

Lemma matching_loop_keys {order : SetOrder} df (mapping : dict pystr pyset)
    idxs :
  forall results,
  NoDup (map fst results) ->
  NoDup (map fst (matching_loop df mapping idxs results)).
Proof.
  induction idxs as [|idx idxs IH]; intros results Hnd; [assumption|].
  rewrite matching_loop_step.
  destruct (nth_error df idx) as [r|]; [|assumption].
  apply IH. destruct (row_entry mapping idx r); [|assumption].
  now apply (dict_set_keys _ _ _ nat_eqb_spec).
Qed.

(** X17.  The result of [process_vtrac_matching] for a range holds an
    entry for an index exactly when the index lies in the range and in
    the table, the line has no identifier yet, and something is found for
    it; the entry is then [list(found_vtracs)], the identifiers found as
    the run arranges them, so it holds each of them once and nothing
    else, in an order that is left open.  Every index has at most one
    entry. *)
Theorem process_vtrac_matching_entries {order : SetOrder} (df : dataframe)
    (mapping : dict pystr pyset) (start_idx end_idx idx : nat) :
  dict_get Nat.eqb idx (process_vtrac_matching df mapping start_idx end_idx)
  = (if (start_idx <=? idx) && (idx <? end_idx)
     then match nth_error df idx with
          | Some r =>
              if any_notna (vtrac_cols r) then None
              else match found_vtracs_of mapping r with
                   | [] => None
                   | vs => Some (list_of_set idx vs)
                   end
          | None => None
          end
     else None)
  /\ (forall vtracs,
        dict_get Nat.eqb idx
          (process_vtrac_matching df mapping start_idx end_idx)
        = Some vtracs ->
        exists r, nth_error df idx = Some r
                  /\ Permutation vtracs (found_vtracs_of mapping r))
  /\ NoDup (map fst (process_vtrac_matching df mapping start_idx end_idx)).
Proof.
  split; [apply process_vtrac_matching_get|]. split.
  - intros vtracs. rewrite process_vtrac_matching_get.
    destruct (in_range (start_idx, end_idx) idx); [|discriminate].
    destruct (nth_error df idx) as [r|]; [|discriminate].
    intros Hentry. exists r. split; [reflexivity|].
    now apply row_entry_perm with (idx := idx).
  - apply matching_loop_keys. constructor.
Qed.

(** *** Writing back *)

Lemma length_set_at {A : Type} (l : list A) : forall i x,
  length (set_at i x l) = length l.
Proof.
  induction l as [|y l IH]; intros i x; [reflexivity|].
  destruct i; simpl; [reflexivity | now rewrite IH].
Qed.

Lemma nth_error_set_at_same {A : Type} (l : list A) : forall i x y,
  nth_error l i = Some y -> nth_error (set_at i x l) i = Some x.
Proof.
  induction l as [|z l IH]; intros i x y Hy; destruct i; simpl in *;
    try discriminate; [reflexivity | eapply IH; eassumption].
Qed.

Lemma length_write_vtracs vtracs : forall i cells,
  length (write_vtracs i vtracs cells) = length cells.
Proof.
  induction vtracs as [|v vtracs IH]; intros i cells; simpl; [reflexivity|].
  now rewrite IH, length_set_at.
Qed.

Lemma write_vtracs_keeps_head vtracs : forall i c cells,
  write_vtracs (S i) vtracs (c :: cells) = c :: write_vtracs i vtracs cells.
Proof.
  induction vtracs as [|v vtracs IH]; intros i c cells; simpl; [reflexivity|].
  apply IH.
Qed.

Lemma write_vtracs_nil vtracs : forall i, write_vtracs i vtracs [] = [].
Proof.
  induction vtracs as [|v vtracs IH]; intros i; simpl; [reflexivity|].
  apply IH.
Qed.

(** Written from the first slot on, the identifiers take the place of
    the first cells, as far as there are slots. *)
Lemma write_vtracs_zero vtracs : forall cells,
  write_vtracs 0 vtracs cells
  = map Some (firstn (length cells) vtracs) ++ skipn (length vtracs) cells.
Proof.
  induction vtracs as [|v vtracs IH]; intros cells.
  - simpl. now rewrite firstn_nil.
  - destruct cells as [|c cells]; [apply write_vtracs_nil|].
    simpl. rewrite write_vtracs_keeps_head, IH. reflexivity.
Qed.

(** One step of [apply_vtrac_matches] on the lines of the table. *)
Lemma apply_entry_nth_error (df : dataframe) i vtracs idx :
  nth_error
    match nth_error df i with
    | Some r => set_at i (fill_row vtracs r) df
    | None => df
    end idx
  = if Nat.eqb idx i then option_map (fill_row vtracs) (nth_error df idx)
    else nth_error df idx.
Proof.
  destruct (Nat.eqb_spec idx i) as [-> | Hne].
  - destruct (nth_error df i) as [r|] eqn:E; [|now rewrite E].
    simpl. eapply nth_error_set_at_same; eassumption.
  - destruct (nth_error df i); [|reflexivity]. now apply nth_error_set_at.
Qed.

Lemma apply_vtrac_matches_cons df i vtracs matches :
  apply_vtrac_matches df ((i, vtracs) :: matches)
  = apply_vtrac_matches
      match nth_error df i with
      | Some r => set_at i (fill_row vtracs r) df
      | None => df
      end matches.
Proof. reflexivity. Qed.

Lemma apply_vtrac_matches_get matches : forall df idx,
  NoDup (map fst matches) ->
  nth_error (apply_vtrac_matches df matches) idx
  = match dict_get Nat.eqb idx matches with
    | Some vtracs => option_map (fill_row vtracs) (nth_error df idx)
    | None => nth_error df idx
    end.
Proof.
  induction matches as [|(i, vtracs) matches IH]; intros df idx Hnd;
    [reflexivity|].
  rewrite apply_vtrac_matches_cons. simpl dict_get.
  inversion Hnd as [|? ? Hi Hnd']; subst.
  destruct (Nat.eqb_spec idx i) as [-> | Hne].
  - rewrite apply_vtrac_matches_frame.
    + rewrite apply_entry_nth_error. now rewrite Nat.eqb_refl.
    + destruct (dict_get Nat.eqb i matches) as [w|] eqn:E; [|reflexivity].
      apply (dict_get_In _ _ _ nat_eqb_spec) in E.
      exfalso. apply Hi. apply in_map_iff. now exists (i, w).
  - rewrite IH by assumption. rewrite apply_entry_nth_error.
    apply Nat.eqb_neq in Hne. now rewrite Hne.
Qed.

(** The relation between a table and the table after some writing that
    only touches identifier slots. *)
Lemma apply_vtrac_matches_shape matches : forall df,
  length (apply_vtrac_matches df matches) = length df
  /\ forall idx r',
       nth_error (apply_vtrac_matches df matches) idx = Some r' ->
       exists r, nth_error df idx = Some r
                 /\ articul_cols r' = articul_cols r
                 /\ new_column r' = new_column r
                 /\ length (vtrac_cols r') = length (vtrac_cols r).
Proof.
  induction matches as [|(i, vtracs) matches IH]; intros df.
  - split; [reflexivity|]. intros idx r' H. exists r'. auto.
  - pose (df1 := match nth_error df i with
                 | Some r => set_at i (fill_row vtracs r) df
                 | None => df
                 end).
    change (apply_vtrac_matches df ((i, vtracs) :: matches))
      with (apply_vtrac_matches df1 matches).
    destruct (IH df1) as (Hlen & Hrows). split.
    + rewrite Hlen. unfold df1. destruct (nth_error df i); [|reflexivity].
      apply length_set_at.
    + intros idx r' H. apply Hrows in H as (r1 & H1 & Ha & Hn & Hl).
      unfold df1 in H1. rewrite apply_entry_nth_error in H1.
      destruct (Nat.eqb idx i).
      * destruct (nth_error df idx) as [r|]; [|discriminate].
        simpl in H1. injection H1 as <-. exists r.
        repeat split; try assumption.
        rewrite Hl. simpl. apply length_write_vtracs.
      * exists r1. auto.
Qed.

(** X18.  [apply_vtrac_matches] only writes identifier slots: when the
    indices of the matches lie inside the table, as those of
    [process_vtrac_matching] do, the table keeps its number of lines, and
    every line keeps its part numbers, its consensus cell and the number
    of its identifier slots. *)
Theorem apply_vtrac_matches_touches_slots_only (df : dataframe)
    (matches : dict nat (list pystr)) :
  (forall idx vtracs, In (idx, vtracs) matches -> idx < length df) ->
  length (apply_vtrac_matches df matches) = length df
  /\ forall idx r',
       nth_error (apply_vtrac_matches df matches) idx = Some r' ->
       exists r, nth_error df idx = Some r
                 /\ articul_cols r' = articul_cols r
                 /\ new_column r' = new_column r
                 /\ length (vtrac_cols r') = length (vtrac_cols r).
Proof. intros _. apply apply_vtrac_matches_shape. Qed.

Lemma apply_vtrac_matches_touches_slots_only_witness :
  length (apply_vtrac_matches df_sample [(1, [str "V1"; str "V2"])])
  = length df_sample
  /\ forall idx r',
       nth_error (apply_vtrac_matches df_sample [(1, [str "V1"; str "V2"])])
         idx = Some r' ->
       exists r, nth_error df_sample idx = Some r
                 /\ articul_cols r' = articul_cols r
                 /\ new_column r' = new_column r
                 /\ length (vtrac_cols r') = length (vtrac_cols r).
Proof.
  apply (apply_vtrac_matches_touches_slots_only df_sample
           [(1, [str "V1"; str "V2"])]).
  intros idx vtracs [E | []]. injection E as <- _. simpl. lia.
Defined.

(** *** Task 1, line by line *)

Lemma search_and_apply_nth_error {order : SetOrder} df
    (mapping : dict pystr pyset) se idx :
  nth_error
    (apply_vtrac_matches df
       (process_vtrac_matching df mapping (fst se) (snd se))) idx
  = if in_range se idx
    then option_map (row_update mapping idx) (nth_error df idx)
    else nth_error df idx.
Proof.
  rewrite apply_vtrac_matches_get by (apply matching_loop_keys; constructor).
  rewrite process_vtrac_matching_get. destruct se as (s, e). simpl fst.
  simpl snd. destruct (in_range (s, e) idx); [|reflexivity].
  destruct (nth_error df idx) as [r|]; [|reflexivity].
  unfold row_update. simpl. now destruct (row_entry mapping idx r).
Qed.

(** A line that has been filled is not filled again. *)
Lemma row_update_idem {order : SetOrder} (mapping : dict pystr pyset) idx r :
  row_update mapping idx (row_update mapping idx r) = row_update mapping idx r.
Proof.
  destruct (row_entry mapping idx r) as [[|v vs]|] eqn:E.
  - now apply row_entry_nonempty in E.
  - assert (Hr : row_update mapping idx r = fill_row (v :: vs) r)
      by (unfold row_update; now rewrite E).
    rewrite Hr.
    destruct (vtrac_cols r) as [|c cells] eqn:Ec.
    + assert (Efill : fill_row (v :: vs) r = r).
      { unfold fill_row. rewrite Ec, write_vtracs_nil.
        destruct r. simpl in Ec. now rewrite Ec. }
      rewrite Efill. now rewrite Hr.
    + assert (En : row_entry mapping idx (fill_row (v :: vs) r) = None).
      { unfold row_entry, fill_row, N_VTRAC_COLS.
        cbn [vtrac_cols firstn]. rewrite Ec. cbn [write_vtracs set_at].
        rewrite write_vtracs_keeps_head. reflexivity. }
      unfold row_update at 1. now rewrite En.
  - assert (Hr : row_update mapping idx r = r)
      by (unfold row_update; now rewrite E).
    now rewrite !Hr.
Qed.

Lemma task1_nth_error {order : SetOrder} (mapping : dict pystr pyset)
    ranges : forall df idx,
  nth_error (task1 mapping ranges df) idx
  = option_map
      (fun r => if covered ranges idx then row_update mapping idx r else r)
      (nth_error df idx).
Proof.
  unfold task1.
  induction ranges as [|se ranges IH]; intros df idx; simpl.
  - now destruct (nth_error df idx).
  - rewrite IH, search_and_apply_nth_error.
    destruct (nth_error df idx) as [r|];
      [|now destruct (in_range se idx)].
    destruct (in_range se idx), (covered ranges idx); simpl;
      try reflexivity.
    now rewrite row_update_idem.
Qed.

(** X19.  Task 1 works line by line.  Whatever the ranges, their order
    and their overlap, and however the run arranges the identifiers it
    finds, when the ranges are worked off one after the other every line
    that lies in some range ends up as [row_update] makes it (filled with
    the list of what is found for it if it had no identifier, else
    unchanged) and every other line is left as it was. *)
Theorem task1_line_by_line {order : SetOrder} (mapping : dict pystr pyset)
    (ranges : list (nat * nat)) (df : dataframe) (idx : nat) :
  nth_error (task1 mapping ranges df) idx
  = option_map
      (fun r => if covered ranges idx then row_update mapping idx r else r)
      (nth_error df idx).
Proof. apply task1_nth_error. Qed.

Lemma skipn_repeat {A : Type} (x : A) n : forall k,
  skipn k (repeat x n) = repeat x (n - k).
Proof.
  induction n as [|n IH]; intros k; [now destruct k|].
  destruct k; [reflexivity|]. simpl. apply IH.
Qed.

Lemma fill_row_slots vtracs r :
  any_notna (vtrac_cols r) = false ->
  length (vtrac_cols r) = 5 ->
  vtrac_cols (fill_row vtracs r)
  = map Some (firstn 5 vtracs) ++ repeat None (5 - length vtracs).
Proof.
  intros Hany Hlen. unfold fill_row, N_VTRAC_COLS. cbn [vtrac_cols].
  rewrite write_vtracs_zero, Hlen, firstn_firstn.
  rewrite (any_notna_false _ Hany), Hlen, skipn_repeat, length_firstn.
  replace (Nat.min 5 5) with 5 by reflexivity.
  f_equal. f_equal. lia.
Qed.

(** X20.  Filling a line.  When a line of the range has five identifier
    slots, all of them missing, and the search finds at least one
    identifier for it, then its entry is a list of the identifiers found,
    each once, in the order the run gives them, and after
    [apply_vtrac_matches] its slots hold the first five of that list, in
    its order, followed by missing cells. *)
Theorem vtrac_matching_fills_slots {order : SetOrder} (df : dataframe)
    (mapping : dict pystr pyset) (start_idx end_idx idx : nat) (r : row) :
  nth_error df idx = Some r ->
  start_idx <= idx < end_idx ->
  any_notna (vtrac_cols r) = false ->
  length (vtrac_cols r) = 5 ->
  found_vtracs_of mapping r <> [] ->
  exists vtracs,
    Permutation vtracs (found_vtracs_of mapping r)
    /\ dict_get Nat.eqb idx
         (process_vtrac_matching df mapping start_idx end_idx)
       = Some vtracs
    /\ option_map vtrac_cols
         (nth_error
            (apply_vtrac_matches df
               (process_vtrac_matching df mapping start_idx end_idx)) idx)
       = Some (map Some (firstn 5 vtracs)
               ++ repeat None (5 - length vtracs)).
Proof.
  intros Hr Hidx Hany Hlen Hfound.
  exists (list_of_set idx (found_vtracs_of mapping r)).
  assert (Hin : in_range (start_idx, end_idx) idx = true).
  { unfold in_range. simpl. apply andb_true_iff.
    rewrite Nat.leb_le, Nat.ltb_lt. lia. }
  assert (He : row_entry mapping idx r
               = Some (list_of_set idx (found_vtracs_of mapping r))).
  { unfold row_entry. rewrite Hany.
    destruct (found_vtracs_of mapping r); [congruence | reflexivity]. }
  split; [apply list_of_set_perm|]. split.
  - now rewrite process_vtrac_matching_get, Hin, Hr.
  - rewrite (search_and_apply_nth_error df mapping (start_idx, end_idx)).
    rewrite Hin, Hr. simpl. f_equal.
    unfold row_update. rewrite He. now apply fill_row_slots.
Qed.

Lemma vtrac_matching_fills_slots_witness :
  exists vtracs,
    Permutation vtracs
      (found_vtracs_of (prepare_articul_mapping df_shared)
         (nth 2 df_shared (Build_row [] [] None)))
    /\ dict_get Nat.eqb 2
         (process_vtrac_matching (order := reversed_order) df_shared
            (prepare_articul_mapping df_shared) 0 3)
       = Some vtracs
    /\ option_map vtrac_cols
         (nth_error
            (apply_vtrac_matches df_shared
               (process_vtrac_matching (order := reversed_order) df_shared
                  (prepare_articul_mapping df_shared) 0 3)) 2)
       = Some (map Some (firstn 5 vtracs)
               ++ repeat None (5 - length vtracs)).
Proof.
  apply (vtrac_matching_fills_slots (order := reversed_order) df_shared
           (prepare_articul_mapping df_shared) 0 3 2
           (nth 2 df_shared (Build_row [] [] None))).
  - reflexivity.
  - lia.
  - reflexivity.
  - reflexivity.
  - discriminate.
Defined.

(** *** The ranges of the workers *)

Lemma ranges_cover c n m :
  flat_map (fun k => seq (k * c) (Nat.min (k * c + c) n - k * c)) (seq 0 m)
  = seq 0 (Nat.min (m * c) n).
Proof.
  induction m as [|m IH]; [reflexivity|].
  rewrite seq_S, flat_map_app, IH. simpl flat_map. rewrite app_nil_r.
  simpl Nat.add at 1.
  destruct (Nat.le_gt_cases (m * c) n) as [Hle | Hgt].
  - replace (Nat.min (m * c) n) with (m * c) by lia.
    replace (Nat.min (S m * c) n)
      with (m * c + (Nat.min (m * c + c) n - m * c)) by lia.
    now rewrite seq_app.
  - replace (Nat.min (m * c) n) with n by lia.
    replace (Nat.min (m * c + c) n - m * c) with 0 by lia.
    replace (Nat.min (S m * c) n) with n by lia.
    simpl. now rewrite app_nil_r.
Qed.

Lemma range_step_reaches stop step :
  1 <= step -> stop <= ((stop + step - 1) / step) * step.
Proof.
  intros Hs.
  pose proof (Nat.div_mod_eq (stop + step - 1) step) as E.
  pose proof (Nat.mod_upper_bound (stop + step - 1) step) as Hm.
  rewrite (Nat.mul_comm _ step). lia.
Qed.

Lemma chunk_ranges_flat n :
  flat_map (fun se => seq (fst se) (snd se - fst se)) (chunk_ranges n)
  = seq 0 n.
Proof.
  unfold chunk_ranges, range_step. cbv zeta.
  set (c := Nat.max 1 (n / WORKERS)).
  rewrite map_map, flat_map_concat_map, map_map, <- flat_map_concat_map.
  simpl fst. simpl snd.
  rewrite (ranges_cover c n). f_equal.
  pose proof (range_step_reaches n c). lia.
Qed.

Lemma covered_iff ranges idx :
  covered ranges idx = true
  <-> In idx (flat_map (fun se => seq (fst se) (snd se - fst se)) ranges).
Proof.
  unfold covered, in_range. rewrite existsb_exists, in_flat_map.
  split; intros (se & Hse & H); exists se; (split; [assumption|]).
  - apply andb_true_iff in H as (H1 & H2).
    apply Nat.leb_le in H1. apply Nat.ltb_lt in H2.
    apply in_seq. lia.
  - apply in_seq in H. apply andb_true_iff.
    rewrite Nat.leb_le, Nat.ltb_lt. lia.
Qed.

Lemma chunk_ranges_covered n idx : covered (chunk_ranges n) idx = (idx <? n).
Proof.
  destruct (Nat.ltb_spec idx n) as [Hlt | Hge].
  - apply covered_iff. rewrite chunk_ranges_flat. apply in_seq. lia.
  - destruct (covered (chunk_ranges n) idx) eqn:E; [|reflexivity].
    apply covered_iff in E. rewrite chunk_ranges_flat in E.
    apply in_seq in E. lia.
Qed.

(** X21.  The ranges that [run_parallel_processing] submits for a table
    of [n] lines cut the indices from 0 to [n - 1] into consecutive
    pieces: put one after the other, the ranges list every index below
    [n] exactly once and in order, so no line is left out and none is
    given to two workers. *)
Theorem chunk_ranges_partition (n : nat) :
  flat_map (fun se => seq (fst se) (snd se - fst se)) (chunk_ranges n)
  = seq 0 n
  /\ forall idx, covered (chunk_ranges n) idx = (idx <? n).
Proof.
  split; [apply chunk_ranges_flat | intros idx; apply chunk_ranges_covered].
Qed.

Lemma nth_error_combine_seq {A : Type} (l : list A) : forall k i,
  nth_error (combine (seq k (length l)) l) i
  = option_map (fun x => (k + i, x)) (nth_error l i).
Proof.
  induction l as [|x l IH]; intros k i; [now destruct i|].
  destruct i; simpl.
  - now rewrite Nat.add_0_r.
  - rewrite IH. now rewrite Nat.add_succ_r.
Qed.

Lemma nth_error_map_indexed {A B : Type} (f : nat -> A -> B) (l : list A) i :
  nth_error (map (fun ix => f (fst ix) (snd ix)) (indexed l)) i
  = option_map (f i) (nth_error l i).
Proof.
  unfold indexed. rewrite nth_error_map, nth_error_combine_seq.
  now destruct (nth_error l i).
Qed.

Lemma task1_chunks {order : SetOrder} (mapping : dict pystr pyset) df :
  task1 mapping (chunk_ranges (length df)) df
  = map (fun ir => row_update mapping (fst ir) (snd ir)) (indexed df).
Proof.
  apply nth_error_ext. intros idx.
  rewrite task1_nth_error, chunk_ranges_covered.
  rewrite (nth_error_map_indexed (row_update mapping)).
  destruct (nth_error df idx) as [r|] eqn:E; [|reflexivity].
  simpl. replace (idx <? length df) with true; [reflexivity|].
  symmetry. apply Nat.ltb_lt. apply nth_error_Some. congruence.
Qed.

(** X22.  With the ranges of [run_parallel_processing], task 1 turns the
    table into the table of its lines each updated on its own: a line
    with an identifier is kept, a line without one is filled with the
    list of what the mapping holds for its part numbers, as the run
    arranges it. *)
Theorem task1_is_a_map {order : SetOrder} (mapping : dict pystr pyset)
    (df : dataframe) :
  task1 mapping (chunk_ranges (length df)) df
  = map (fun ir => row_update mapping (fst ir) (snd ir)) (indexed df).
Proof. apply task1_chunks. Qed.

(** *** Task 2, line by line *)

Lemma common_loop_step df idx rest results :
  common_loop df (idx :: rest) results
  = match nth_error df idx with
    | None => results
    | Some r =>
        common_loop df rest
          match common_entry r with
          | Some common_vtrac => dict_set Nat.eqb idx common_vtrac results
          | None => results
          end
    end.
Proof.
  simpl. destruct (nth_error df idx) as [r|]; [|reflexivity].
  unfold common_entry.
  destruct (find_common_vtrac (vtrac_cols r)) as [p|]; [|reflexivity].
  now destruct (negb (pystr_eqb p [])).
Qed.

Lemma common_loop_seq df n :
  forall start results idx,
  (forall i, start <= i -> dict_get Nat.eqb i results = None) ->
  dict_get Nat.eqb idx (common_loop df (seq start n) results)
  = if (start <=? idx) && (idx <? start + n)
    then match nth_error df idx with
         | Some r => common_entry r
         | None => None
         end
    else dict_get Nat.eqb idx results.
Proof.
  induction n as [|n IH]; intros start results idx Hfree.
  - simpl. destruct (Nat.leb_spec start idx), (Nat.ltb_spec idx (start + 0));
      simpl; try reflexivity; lia.
  - change (seq start (S n)) with (start :: seq (S start) n).
    rewrite common_loop_step.
    destruct (nth_error df start) as [r|] eqn:Er.
    + rewrite IH.
      * destruct (Nat.eq_dec idx start) as [-> | Hne].
        -- rewrite Er.
           replace (S start <=? start) with false
             by (symmetry; apply Nat.leb_gt; lia).
           replace (start <=? start) with true
             by (symmetry; apply Nat.leb_le; lia).
           replace (start <? start + S n) with true
             by (symmetry; apply Nat.ltb_lt; lia).
           simpl. destruct (common_entry r).
           ++ apply (dict_get_set_same _ _ _ nat_eqb_spec).
           ++ apply Hfree. lia.
        -- assert (E : dict_get Nat.eqb idx
                         match common_entry r with
                         | Some p => dict_set Nat.eqb start p results
                         | None => results
                         end = dict_get Nat.eqb idx results).
           { destruct (common_entry r); [|reflexivity].
             now apply (dict_get_set_other _ _ _ nat_eqb_spec). }
           rewrite E.
           destruct (Nat.leb_spec (S start) idx), (Nat.leb_spec start idx),
             (Nat.ltb_spec idx (S start + n)),
             (Nat.ltb_spec idx (start + S n)); simpl; try reflexivity; lia.
      * intros i Hi. destruct (common_entry r); [|apply Hfree; lia].
        rewrite (dict_get_set_other _ _ _ nat_eqb_spec) by lia.
        apply Hfree. lia.
    + destruct (Nat.leb_spec start idx), (Nat.ltb_spec idx (start + S n));
        simpl; try reflexivity.
      assert (Hn : nth_error df idx = None).
      { apply nth_error_None. apply nth_error_None in Er. lia. }
      rewrite Hn. now apply Hfree.
Qed.

Lemma process_common_vtrac_get df start_idx end_idx idx :
  dict_get Nat.eqb idx (process_common_vtrac df start_idx end_idx)
  = if in_range (start_idx, end_idx) idx
    then match nth_error df idx with
         | Some r => common_entry r
         | None => None
         end
    else None.
Proof.
  unfold process_common_vtrac, in_range. simpl fst. simpl snd.
  rewrite common_loop_seq by reflexivity. simpl dict_get.
  destruct (Nat.leb_spec start_idx idx),
    (Nat.ltb_spec idx (start_idx + (end_idx - start_idx))),
    (Nat.ltb_spec idx end_idx); simpl; try reflexivity; lia.
Qed.

Lemma common_loop_keys df idxs :
  forall results,
  NoDup (map fst results) ->
  NoDup (map fst (common_loop df idxs results)).
Proof.
  induction idxs as [|idx idxs IH]; intros results Hnd; [assumption|].
  rewrite common_loop_step.
  destruct (nth_error df idx) as [r|]; [|assumption].
  apply IH. destruct (common_entry r); [|assumption].
  now apply (dict_set_keys _ _ _ nat_eqb_spec).
Qed.

(** X23.  The result of [process_common_vtrac] for a range holds an entry
    for an index exactly when the index lies in the range and in the
    table and [find_common_vtrac] gives, for the identifier cells of the
    line, a text that is not empty; the entry is that text.  An empty
    text found as consensus is not entered. *)
Theorem process_common_vtrac_entries (df : dataframe)
    (start_idx end_idx idx : nat) :
  dict_get Nat.eqb idx (process_common_vtrac df start_idx end_idx)
  = (if (start_idx <=? idx) && (idx <? end_idx)
     then match nth_error df idx with
          | Some r =>
              match find_common_vtrac (vtrac_cols r) with
              | Some common_vtrac =>
                  if pystr_eqb common_vtrac [] then None
                  else Some common_vtrac
              | None => None
              end
          | None => None
          end
     else None)
  /\ NoDup (map fst (process_common_vtrac df start_idx end_idx)).
Proof.
  split.
  - rewrite process_common_vtrac_get. unfold in_range. simpl fst. simpl snd.
    destruct ((start_idx <=? idx) && (idx <? end_idx)); [|reflexivity].
    destruct (nth_error df idx) as [r|]; [|reflexivity].
    unfold common_entry.
    destruct (find_common_vtrac (vtrac_cols r)) as [p|]; [|reflexivity].
    now destruct (pystr_eqb p []).
  - apply common_loop_keys. constructor.
Qed.

Lemma apply_common_vtrac_cons df i common_vtrac common_vtracs :
  apply_common_vtrac df ((i, common_vtrac) :: common_vtracs)
  = apply_common_vtrac
      match nth_error df i with
      | Some r =>
          set_at i
            {| articul_cols := articul_cols r;
               vtrac_cols := vtrac_cols r;
               new_column := Some common_vtrac |} df
      | None => df
      end common_vtracs.
Proof. reflexivity. Qed.

Lemma apply_common_entry_nth_error (df : dataframe) i common_vtrac idx :
  nth_error
    match nth_error df i with
    | Some r =>
        set_at i
          {| articul_cols := articul_cols r;
             vtrac_cols := vtrac_cols r;
             new_column := Some common_vtrac |} df
    | None => df
    end idx
  = if Nat.eqb idx i
    then option_map
           (fun r => {| articul_cols := articul_cols r;
                        vtrac_cols := vtrac_cols r;
                        new_column := Some common_vtrac |})
           (nth_error df idx)
    else nth_error df idx.
Proof.
  destruct (Nat.eqb_spec idx i) as [-> | Hne].
  - destruct (nth_error df i) as [r|] eqn:E; [|now rewrite E].
    simpl. eapply nth_error_set_at_same; eassumption.
  - destruct (nth_error df i); [|reflexivity]. now apply nth_error_set_at.
Qed.

Lemma apply_common_vtrac_frame idx common_vtracs : forall df,
  dict_get Nat.eqb idx common_vtracs = None ->
  nth_error (apply_common_vtrac df common_vtracs) idx = nth_error df idx.
Proof.
  induction common_vtracs as [|(i, p) common_vtracs IH]; intros df Hget;
    [reflexivity|].
  rewrite apply_common_vtrac_cons.
  simpl in Hget. destruct (Nat.eqb idx i) eqn:E; [discriminate|].
  rewrite IH by assumption. rewrite apply_common_entry_nth_error.
  now rewrite E.
Qed.

Lemma apply_common_vtrac_get common_vtracs : forall df idx,
  NoDup (map fst common_vtracs) ->
  nth_error (apply_common_vtrac df common_vtracs) idx
  = match dict_get Nat.eqb idx common_vtracs with
    | Some common_vtrac =>
        option_map
          (fun r => {| articul_cols := articul_cols r;
                       vtrac_cols := vtrac_cols r;
                       new_column := Some common_vtrac |})
          (nth_error df idx)
    | None => nth_error df idx
    end.
Proof.
  induction common_vtracs as [|(i, p) common_vtracs IH]; intros df idx Hnd;
    [reflexivity|].
  rewrite apply_common_vtrac_cons. simpl dict_get.
  inversion Hnd as [|? ? Hi Hnd']; subst.
  destruct (Nat.eqb_spec idx i) as [-> | Hne].
  - rewrite apply_common_vtrac_frame.
    + rewrite apply_common_entry_nth_error. now rewrite Nat.eqb_refl.
    + destruct (dict_get Nat.eqb i common_vtracs) as [w|] eqn:E;
        [|reflexivity].
      apply (dict_get_In _ _ _ nat_eqb_spec) in E.
      exfalso. apply Hi. apply in_map_iff. now exists (i, w).
  - rewrite IH by assumption. rewrite apply_common_entry_nth_error.
    apply Nat.eqb_neq in Hne. now rewrite Hne.
Qed.

Lemma apply_common_vtrac_shape common_vtracs : forall df,
  length (apply_common_vtrac df common_vtracs) = length df
  /\ forall idx r',
       nth_error (apply_common_vtrac df common_vtracs) idx = Some r' ->
       exists r, nth_error df idx = Some r
                 /\ articul_cols r' = articul_cols r
                 /\ vtrac_cols r' = vtrac_cols r
                 /\ (new_column r' = new_column r
                     \/ exists common_vtrac,
                          In (idx, common_vtrac) common_vtracs
                          /\ new_column r' = Some common_vtrac).
Proof.
  induction common_vtracs as [|(i, p) common_vtracs IH]; intros df.
  - split; [reflexivity|]. intros idx r' H. exists r'. auto.
  - rewrite apply_common_vtrac_cons.
    match goal with
    | |- context [apply_common_vtrac ?d common_vtracs] =>
        destruct (IH d) as (Hlen & Hrows)
    end.
    split.
    + rewrite Hlen. destruct (nth_error df i); [|reflexivity].
      apply length_set_at.
    + intros idx r' H. apply Hrows in H as (r1 & H1 & Ha & Hv & Hn).
      rewrite apply_common_entry_nth_error in H1.
      assert (Hn' : new_column r' = new_column r1
                    \/ exists common_vtrac,
                         In (idx, common_vtrac) ((i, p) :: common_vtracs)
                         /\ new_column r' = Some common_vtrac).
      { destruct Hn as [Hn | (q & Hq & Hn)]; [now left|].
        right. exists q. split; [now right | assumption]. }
      destruct (Nat.eqb_spec idx i) as [-> | Hne].
      * destruct (nth_error df i) as [r|]; [|discriminate].
        simpl in H1. injection H1 as <-. exists r.
        repeat split; try assumption.
        destruct Hn' as [Hn' | Hn']; [|now right].
        right. exists p. split; [now left | assumption].
      * exists r1. auto.
Qed.

(** X24.  [apply_common_vtrac] only writes the consensus cell: when the
    indices of the entries lie inside the table, as those of
    [process_common_vtrac] do, the table keeps its number of lines, every
    line keeps its part numbers and its identifier cells, and its
    consensus cell is either the old one or the text of an entry for its
    index. *)
Theorem apply_common_vtrac_touches_new_column_only (df : dataframe)
    (common_vtracs : dict nat pystr) :
  (forall idx common_vtrac,
      In (idx, common_vtrac) common_vtracs -> idx < length df) ->
  length (apply_common_vtrac df common_vtracs) = length df
  /\ forall idx r',
       nth_error (apply_common_vtrac df common_vtracs) idx = Some r' ->
       exists r, nth_error df idx = Some r
                 /\ articul_cols r' = articul_cols r
                 /\ vtrac_cols r' = vtrac_cols r
                 /\ (new_column r' = new_column r
                     \/ exists common_vtrac,
                          In (idx, common_vtrac) common_vtracs
                          /\ new_column r' = Some common_vtrac).
Proof. intros _. apply apply_common_vtrac_shape. Qed.

Lemma apply_common_vtrac_touches_new_column_only_witness :
  length (apply_common_vtrac df_sample [(0, str "V1")]) = length df_sample
  /\ forall idx r',
       nth_error (apply_common_vtrac df_sample [(0, str "V1")]) idx
       = Some r' ->
       exists r, nth_error df_sample idx = Some r
                 /\ articul_cols r' = articul_cols r
                 /\ vtrac_cols r' = vtrac_cols r
                 /\ (new_column r' = new_column r
                     \/ exists common_vtrac,
                          In (idx, common_vtrac) [(0, str "V1")]
                          /\ new_column r' = Some common_vtrac).
Proof.
  apply (apply_common_vtrac_touches_new_column_only df_sample
           [(0, str "V1")]).
  intros idx common_vtrac [E | []]. injection E as <- _. simpl. lia.
Defined.

Lemma scan_and_apply_nth_error df se idx :
  nth_error
    (apply_common_vtrac df (process_common_vtrac df (fst se) (snd se))) idx
  = if in_range se idx then option_map common_update (nth_error df idx)
    else nth_error df idx.
Proof.
  rewrite apply_common_vtrac_get by (apply common_loop_keys; constructor).
  rewrite process_common_vtrac_get. destruct se as (s, e). simpl fst.
  simpl snd. destruct (in_range (s, e) idx); [|reflexivity].
  destruct (nth_error df idx) as [r|]; [|reflexivity].
  unfold common_update. simpl. now destruct (common_entry r).
Qed.

Lemma common_update_idem r :
  common_update (common_update r) = common_update r.
Proof.
  unfold common_update at 2.
  destruct (common_entry r) as [p|] eqn:E.
  - unfold common_update, common_entry in *. cbn [vtrac_cols].
    destruct (find_common_vtrac (vtrac_cols r)) as [q|]; [|discriminate].
    destruct (negb (pystr_eqb q [])); [|discriminate].
    now injection E as ->.
  - unfold common_update. now rewrite E.
Qed.

Lemma task2_nth_error ranges : forall df idx,
  nth_error (task2 ranges df) idx
  = option_map
      (fun r => if covered ranges idx then common_update r else r)
      (nth_error df idx).
Proof.
  unfold task2.
  induction ranges as [|se ranges IH]; intros df idx; simpl.
  - now destruct (nth_error df idx).
  - rewrite IH, scan_and_apply_nth_error.
    destruct (nth_error df idx) as [r|];
      [|now destruct (in_range se idx)].
    destruct (in_range se idx), (covered ranges idx); simpl;
      try reflexivity.
    now rewrite common_update_idem.
Qed.

(** X25.  Task 2 works line by line.  Whatever the ranges, their order
    and their overlap, when they are worked off one after the other every
    line that lies in some range gets the consensus of its own identifier
    cells written to its consensus cell, if there is one and it is not
    the empty text, and every other line is left as it was. *)
Theorem task2_line_by_line (ranges : list (nat * nat)) (df : dataframe)
    (idx : nat) :
  nth_error (task2 ranges df) idx
  = option_map
      (fun r => if covered ranges idx then common_update r else r)
      (nth_error df idx).
Proof. apply task2_nth_error. Qed.

Lemma task2_chunks df :
  task2 (chunk_ranges (length df)) df = map common_update df.
Proof.
  apply nth_error_ext. intros idx.
  rewrite task2_nth_error, chunk_ranges_covered, nth_error_map.
  destruct (nth_error df idx) as [r|] eqn:E; [|reflexivity].
  simpl. replace (idx <? length df) with true; [reflexivity|].
  symmetry. apply Nat.ltb_lt. apply nth_error_Some. congruence.
Qed.

(** X26.  The whole run, between loading and saving, with the ranges of
    each task worked off one after the other: the table that [process]
    leaves is the table of the lines of the input, each first filled
    from the mapping of the input table, with the identifiers found in
    the arrangement of the run, and then given its consensus.  No line is
    added, dropped or moved, and no line depends on another one except
    through the mapping. *)
Theorem process_is_a_map {order : SetOrder} (df : dataframe) :
  process df
  = map
      (fun ir =>
         common_update
           (row_update (prepare_articul_mapping df) (fst ir) (snd ir)))
      (indexed df).
Proof.
  unfold process. cbv zeta.
  rewrite task1_chunks, task2_chunks, map_map. reflexivity.
Qed.

(** *** The consensus, read backwards *)

Lemma round_some L strs p :
  round L strs = Some p ->
  length p = L /\ 2 <= length (group_of L p strs)
  /\ forall q, length (group_of L q strs) <= length (group_of L p strs).
Proof.
  unfold round. intros H.
  destruct (largest_group_spec L strs) as (Hbest & Hmax).
  set (best := max_by_len (map snd (prefix_groups L strs))) in *.
  destruct (1 <? length best) eqn:E; [|discriminate].
  apply Nat.ltb_lt in E. injection H as <-.
  destruct Hbest as [Hnil | (p & Hp & Hne)].
  - rewrite Hnil in E. simpl in E. lia.
  - rewrite Hp in *. destruct (group_of_hd L p strs Hne) as (Eh & El).
    rewrite Eh. repeat split; [assumption | lia | assumption].
Qed.

Lemma round_none L strs :
  round L strs = None -> forall q, length (group_of L q strs) < 2.
Proof.
  unfold round. intros H q.
  destruct (largest_group_spec L strs) as (_ & Hmax).
  set (best := max_by_len (map snd (prefix_groups L strs))) in *.
  destruct (1 <? length best) eqn:E; [discriminate|].
  apply Nat.ltb_ge in E. specialize (Hmax q). lia.
Qed.

(** X27.  The consensus read backwards.  With at least two identifiers
    present, a result of [find_common_vtrac] has 8, 7 or 6 characters, at
    least two of the identifiers are that long and start with it, no
    other prefix of that length is shared by more, and no longer prefix
    (up to 8) is shared by two; there is no result only when no prefix of
    6 to 8 characters is shared by two.  In particular such a result is
    never the empty text. *)
Theorem find_common_vtrac_meaning (vtrac_values : list cell) :
  2 <= length (present vtrac_values) ->
  match find_common_vtrac vtrac_values with
  | Some p =>
      6 <= length p <= 8
      /\ 2 <= length (group_of (length p) p (present vtrac_values))
      /\ (forall q, length (group_of (length p) q (present vtrac_values))
                    <= length (group_of (length p) p (present vtrac_values)))
      /\ forall L q, length p < L <= 8 ->
                     length (group_of L q (present vtrac_values)) < 2
  | None =>
      forall L q, 6 <= L <= 8 ->
                  length (group_of L q (present vtrac_values)) < 2
  end.
Proof.
  intros Hlen. rewrite (find_common_vtrac_many _ Hlen).
  set (strs := present vtrac_values).
  rewrite !consensus_loop_cons.
  destruct (round 8 strs) as [p|] eqn:E8.
  { destruct (round_some _ _ _ E8) as (El & Hg & Hmax). rewrite El.
    repeat split; try assumption; lia. }
  pose proof (round_none _ _ E8) as N8.
  destruct (round 7 strs) as [p|] eqn:E7.
  { destruct (round_some _ _ _ E7) as (El & Hg & Hmax). rewrite El.
    repeat split; try assumption; try lia. intros L q HL.
    assert (L = 8) as -> by lia. apply N8. }
  pose proof (round_none _ _ E7) as N7.
  destruct (round 6 strs) as [p|] eqn:E6.
  { destruct (round_some _ _ _ E6) as (El & Hg & Hmax). rewrite El.
    repeat split; try assumption; try lia. intros L q HL.
    assert (L = 7 \/ L = 8) as [-> | ->] by lia; [apply N7 | apply N8]. }
  pose proof (round_none _ _ E6) as N6.
  simpl. intros L q HL.
  assert (L = 6 \/ L = 7 \/ L = 8) as [-> | [-> | ->]] by lia;
    [apply N6 | apply N7 | apply N8].
Qed.

Lemma find_common_vtrac_meaning_witness :
  match find_common_vtrac cells_pair with
  | Some p =>
      6 <= length p <= 8
      /\ 2 <= length (group_of (length p) p (present cells_pair))
      /\ (forall q, length (group_of (length p) q (present cells_pair))
                    <= length (group_of (length p) p (present cells_pair)))
      /\ forall L q, length p < L <= 8 ->
                     length (group_of L q (present cells_pair)) < 2
  | None =>
      forall L q, 6 <= L <= 8 ->
                  length (group_of L q (present cells_pair)) < 2
  end.
Proof. apply (find_common_vtrac_meaning cells_pair). simpl. lia. Defined.

Lemma present_map_Some (l : list pystr) : present (map Some l) = l.
Proof. induction l as [|s l IH]; simpl; [reflexivity | now rewrite IH]. Qed.

(** X28.  Missing cells play no part in the consensus: [find_common_vtrac]
    gives for a list of cells what it gives for the list of the
    identifiers present in it, wherever the missing cells stand. *)
Theorem find_common_vtrac_ignores_missing (vtrac_values : list cell) :
  find_common_vtrac vtrac_values
  = find_common_vtrac (map Some (present vtrac_values)).
Proof.
  unfold find_common_vtrac. rewrite present_map_Some.
  destruct (present vtrac_values) as [|s strs] eqn:E.
  - apply present_nil_iff in E. rewrite E. simpl.
    now rewrite Bool.orb_true_r.
  - assert (Hna : forallb isna vtrac_values = false).
    { destruct (forallb isna vtrac_values) eqn:F; [|reflexivity].
      apply present_nil_iff in F. congruence. }
    rewrite Hna.
    destruct vtrac_values as [|c cs]; [discriminate|]. reflexivity.
Qed.

Lemma group_of_short L q strs :
  (forall s, In s strs -> length s < L) -> group_of L q strs = [].
Proof.
  unfold group_of. induction strs as [|s strs IH]; intros Hshort;
    [reflexivity|].
  simpl. unfold in_group at 1.
  replace (L <=? length s) with false.
  - simpl. apply IH. intros t Ht. apply Hshort. now right.
  - symmetry. apply Nat.leb_gt. apply Hshort. now left.
Qed.

(** X29.  Short identifiers have no consensus.  When at least two
    identifiers are present and each has fewer than 6 characters,
    [find_common_vtrac] finds nothing, also when they are all the same
    text (a single such identifier would be returned as it is). *)
Theorem find_common_vtrac_short_identifiers (vtrac_values : list cell) :
  2 <= length (present vtrac_values) ->
  (forall s, In s (present vtrac_values) -> length s < 6) ->
  find_common_vtrac vtrac_values = None.
Proof.
  intros Hlen Hshort. apply find_common_vtrac_no_consensus; [assumption|].
  intros L q HL. rewrite group_of_short; [simpl; lia|].
  intros s Hs. specialize (Hshort s Hs). lia.
Qed.

Lemma find_common_vtrac_short_identifiers_witness :
  find_common_vtrac [Some (str "AB12"); None; Some (str "AB12")] = None.
Proof.
  apply find_common_vtrac_short_identifiers.
  - simpl. lia.
  - intros s [<- | [<- | []]]; simpl; lia.
Defined.

End End4More.

(** ** More on [sort_artic_2.py]: the added columns *)

Module SortMainSpec.
Import PyFacts SortArtic SortMain SortArticMore.

Lemma nth_error_set_at_any {A : Type} (l : list A) i j x :
  nth_error (End4.set_at i x l) j
  = if Nat.eqb j i then option_map (fun _ => x) (nth_error l j)
    else nth_error l j.
Proof.
  destruct (Nat.eqb_spec j i) as [-> | Hne].
  - destruct (nth_error l i) as [y|] eqn:E; simpl.
    + eapply End4More.nth_error_set_at_same; eassumption.
    + apply nth_error_None. rewrite End4More.length_set_at.
      now apply nth_error_None.
  - now apply End4Spec.nth_error_set_at.
Qed.

Lemma set_at_same_value {A : Type} (l : list A) : forall i y,
  nth_error l i = Some y -> End4.set_at i y l = l.
Proof.
  induction l as [|z l IH]; intros i y Hy; [reflexivity|].
  destruct i; simpl in *; [now injection Hy as -> | now rewrite IH].
Qed.

Lemma set_at_twice {A : Type} (l : list A) : forall i x y,
  End4.set_at i x (End4.set_at i y l) = End4.set_at i x l.
Proof.
  induction l as [|z l IH]; intros i x y; [reflexivity|].
  destruct i; simpl; [reflexivity | now rewrite IH].
Qed.

Lemma write_cells_cons k a arts line :
  write_cells k (a :: arts) line
  = write_cells (S k) arts (End4.set_at k a line).
Proof. reflexivity. Qed.

Lemma write_cells_nth_error arts : forall k line j,
  nth_error (write_cells k arts line) j
  = if (k <=? j) && (j <? k + length arts)
    then option_map (fun _ => nth (j - k) arts []) (nth_error line j)
    else nth_error line j.
Proof.
  induction arts as [|a arts IH]; intros k line j.
  - unfold write_cells. simpl.
    destruct (Nat.leb_spec k j), (Nat.ltb_spec j (k + 0)); simpl;
      try reflexivity; lia.
  - rewrite write_cells_cons, IH, nth_error_set_at_any. simpl length.
    destruct (Nat.eqb_spec j k) as [-> | Hne].
    + replace (S k <=? k) with false by (symmetry; apply Nat.leb_gt; lia).
      replace (k <=? k) with true by (symmetry; apply Nat.leb_le; lia).
      replace (k <? k + S (length arts)) with true
        by (symmetry; apply Nat.ltb_lt; lia).
      simpl andb. cbv iota. now rewrite Nat.sub_diag.
    + destruct (Nat.leb_spec (S k) j), (Nat.leb_spec k j),
        (Nat.ltb_spec j (S k + length arts)),
        (Nat.ltb_spec j (k + S (length arts))); simpl andb; cbv iota;
        try reflexivity; try lia.
      replace (j - k) with (S (j - S k)) by lia. reflexivity.
Qed.

(** The inner loop of [main] on the table is the inner loop on the cells
    of the line. *)
Lemma inner_loop_line idx arts : forall k df,
  fold_left (fun df ja => let '(i, art) := ja in set_cell idx i art df)
    (combine (seq k (length arts)) arts) df
  = match nth_error df idx with
    | Some line => End4.set_at idx (write_cells k arts line) df
    | None => df
    end.
Proof.
  induction arts as [|a arts IH]; intros k df.
  - simpl. destruct (nth_error df idx) as [line|] eqn:E; [|reflexivity].
    unfold write_cells. simpl. symmetry. now apply set_at_same_value.
  - simpl length. simpl seq. simpl combine. simpl fold_left. rewrite IH.
    unfold set_cell. destruct (nth_error df idx) as [line|] eqn:E.
    + rewrite (End4More.nth_error_set_at_same df idx _ line E).
      rewrite set_at_twice. now rewrite write_cells_cons.
    + now rewrite E.
Qed.

Lemma inner_loop_nth_error idx arts df j :
  nth_error
    (fold_left (fun df ja => let '(i, art) := ja in set_cell idx i art df)
       (enumerate arts) df) j
  = if Nat.eqb j idx then option_map (write_cells 0 arts) (nth_error df j)
    else nth_error df j.
Proof.
  unfold enumerate. rewrite inner_loop_line.
  destruct (nth_error df idx) as [line|] eqn:E.
  - rewrite nth_error_set_at_any.
    destruct (Nat.eqb_spec j idx) as [-> | Hne]; [|reflexivity].
    now rewrite E.
  - destruct (Nat.eqb_spec j idx) as [-> | Hne]; [|reflexivity].
    now rewrite E.
Qed.

Lemma outer_loop_nth_error results : forall k df j,
  nth_error
    (fold_left
       (fun df ia =>
          let '(idx, arts) := ia in
          fold_left
            (fun df ja => let '(i, art) := ja in set_cell idx i art df)
            (enumerate arts) df)
       (combine (seq k (length results)) results) df) j
  = if (k <=? j) && (j <? k + length results)
    then option_map (write_cells 0 (nth (j - k) results []))
           (nth_error df j)
    else nth_error df j.
Proof.
  induction results as [|arts results IH]; intros k df j.
  - simpl. destruct (Nat.leb_spec k j), (Nat.ltb_spec j (k + 0)); simpl;
      try reflexivity; lia.
  - simpl length. simpl seq. simpl combine. cbn [fold_left].
    rewrite IH, inner_loop_nth_error.
    destruct (Nat.eqb_spec j k) as [-> | Hne].
    + replace (S k <=? k) with false by (symmetry; apply Nat.leb_gt; lia).
      replace (k <=? k) with true by (symmetry; apply Nat.leb_le; lia).
      replace (k <? k + S (length results)) with true
        by (symmetry; apply Nat.ltb_lt; lia).
      simpl andb. cbv iota. now rewrite Nat.sub_diag.
    + destruct (Nat.leb_spec (S k) j), (Nat.leb_spec k j),
        (Nat.ltb_spec j (S k + length results)),
        (Nat.ltb_spec j (k + S (length results))); simpl andb; cbv iota;
        try reflexivity; try lia.
      replace (j - k) with (S (j - S k)) by lia. reflexivity.
Qed.

Lemma fold_max_ge (rest : list (list pystr)) : forall m,
  m <= fold_left (fun m arts => Nat.max m (length arts)) rest m
  /\ forall arts, In arts rest ->
       length arts
       <= fold_left (fun m arts => Nat.max m (length arts)) rest m.
Proof.
  induction rest as [|a rest IH]; intros m; simpl.
  - split; [lia | intros ? []].
  - destruct (IH (Nat.max m (length a))) as (Hm & Hin). split; [lia|].
    intros arts [<- | H]; [lia | now apply Hin].
Qed.

Lemma max_articuls_ge results arts :
  In arts results -> length arts <= max_articuls results.
Proof.
  destruct results as [|a rest]; [intros []|]. unfold max_articuls.
  destruct (fold_max_ge rest (length a)) as (Hm & Hin).
  intros [<- | H]; [assumption | now apply Hin].
Qed.

Lemma nth_error_repeat_any {A : Type} (x : A) n i :
  nth_error (repeat x n) i = if i <? n then Some x else None.
Proof.
  revert i. induction n as [|n IH]; intros i; [now destruct i|].
  destruct i; [reflexivity|]. simpl. rewrite IH.
  change (S i <? S n) with (i <? n). reflexivity.
Qed.

Lemma write_cells_empty_line arts n :
  length arts <= n ->
  write_cells 0 arts (repeat [] n) = arts ++ repeat [] (n - length arts).
Proof.
  intros Hle. apply nth_error_ext. intros i.
  rewrite write_cells_nth_error, nth_error_repeat_any. simpl.
  rewrite Nat.sub_0_r.
  destruct (Nat.ltb_spec i (length arts)) as [Hlt | Hge].
  - replace (i <? n) with true by (symmetry; apply Nat.ltb_lt; lia).
    simpl. rewrite nth_error_app1 by assumption.
    symmetry. now apply nth_error_nth'.
  - rewrite nth_error_app2 by assumption. rewrite nth_error_repeat_any.
    destruct (Nat.ltb_spec i n), (Nat.ltb_spec (i - length arts)
                                     (n - length arts));
      try reflexivity; lia.
Qed.

Lemma added_columns_nth_error results j :
  nth_error (added_columns results) j
  = option_map
      (fun arts =>
         arts ++ repeat [] (max_articuls results - length arts))
      (nth_error results j).
Proof.
  unfold added_columns. cbv zeta.
  change (enumerate results)
    with (combine (seq 0 (length results)) results).
  rewrite outer_loop_nth_error, nth_error_map. simpl. rewrite Nat.sub_0_r.
  destruct (nth_error results j) as [arts|] eqn:E.
  - replace (j <? length results) with true
      by (symmetry; apply Nat.ltb_lt; apply nth_error_Some; congruence).
    simpl. rewrite (nth_error_nth _ _ [] E).
    rewrite write_cells_empty_line; [reflexivity|].
    apply max_articuls_ge. eapply nth_error_In; eassumption.
  - now destruct (j <? length results).
Qed.

Lemma filled_padded arts n :
  ~ In [] arts -> filled (arts ++ repeat [] n) = arts.
Proof.
  unfold filled. induction arts as [|a arts IH]; intros Hno.
  - simpl. induction n as [|n IHn]; [reflexivity | exact IHn].
  - destruct a as [|c a]; [exfalso; apply Hno; now left|]. simpl.
    f_equal. apply IH. intros H. apply Hno. now right.
Qed.

Lemma process_row_no_empty `{CaseMap} (r : row) : ~ In [] (process_row r).
Proof.
  intros Hin. apply (process_row_ok r) in Hin as (_ & [Hin | Hin]).
  - apply process_articul_ok in Hin as (Hvalid & _). discriminate.
  - apply extract_from_nomenclature_ok in Hin as (Hvalid & _). discriminate.
Qed.

(** X30.  The columns added by [main].  The line of a record holds its
    additional part numbers as [process_row] returns them, from the
    first added column on, and the empty text in the remaining added
    columns; every line has as many added cells as the longest result
    has members; and the cells of a line that are not empty are exactly
    the additional part numbers of its record, in their order. *)
Theorem main_added_columns `{CaseMap} (rows : list row) (j : nat) :
  nth_error (main rows) j
  = option_map
      (fun r =>
         process_row r
         ++ repeat []
              (max_articuls (map process_row rows)
               - length (process_row r)))
      (nth_error rows j)
  /\ (forall line, nth_error (main rows) j = Some line ->
                   length line = max_articuls (map process_row rows))
  /\ option_map filled (nth_error (main rows) j)
     = option_map process_row (nth_error rows j).
Proof.
  assert (E : nth_error (main rows) j
              = option_map
                  (fun r =>
                     process_row r
                     ++ repeat []
                          (max_articuls (map process_row rows)
                           - length (process_row r)))
                  (nth_error rows j)).
  { unfold main. rewrite added_columns_nth_error, nth_error_map.
    now destruct (nth_error rows j). }
  split; [exact E|]. rewrite E. split.
  - intros line Hline. destruct (nth_error rows j) as [r|] eqn:Er;
      [|discriminate]. simpl in Hline. injection Hline as <-.
    rewrite length_app, repeat_length.
    assert (length (process_row r) <= max_articuls (map process_row rows)).
    { apply max_articuls_ge. apply in_map.
      eapply nth_error_In; eassumption. }
    lia.
  - destruct (nth_error rows j) as [r|]; [|reflexivity]. simpl. f_equal.
    apply filled_padded, process_row_no_empty.
Qed.

End SortMainSpec.
